(** * react-nats: the hooks' array bookkeeping, embedded and verified

    The repository wraps a NATS client in three React bindings:
    [NatsProvider] (connection set-up), [useNatsKvTable] (a key-sorted table
    fed by a KV watcher, with batched upserts) and [useNatsStream] (a read
    loop over an ordered consumer, folded with a user-supplied reducer).

    Part I embeds the code.
    - JavaScript arrays are lists; where the code writes into an array, the
      function on the contents comes with the function on a store of
      arrays.  Objects used as bags of options are finite maps with string
      keys.
    - A call of user-supplied code ([decoder.decode], [enrich],
      [reducer.reduce]) returns an [option]: [None] stands for a thrown
      exception.  Such code is taken to be free of other effects.
    - React state and refs are fields of an explicit hook state.  A hook is
      driven by events: the effect runs and is cleaned up, the watcher or
      the consumer yields, the timer fires.  One event is handled to its
      end before the next, as on JavaScript's event loop.
    - The client library is taken to do what it is asked: opening a bucket,
      getting a consumer and consuming succeed.  What [useNatsStream] does
      to the outside world is appended to a log of actions.

    - What [NatsProvider] does to the outside world is logged likewise; its
      promises settle as events.

    Part II states and proves the properties the specification claims;
    Part III proves further properties of the same code. *)

From Stdlib Require Import ZArith Lia String List.
From stdpp Require Import base option list strings gmap sorting.

Local Open Scope Z_scope.

(* ================================================================== *)
(** * Part I: the embedding                                            *)
(* ================================================================== *)

(** ** JavaScript values and array builtins used by the hooks *)
Module Js.

(** [Uint8Array]: the payload bytes of a message or a KV entry. *)
Definition Uint8Array := list Byte.byte.

(** [Date]: its time value in milliseconds since the epoch, or the invalid
    date ([new Date(NaN)]), on which [toISOString] throws. *)
Inductive Date :=
| TimeValue (ms : Z)
| InvalidDate.

(** [Array.prototype.findIndex]: the index of the first element satisfying
    [p], and [-1] when there is none.  [findIndexFrom] is the scan with its
    running index. *)
Fixpoint findIndexFrom {A} (p : A → bool) (arr : list A) (i : Z) : Z :=
  match arr with
  | [] => -1
  | item :: rest => if p item then i else findIndexFrom p rest (i + 1)
  end.

Definition findIndex {A} (p : A → bool) (arr : list A) : Z :=
  findIndexFrom p arr 0.

(** [Array.prototype.sort(compare)].  ECMAScript requires the sort to be
    stable and, for a consistent comparator, to return the ascending
    arrangement.  That contract leaves one result, and it is the one a
    stable insertion sort computes (Part II proves both): [sortInsert] puts
    [x], which stood before every element of [sorted] in the array, in
    front of the first element it does not compare greater than. *)
Fixpoint sortInsert {A} (compare : A → A → Z) (x : A) (sorted : list A) : list A :=
  match sorted with
  | [] => [x]
  | y :: rest =>
      if compare x y <=? 0 then x :: y :: rest
      else y :: sortInsert compare x rest
  end.

Definition sort {A} (compare : A → A → Z) (arr : list A) : list A :=
  foldr (sortInsert compare) [] arr.

(** [String.prototype.localeCompare] depends on the host's locale; the
    development is parametric in it. *)
Class Collation := localeCompare : string → string → Z.

(** What ECMAScript calls a consistent comparator, and requires
    [localeCompare] to be, on the sign of the result: any two strings are
    comparable and the order is transitive. *)
Class ConsistentCollation `{Collation} : Prop := {
  localeCompare_total a b : localeCompare a b ≤ 0 ∨ localeCompare b a ≤ 0;
  localeCompare_trans a b c :
    localeCompare a b ≤ 0 → localeCompare b c ≤ 0 → localeCompare a c ≤ 0;
}.

(** JavaScript truthiness of an optional string: [undefined] and the empty
    string are falsy. *)
Definition truthyString (s : option string) : bool :=
  match s with
  | Some s => negb (String.eqb s "")
  | None => false
  end.

(** [Array.prototype.slice(start)]: the elements from [start] on; a negative
    [start] counts from the end, and either way the position is clamped to
    the array. *)
Definition slice {A} (start : Z) (arr : list A) : list A :=
  let len := Z.of_nat (length arr) in
  let k := if start <? 0 then Z.max (len + start) 0 else Z.min start len in
  drop (Z.to_nat k) arr.

End Js.

(** ** src/types.ts *)
Module NatsEntry.
Record t (U : Type) := mk { key : string; value : U; created : Js.Date }.
Arguments mk {U}.
Arguments key {U}.
Arguments value {U}.
Arguments created {U}.
End NatsEntry.
Abbreviation NatsEntry := NatsEntry.t.

Module NatsMessage.
Record t (T : Type) := mk { subject : string; value : T; received : Js.Date }.
Arguments mk {T}.
Arguments subject {T}.
Arguments value {T}.
Arguments received {T}.
End NatsMessage.
Abbreviation NatsMessage := NatsMessage.t.

(** ** src/useNatsKvTable.ts *)
Module useNatsKvTable.
Import Js.

Inductive Operation := PUT | DEL | PURGE.

(** [KvWatchEntry] of @nats-io/kv, with the fields the hook reads. *)
Module KvWatchEntry.
Record t := mk {
  key : string;
  value : Uint8Array;
  created : Date;
  operation : Operation;
}.
End KvWatchEntry.
Abbreviation KvWatchEntry := KvWatchEntry.t.

(** References to arrays, and the store they point into (see
    [stableUpsertRef] below). *)
Abbreviation Ref := nat.
Abbreviation Store V := (list (list (NatsEntry V))).

Section WithValues.
(** [V]: run-time JavaScript values.  The type parameters [T] and [U] of
    the hook are erased at run time ([decoded as unknown as U] is the
    identity), so one type of values serves for both. *)
Context {V : Type} `{Collation}.

Abbreviation Entry := (NatsEntry V).

(** The comparator handed to [sort]:
    [(a, b) => a.key.localeCompare(b.key)]. *)
Definition byKey (a b : Entry) : Z :=
  localeCompare (NatsEntry.key a) (NatsEntry.key b).

Definition stableUpsert (arr : list Entry) (newEntry : Entry) (inPlace : bool)
  : list Entry :=
  let index :=
    findIndex (λ item, String.eqb (NatsEntry.key item) (NatsEntry.key newEntry)) arr in
  if 0 <=? index then
    if inPlace then
      (* arr[index] = newEntry; return arr *)
      <[Z.to_nat index := newEntry]> arr
    else
      (* [...arr.slice(0, index), newEntry, ...arr.slice(index + 1)] *)
      take (Z.to_nat index) arr ++ [newEntry] ++ drop (Z.to_nat (index + 1)) arr
  else
    if inPlace then
      (* arr.push(newEntry); arr.sort(...); return arr *)
      sort byKey (arr ++ [newEntry])
    else
      (* [...arr, newEntry].sort(...) *)
      sort byKey (arr ++ [newEntry]).

(** *** Arrays as objects

    In the code an array is an object: the in-place variant of
    [stableUpsert] writes into its argument and returns it, the copying
    variant builds a new array and leaves its argument alone.  A [Store]
    lists the arrays allocated so far, and a reference is a position in it.
    [stableUpsertRef] is the function on references; [stableUpsert] above is
    what it does to the contents. *)
Definition deref (σ : Store V) (r : Ref) : list Entry := default [] (σ !! r).

Definition alloc (a : list Entry) (σ : Store V) : Store V * Ref := (σ ++ [a], length σ).

Definition assign (r : Ref) (a : list Entry) (σ : Store V) : Store V := <[r := a]> σ.

Definition stableUpsertRef (σ : Store V) (arr : Ref) (newEntry : Entry) (inPlace : bool)
  : Store V * Ref :=
  let index :=
    findIndex (λ item, String.eqb (NatsEntry.key item) (NatsEntry.key newEntry))
      (deref σ arr) in
  if 0 <=? index then
    if inPlace then
      (assign arr (<[Z.to_nat index := newEntry]> (deref σ arr)) σ, arr)
    else
      alloc (take (Z.to_nat index) (deref σ arr) ++ [newEntry]
               ++ drop (Z.to_nat (index + 1)) (deref σ arr)) σ
  else
    if inPlace then
      let σ := assign arr (deref σ arr ++ [newEntry]) σ in
      (assign arr (sort byKey (deref σ arr)) σ, arr)
    else
      let '(σ, fresh) := alloc (deref σ arr ++ [newEntry]) σ in
      (assign fresh (sort byKey (deref σ fresh)) σ, fresh).

(** The updater [flushUpdates] hands to [setEntries]: copy [prev], then fold
    the in-place [stableUpsert] over the updates, starting from the copy. *)
Definition flushUpdater (updatesToProcess : list Entry) (σ : Store V) (prev : Ref)
  : Store V * Ref :=
  let '(σ, newEntries) := alloc (deref σ prev) σ in
  foldl (λ acc newEntry, stableUpsertRef acc.1 acc.2 newEntry true)
    (σ, newEntries) updatesToProcess.

(** The hook's inputs that its logic reads.  [refreshInterval] is a number
    of which the code reads the sign ([refreshInterval > 0]); it defaults to
    50 at the call.  [bucketName] and [key] only travel to [kvm.open] and
    [kv.watch]. *)
Record NatsKvTableOptions := {
  decoder : Uint8Array → option V;
  enrich : option (string → Date → V → option V);
  refreshInterval : Z;
}.

(** One run of the effect, from [setupNats] to its cleanup: the options it
    closed over and whether its [for await] loop is still reading. *)
Record Effect := { options : NatsKvTableOptions; watching : bool }.

(** What outlives an effect run: the [entries] state, the
    [pendingUpdates] ref, and the effect currently set up, if any. *)
Record Hook := {
  entries : list Entry;
  pendingUpdates : list Entry;
  effect : option Effect;
}.

(** [useState([])], [useRef([])]. *)
Definition initial : Hook :=
  {| entries := []; pendingUpdates := []; effect := None |}.

Definition setEntries (f : list Entry → list Entry) (h : Hook) : Hook :=
  {| entries := f (entries h); pendingUpdates := pendingUpdates h; effect := effect h |}.

Definition setPending (p : list Entry) (h : Hook) : Hook :=
  {| entries := entries h; pendingUpdates := p; effect := effect h |}.

Definition setEffect (e : option Effect) (h : Hook) : Hook :=
  {| entries := entries h; pendingUpdates := pendingUpdates h; effect := e |}.

(** The [PUT] branch up to [newEntry]: decode, enrich when [enrich] is
    given, build the entry.  [None] when [decode] or [enrich] throws. *)
Definition newEntryOf (o : NatsKvTableOptions) (e : KvWatchEntry) : option Entry :=
  decoded ← decoder o (KvWatchEntry.value e);
  enrichedValue ←
    match enrich o with
    | Some f => f (KvWatchEntry.key e) (KvWatchEntry.created e) decoded
    | None => Some decoded
    end;
  Some (NatsEntry.mk (KvWatchEntry.key e) enrichedValue (KvWatchEntry.created e)).

(** [item => item.key !== e.key] *)
Definition otherKey (k : string) (item : Entry) : bool :=
  negb (String.eqb (NatsEntry.key item) k).

Definition flushUpdates (h : Hook) : Hook :=
  let updatesToProcess := pendingUpdates h in
  if (0 <? Z.of_nat (length updatesToProcess)) then
    setEntries
      (λ prev,
         let newEntries := prev in (* [...prev]: a copy, mutated below *)
         foldl (λ acc newEntry, stableUpsert acc newEntry true)
           newEntries updatesToProcess)
      (setPending [] h)
  else h.

(** The body of the watch loop when [refreshInterval > 0]. *)
Definition watchBatched (o : NatsKvTableOptions) (e : KvWatchEntry) (h : Hook) : option Hook :=
  match KvWatchEntry.operation e with
  | PUT =>
      newEntry ← newEntryOf o e;
      Some (setPending (pendingUpdates h ++ [newEntry]) h)
  | DEL | PURGE =>
      Some (setEntries (filter (λ item, otherKey (KvWatchEntry.key e) item))
              (setPending
                 (filter (λ item, otherKey (KvWatchEntry.key e) item) (pendingUpdates h))
                 h))
  end.

(** The body of the watch loop otherwise. *)
Definition watchUnbatched (o : NatsKvTableOptions) (e : KvWatchEntry) (h : Hook) : option Hook :=
  match KvWatchEntry.operation e with
  | PUT =>
      newEntry ← newEntryOf o e;
      Some (setEntries (λ prev, stableUpsert prev newEntry false) h)
  | DEL | PURGE =>
      Some (setEntries (filter (λ item, otherKey (KvWatchEntry.key e) item)) h)
  end.

Definition batched (o : NatsKvTableOptions) : bool := 0 <? refreshInterval o.

Definition watchBody (o : NatsKvTableOptions) : KvWatchEntry → Hook → option Hook :=
  if batched o then watchBatched o else watchUnbatched o.

(** What can happen to a mounted hook whose connection is up:
    - [EffectRun o]: the effect runs with options [o] and [setupNats]
      opens the bucket and the watcher;
    - [EffectCleanup]: the effect's cleanup (a dependency changed, or the
      component unmounts): the watcher is stopped, the interval cleared;
    - [Watch e]: the watcher yields [e] to the [for await] loop;
    - [IntervalTick]: the interval timer fires [flushUpdates]. *)
Inductive Event :=
| EffectRun (o : NatsKvTableOptions)
| EffectCleanup
| Watch (e : KvWatchEntry)
| IntervalTick.

Definition step (h : Hook) (ev : Event) : Hook :=
  match ev with
  | EffectRun o =>
      setEffect (Some {| options := o; watching := true |})
        (if batched o then flushUpdates h else h)
  | EffectCleanup => setEffect None h
  | Watch e =>
      match effect h with
      | Some eff =>
          if watching eff then
            match watchBody (options eff) e h with
            | Some h' => h'
            | None =>
                (* decode or enrich threw: the loop's promise rejects *)
                setEffect (Some {| options := options eff; watching := false |}) h
            end
          else h
      | None => h
      end
  | IntervalTick =>
      match effect h with
      | Some eff => if batched (options eff) then flushUpdates h else h
      | None => h
      end
  end.

Definition run (h : Hook) (evs : list Event) : Hook := foldl step h evs.

(** The table's shape: ascending in [localeCompare] of the keys, and no key
    twice. *)
Definition sortedByKey (arr : list Entry) : Prop :=
  Sorted (λ a b, byKey a b ≤ 0) arr.

Definition uniqueKeys (arr : list Entry) : Prop :=
  NoDup (NatsEntry.key <$> arr).

Definition tableInvariant (arr : list Entry) : Prop :=
  sortedByKey arr ∧ uniqueKeys arr.

(** The unbatched path on a list of updates: each one is applied at once
    with the copying [stableUpsert]. *)
Definition applyEach (prev : list Entry) (updates : list Entry) : list Entry :=
  foldl (λ acc newEntry, stableUpsert acc newEntry false) prev updates.

(** A batched hook [hb] (options [ob]) and an unbatched hook [hu] (options
    [ou]) are in step when applying the buffer of [hb] to its entries gives
    the entries of [hu], and their loops are alive or dead together. *)
Definition inStep (ob ou : NatsKvTableOptions) (hb hu : Hook) : Prop :=
  entries hu = applyEach (entries hb) (pendingUpdates hb) ∧
  ∃ w, effect hb = Some {| options := ob; watching := w |} ∧
       effect hu = Some {| options := ou; watching := w |}.

(** The events of a stretch in which the watcher yields PUTs only, with the
    timer firing in between as it likes. *)
Definition putOrTick (ev : Event) : Prop :=
  match ev with
  | Watch e => KvWatchEntry.operation e = PUT
  | IntervalTick => True
  | EffectRun _ | EffectCleanup => False
  end.

End WithValues.

Arguments NatsKvTableOptions : clear implicits.
Arguments Effect : clear implicits.
Arguments Hook : clear implicits.
Arguments Event : clear implicits.

(** *** The set-up is asynchronous

    The events above take a run of the effect and its [setupNats] as one
    step.  In the code [setupNats] awaits [kvm.open] and [kv.watch] before
    it assigns [watch], sets the interval and starts the loop, and the
    cleanup, which stops [watch] if it is assigned ([watch?.stop()]) and
    clears [interval] if it is set, can run in between.  The events below
    keep the two apart, and keep every run of the effect, since a run that
    was cleaned up can still act. *)
Module Async.
Section WithValues.
Context {V Connection : Type} `{Collation}.

(** One run of the effect that got past [if (!connection) return]: the
    connection and the options it closed over, whether [watch] has been
    assigned, whether its [for await] loop is reading, and whether its
    interval is set. *)
Record Setup := {
  connection : Connection;
  options : NatsKvTableOptions V;
  opened : bool;
  reading : bool;
  ticking : bool;
}.

(** The mounted hook: the [entries] state and the [pendingUpdates] ref,
    held in a [Hook] whose [effect] field stays [None]; every run of the
    effect, oldest first; and the run whose cleanup React holds. *)
Record Mounted := {
  table : Hook V;
  setups : list Setup;
  cleanup : option nat;
}.

Definition initial : Mounted :=
  {| table := useNatsKvTable.initial; setups := []; cleanup := None |}.

(** The cleanup of a run: [watch?.stop(); if (interval) clearInterval(interval)]. *)
Definition stop (s : Setup) : Setup :=
  if opened s
  then {| connection := connection s; options := options s; opened := true;
          reading := false; ticking := false |}
  else s.

(** - [EffectBody connection o]: the effect body runs; without a connection
      it returns at once, and returns no cleanup;
    - [Cleanup]: the cleanup React holds;
    - [Opened i]: the second [await] of [setupNats] in run [i] returns;
    - [Yield i e]: the watcher of run [i] yields [e] to its loop;
    - [Tick i]: the interval of run [i] fires. *)
Inductive Event :=
| EffectBody (connection : option Connection) (o : NatsKvTableOptions V)
| Cleanup
| Opened (i : nat)
| Yield (i : nat) (e : KvWatchEntry)
| Tick (i : nat).

Definition step (m : Mounted) (ev : Event) : Mounted :=
  match ev with
  | EffectBody None _ =>
      {| table := table m; setups := setups m; cleanup := None |}
  | EffectBody (Some c) o =>
      {| table := table m;
         setups := setups m ++ [{| connection := c; options := o; opened := false;
                                   reading := false; ticking := false |}];
         cleanup := Some (length (setups m)) |}
  | Cleanup =>
      match cleanup m with
      | Some i =>
          {| table := table m; setups := alter stop i (setups m); cleanup := None |}
      | None => m
      end
  | Opened i =>
      match setups m !! i with
      | Some s =>
          if opened s then m
          else
            {| table := if batched (options s) then flushUpdates (table m) else table m;
               setups := <[i := {| connection := connection s; options := options s;
                                   opened := true; reading := true;
                                   ticking := batched (options s) |}]> (setups m);
               cleanup := cleanup m |}
      | None => m
      end
  | Yield i e =>
      match setups m !! i with
      | Some s =>
          if reading s then
            match watchBody (options s) e (table m) with
            | Some t => {| table := t; setups := setups m; cleanup := cleanup m |}
            | None =>
                (* decode or enrich threw: the loop's promise rejects *)
                {| table := table m;
                   setups := <[i := {| connection := connection s; options := options s;
                                       opened := opened s; reading := false;
                                       ticking := ticking s |}]> (setups m);
                   cleanup := cleanup m |}
            end
          else m
      | None => m
      end
  | Tick i =>
      match setups m !! i with
      | Some s =>
          if ticking s
          then {| table := flushUpdates (table m); setups := setups m; cleanup := cleanup m |}
          else m
      | None => m
      end
  end.

Definition run (m : Mounted) (evs : list Event) : Mounted := foldl step m evs.

(** [e] is a PUT on which [decode] or [enrich] of [o] throws. *)
Definition throwsOn (o : NatsKvTableOptions V) (e : KvWatchEntry) : Prop :=
  KvWatchEntry.operation e = PUT ∧ newEntryOf o e = None.

End WithValues.

Arguments Setup : clear implicits.
Arguments Mounted : clear implicits.
Arguments Event : clear implicits.

End Async.

End useNatsKvTable.

(** ** src/useNatsStream.ts *)
Module useNatsStream.
Import Js.

(** [JsMsg] of @nats-io/jetstream, with the fields the hook reads. *)
Module JsMsg.
Record t := mk { time : Date; subject : string; data : Uint8Array }.
End JsMsg.
Abbreviation JsMsg := JsMsg.t.

(** The [subject] option: [string | string[]]. *)
Inductive Subjects :=
| Subject (s : string)
| SubjectList (l : list string).

(** Truthiness of [subject]: [undefined] and [""] are falsy, every array is
    truthy. *)
Definition truthySubjects (s : option Subjects) : bool :=
  match s with
  | Some (Subject s) => negb (String.eqb s "")
  | Some (SubjectList _) => true
  | None => false
  end.

Inductive DeliverPolicy :=
| All | Last | New | StartSequence | StartTime | LastPerSubject.

(** [Partial<OrderedConsumerOptions>], with the fields the hook sets; a field
    that was never assigned is [None]. *)
Module OrderedConsumerOptions.
Record t := mk {
  opt_start_time : option string;
  deliver_policy : option DeliverPolicy;
  filter_subjects : option Subjects;
}.
End OrderedConsumerOptions.
Abbreviation OrderedConsumerOptions := OrderedConsumerOptions.t.

(** [Date.prototype.toISOString] on a valid time value; the text it produces
    is the host's business. *)
Class DateFormat := isoString : Z → string.

(** [toISOString] throws a [RangeError] on the invalid date. *)
Definition toISOString `{DateFormat} (d : Date) : option string :=
  match d with
  | TimeValue ms => Some (isoString ms)
  | InvalidDate => None
  end.

Section WithValues.
(** [V]: decoded values; [Connection]: the [NatsConnection] objects handed
    down by the provider. *)
Context {V Connection : Type} `{DateFormat}.

Abbreviation Message := (NatsMessage V).

(** [NatsStreamOptions<T>] *)
Record NatsStreamOptions := {
  stream : option string;
  subject : option Subjects;
  decoder : Uint8Array → option V;
  reducer : list Message → Message → option (list Message);
  opt_start_time : option Date;
}.

(** What the hook does to the outside world, in the order it does it.
    [ReadIsCurrent b] records the loop's test of the cancellation flag and
    what it read; console output is left out. *)
Inductive Action :=
| SetData (d : list Message)
| Jetstream (c : Connection)
| ConsumersGet (stream : string) (opt : OrderedConsumerOptions)
| Consume (max_messages : Z)
| Ack (m : JsMsg)
| ReadIsCurrent (b : bool)
| ConsumerDelete.

(** One run of the effect that got as far as [setupNats]: the options it
    closed over, its [isCurrent] flag, the loop's [effectData], and whether
    its [for await] loop is reading. *)
Record Effect := {
  props : NatsStreamOptions;
  isCurrent : bool;
  effectData : list Message;
  consuming : bool;
}.

(** The hook: the [data] state, every effect run so far (oldest first), the
    run whose cleanup React holds, and the log. *)
Record Hook := {
  data : list Message;
  effects : list Effect;
  cleanup : option nat;
  log : list Action;
}.

Definition initial : Hook :=
  {| data := []; effects := []; cleanup := None; log := [] |}.

Definition emit (a : list Action) (h : Hook) : Hook :=
  {| data := data h; effects := effects h; cleanup := cleanup h; log := log h ++ a |}.

Definition setData (d : list Message) (h : Hook) : Hook :=
  {| data := d; effects := effects h; cleanup := cleanup h; log := log h ++ [SetData d] |}.

Definition setEffects (l : list Effect) (h : Hook) : Hook :=
  {| data := data h; effects := l; cleanup := cleanup h; log := log h |}.

Definition setCleanup (c : option nat) (h : Hook) : Hook :=
  {| data := data h; effects := effects h; cleanup := c; log := log h |}.

(** The options object [opt] built in [setupNats]; [None] when [toISOString]
    throws. *)
Definition consumerOptions (o : NatsStreamOptions) : option OrderedConsumerOptions :=
  opt ←
    match opt_start_time o with
    | Some d =>
        iso ← toISOString d;
        Some (OrderedConsumerOptions.mk (Some iso) (Some StartTime) None)
    | None => Some (OrderedConsumerOptions.mk None None None)
    end;
  Some (if truthySubjects (subject o)
        then OrderedConsumerOptions.mk
               (OrderedConsumerOptions.opt_start_time opt)
               (OrderedConsumerOptions.deliver_policy opt)
               (subject o)
        else opt).

(** The three early returns of the effect. *)
Definition guardsPass (connection : option Connection) (o : NatsStreamOptions) : bool :=
  match connection with
  | Some _ =>
      match opt_start_time o with
      | Some _ => truthyString (stream o)
      | None => false
      end
  | None => false
  end.

(** [setupNats] up to the loop: the calls are taken to succeed. *)
Definition setupNats (c : Connection) (o : NatsStreamOptions) (h : Hook) : Hook :=
  let h := emit [Jetstream c] h in
  match consumerOptions o with
  | Some opt =>
      setEffects
        (effects h ++ [{| props := o; isCurrent := true; effectData := []; consuming := true |}])
        (emit [ConsumersGet (default ""%string (stream o)) opt; Consume 1] h)
  | None =>
      setEffects
        (effects h ++ [{| props := o; isCurrent := true; effectData := []; consuming := false |}])
        h
  end.

(** The effect body, run on mount and whenever a dependency changed. *)
Definition runEffect (connection : option Connection) (o : NatsStreamOptions) (h : Hook)
  : Hook :=
  let h := setData [] h in
  match connection with
  | None => setCleanup None h
  | Some c =>
      if negb (bool_decide (is_Some (opt_start_time o))) then setCleanup None h
      else if negb (truthyString (stream o)) then setCleanup None h
      else setCleanup (Some (length (effects h))) (setupNats c o h)
  end.

(** The cleanup React holds: [isCurrent = false] in the run it belongs to. *)
Definition cancel (eff : Effect) : Effect :=
  {| props := props eff; isCurrent := false;
     effectData := effectData eff; consuming := consuming eff |}.

Definition runCleanup (h : Hook) : Hook :=
  match cleanup h with
  | Some i =>
      setCleanup None
        (setEffects (alter cancel i (effects h)) h)
  | None => h
  end.

(** The record built from a delivered message; [None] when [decode] throws. *)
Definition toMessage (o : NatsStreamOptions) (m : JsMsg) : option Message :=
  value ← decoder o (JsMsg.data m);
  Some (NatsMessage.mk (JsMsg.subject m) value (JsMsg.time m)).

(** The two statements of the loop body that can throw: building [d] and
    [reducer.reduce(effectData, d)]. *)
Definition reduceWith (o : NatsStreamOptions) (acc : list Message) (m : JsMsg)
  : option (list Message) :=
  d ← toMessage o m;
  reducer o acc d.

(** One iteration of [for await (const m of messages)] in effect run [i]. *)
Definition deliver (i : nat) (m : JsMsg) (h : Hook) : Hook :=
  match effects h !! i with
  | Some eff =>
      if consuming eff then
        match reduceWith (props eff) (effectData eff) m with
        | Some effectData' =>
            let h := emit [Ack m; ReadIsCurrent (isCurrent eff)] h in
            if isCurrent eff then
              setData effectData'
                (setEffects
                   (<[i := {| props := props eff; isCurrent := true;
                              effectData := effectData'; consuming := true |}]>
                      (effects h)) h)
            else
              (* break; finally: c.delete() *)
              emit [ConsumerDelete]
                (setEffects
                   (<[i := {| props := props eff; isCurrent := false;
                              effectData := effectData'; consuming := false |}]>
                      (effects h)) h)
        | None =>
            (* the exception leaves the loop; finally: c.delete() *)
            emit [ConsumerDelete]
              (setEffects
                 (<[i := {| props := props eff; isCurrent := isCurrent eff;
                            effectData := effectData eff; consuming := false |}]>
                    (effects h)) h)
        end
      else h
  | None => h
  end.

(** What can happen to a mounted hook:
    - [Render c o]: a commit in which React runs the effect, on mount and
      whenever one of [connection, stream, decoder, reducer, subject,
      opt_start_time] changed: the previous run's cleanup, then the body;
    - [Unmount]: the last cleanup;
    - [Deliver i m]: the consumer of effect run [i] yields [m].
    The hook returns the [data] state at each render.  React renders before
    it commits, so the render that first sees new inputs still returns the
    state as the previous run left it; the model follows the state from the
    commit on. *)
Inductive Event :=
| Render (connection : option Connection) (o : NatsStreamOptions)
| Unmount
| Deliver (i : nat) (m : JsMsg).

Definition step (h : Hook) (ev : Event) : Hook :=
  match ev with
  | Render c o => runEffect c o (runCleanup h)
  | Unmount => runCleanup h
  | Deliver i m => deliver i m h
  end.

Definition run (h : Hook) (evs : list Event) : Hook := foldl step h evs.

(** The left fold of [reducer.reduce] over the records of [ms]; [None] when a
    call throws. *)
Fixpoint foldMessages (o : NatsStreamOptions) (acc : list Message) (ms : list JsMsg)
  : option (list Message) :=
  match ms with
  | [] => Some acc
  | m :: rest => acc' ← reduceWith o acc m; foldMessages o acc' rest
  end.

(** The fold read in two passes, as one would describe it: the records
    [{received: m.time, subject: m.subject, value: decoder.decode(m.data)}]
    of the messages, then the left fold of [reducer.reduce] over them. *)
Definition recordsOf (o : NatsStreamOptions) (ms : list JsMsg) : option (list Message) :=
  mapM (toMessage o) ms.

Fixpoint foldReduce (o : NatsStreamOptions) (acc : list Message) (records : list Message)
  : option (list Message) :=
  match records with
  | [] => Some acc
  | d :: rest => acc' ← reducer o acc d; foldReduce o acc' rest
  end.

(** The same fold, stopped at the first call that throws: what the loop has
    published by then. *)
Fixpoint published (o : NatsStreamOptions) (acc : list Message) (ms : list JsMsg)
  : list Message :=
  match ms with
  | [] => acc
  | m :: rest =>
      match reduceWith o acc m with
      | Some acc' => published o acc' rest
      | None => acc
      end
  end.

(** The messages of a delivery schedule addressed to effect run [i]. *)
Definition deliveredTo (i : nat) (ds : list (nat * JsMsg)) : list JsMsg :=
  snd <$> filter (λ d, bool_decide (fst d = i)) ds.

Definition deliveries (ds : list (nat * JsMsg)) : list Event :=
  (λ d, Deliver (fst d) (snd d)) <$> ds.

(** Whether a run of the effect gets to read from a consumer: the guards let
    it through and the options object could be built. *)
Definition startsConsuming (connection : option Connection) (o : NatsStreamOptions)
  : bool :=
  guardsPass connection o && bool_decide (is_Some (consumerOptions o)).

(** The calls one run of the effect makes after resetting the data. *)
Definition setupCalls (connection : option Connection) (o : NatsStreamOptions)
  : list Action :=
  match connection with
  | Some c =>
      if guardsPass connection o then
        Jetstream c ::
          match consumerOptions o with
          | Some opt => [ConsumersGet (default ""%string (stream o)) opt; Consume 1]
          | None => []
          end
      else []
  | None => []
  end.

(** Kinds of actions, for counting them in a log. *)
Definition isSetData (a : Action) : bool :=
  match a with SetData _ => true | _ => false end.

Definition isConsumersGet (a : Action) : bool :=
  match a with ConsumersGet _ _ => true | _ => false end.

Definition isConsume (a : Action) : bool :=
  match a with Consume _ => true | _ => false end.

Definition isConsumerDelete (a : Action) : bool :=
  match a with ConsumerDelete => true | _ => false end.

(** The number of runs that hold a consumer and are in their loop. *)
Definition consumingRuns (h : Hook) : nat :=
  length (filter (λ eff, consuming eff = true) (effects h)).

(** The books balance: the consumers got are those deleted and those still
    read, and each was consumed from once, one message at a time. *)
Definition balanced (h : Hook) : Prop :=
  length (filter (λ a, isConsumersGet a) (log h))
    = (length (filter (λ a, isConsumerDelete a) (log h)) + consumingRuns h)%nat ∧
  length (filter (λ a, isConsume a) (log h))
    = length (filter (λ a, isConsumersGet a) (log h)) ∧
  Forall (λ a, ∀ n, a = Consume n → n = 1) (log h).

(** Only the run whose cleanup React holds can still be current. *)
Definition wellFormed (h : Hook) : Prop :=
  ∀ (j : nat) eff,
    effects h !! j = Some eff → isCurrent eff = true → cleanup h = Some j.

(** No run can publish any more: each is cancelled or has left its loop. *)
Definition quiet (h : Hook) : Prop :=
  Forall (λ eff, isCurrent eff = false ∨ consuming eff = false) (effects h).

(** Run [i] is current and in its loop with [acc] folded and published;
    every other run is cancelled. *)
Definition reading (i : nat) (o : NatsStreamOptions) (acc : list Message) (h : Hook)
  : Prop :=
  effects h !! i
    = Some {| props := o; isCurrent := true; effectData := acc; consuming := true |} ∧
  data h = acc ∧
  ∀ (j : nat) eff, j ≠ i → effects h !! j = Some eff → isCurrent eff = false.

End WithValues.

Arguments NatsStreamOptions : clear implicits.
Arguments Action : clear implicits.
Arguments Effect : clear implicits.
Arguments Hook : clear implicits.
Arguments Event : clear implicits.

End useNatsStream.

(** ** src/NatsProvider.tsx *)
Module NatsProvider.

(** The values that occur in connection options. *)
Inductive JsValue :=
| VUndefined
| VBoolean (b : bool)
| VNumber (n : Z)
| VString (s : string)
| VStrings (l : list string).

(** [Partial<ConnectionOptions>]: an object, as the finite map of its own
    properties. *)
Abbreviation ConnectionOptions := (gmap string JsValue).

(** [{ ...target, ...source }]: the properties of [source] are copied over
    those of [target]; spreading [undefined] copies nothing. *)
Definition spread (target : ConnectionOptions) (source : option ConnectionOptions)
  : ConnectionOptions :=
  match source with
  | Some source => source ∪ target
  | None => target
  end.

(** The argument of [wsconnect] as src/NatsProvider.tsx writes it, with the
    defaults inline and [options = {}] as the parameter's default:
    [{ servers: url, reconnect: true, pingInterval: 10000, maxPingOut: 5,
       ...options }]. *)
Definition wsconnectArgument (url : string) (options : option ConnectionOptions)
  : ConnectionOptions :=
  let options := default ∅ options in
  spread
    (<["maxPingOut" := VNumber 5]>
       (<["pingInterval" := VNumber 10000]>
          (<["reconnect" := VBoolean true]>
             (<["servers" := VString url]> ∅))))
    (Some options).

(** The later revisions of the file name the defaults and merge in two
    steps. *)
Definition DEFAULT_OPTIONS : ConnectionOptions :=
  <["maxPingOut" := VNumber 5]>
    (<["pingInterval" := VNumber 10000]>
       (<["reconnect" := VBoolean true]> ∅)).

(** [{ ...DEFAULT_OPTIONS, ...options }] *)
Definition connectionOptions (options : option ConnectionOptions) : ConnectionOptions :=
  spread (spread ∅ (Some DEFAULT_OPTIONS)) options.

(** [{ servers: url, ...connectionOptions }] *)
Definition wsconnectArgument' (url : string) (options : option ConnectionOptions)
  : ConnectionOptions :=
  spread (<["servers" := VString url]> ∅) (Some (connectionOptions options)).

Section WithConnections.
Context {Connection : Type}.

(** The provider's state and refs. *)
Record ProviderState := {
  connection : option Connection;
  connRef : option Connection;
  isConnectingRef : bool;
}.

(** The effect up to the call of [wsconnect]: nothing is called while a
    connection is being made or is held; otherwise [isConnectingRef] is set
    and [wsconnect] is called with the merged options.  The second component
    is the call's argument, if the call is made. *)
Definition establishConnection (url : string) (options : option ConnectionOptions)
    (p : ProviderState) : ProviderState * option ConnectionOptions :=
  if isConnectingRef p || bool_decide (is_Some (connRef p)) then (p, None)
  else
    ({| connection := connection p; connRef := connRef p; isConnectingRef := true |},
     Some (wsconnectArgument url options)).

(** *** The effect's life cycle *)

(** What the provider does to the outside world; console output is left
    out. *)
Inductive Action :=
| Wsconnect (argument : ConnectionOptions)
| Close (c : Connection).

(** One run of the effect that got past the guard: its [isActive] flag,
    whether its [await wsconnect(...)] is still pending, and the connection
    on whose [closed()] promise its handler waits. *)
Record Run := {
  isActive : bool;
  connecting : bool;
  listening : option Connection;
}.

(** The mounted provider: state and refs, every effect run that got past
    the guard (oldest first), the run whose cleanup React holds, and the
    log. *)
Record Provider := {
  current : ProviderState;
  runs : list Run;
  cleanup : option nat;
  log : list Action;
}.

(** [useState(null)], [useRef(null)], [useRef(false)]. *)
Definition initial : Provider :=
  {| current := {| connection := None; connRef := None; isConnectingRef := false |};
     runs := []; cleanup := None; log := [] |}.

(** The effect body.  A run stopped by the guard returns no cleanup. *)
Definition runEffect (url : string) (options : option ConnectionOptions) (p : Provider)
  : Provider :=
  match establishConnection url options (current p) with
  | (s, Some argument) =>
      {| current := s;
         runs := runs p ++ [{| isActive := true; connecting := true; listening := None |}];
         cleanup := Some (length (runs p));
         log := log p ++ [Wsconnect argument] |}
  | (s, None) =>
      {| current := s; runs := runs p; cleanup := None; log := log p |}
  end.

(** [isActive = false] in the run the cleanup belongs to. *)
Definition deactivate (r : Run) : Run :=
  {| isActive := false; connecting := connecting r; listening := listening r |}.

(** The cleanup React holds: the run is deactivated; a connection held in
    [connRef] is closed, and ref and state are reset; [isConnectingRef] is
    reset either way. *)
Definition runCleanup (p : Provider) : Provider :=
  match cleanup p with
  | Some i =>
      match connRef (current p) with
      | Some c =>
          {| current := {| connection := None; connRef := None; isConnectingRef := false |};
             runs := alter deactivate i (runs p);
             cleanup := None;
             log := log p ++ [Close c] |}
      | None =>
          {| current := {| connection := connection (current p); connRef := None;
                           isConnectingRef := false |};
             runs := alter deactivate i (runs p);
             cleanup := None;
             log := log p |}
      end
  | None => p
  end.

(** [await wsconnect(...)] of run [i] returns [newConnection]. *)
Definition connected (i : nat) (newConnection : Connection) (p : Provider) : Provider :=
  match runs p !! i with
  | Some r =>
      if connecting r then
        if isActive r then
          {| current := {| connection := Some newConnection; connRef := Some newConnection;
                           isConnectingRef := isConnectingRef (current p) |};
             runs := <[i := {| isActive := true; connecting := false;
                               listening := Some newConnection |}]> (runs p);
             cleanup := cleanup p;
             log := log p |}
        else
          (* the run was superseded: newConnection.close() *)
          {| current := current p;
             runs := <[i := {| isActive := false; connecting := false;
                               listening := None |}]> (runs p);
             cleanup := cleanup p;
             log := log p ++ [Close newConnection] |}
      else p
  | None => p
  end.

(** [await wsconnect(...)] of run [i] throws: the [catch] block. *)
Definition failed (i : nat) (p : Provider) : Provider :=
  match runs p !! i with
  | Some r =>
      if connecting r then
        {| current :=
             if isActive r
             then {| connection := None; connRef := connRef (current p);
                     isConnectingRef := false |}
             else current p;
           runs := <[i := {| isActive := isActive r; connecting := false;
                             listening := None |}]> (runs p);
           cleanup := cleanup p;
           log := log p |}
      else p
  | None => p
  end.

(** The [closed()] promise on which run [i] waits resolves: the handler
    passed to [then]. *)
Definition closed (i : nat) (p : Provider) : Provider :=
  match runs p !! i with
  | Some r =>
      match listening r with
      | Some _ =>
          {| current :=
               if isActive r
               then {| connection := None; connRef := None; isConnectingRef := false |}
               else current p;
             runs := <[i := {| isActive := isActive r; connecting := connecting r;
                               listening := None |}]> (runs p);
             cleanup := cleanup p;
             log := log p |}
      | None => p
      end
  | None => p
  end.

(** What can happen to a mounted provider:
    - [Commit url options]: a commit in which React runs the effect, on
      mount and whenever [url] or [options] changed: the previous run's
      cleanup, if it returned one, then the body;
    - [Unmount]: the last cleanup;
    - [Connected i c], [Failed i]: the [wsconnect] promise of run [i]
      settles;
    - [Closed i]: the [closed()] promise of run [i]'s connection resolves. *)
Inductive Event :=
| Commit (url : string) (options : option ConnectionOptions)
| Unmount
| Connected (i : nat) (c : Connection)
| Failed (i : nat)
| Closed (i : nat).

Definition step (p : Provider) (ev : Event) : Provider :=
  match ev with
  | Commit url options => runEffect url options (runCleanup p)
  | Unmount => runCleanup p
  | Connected i c => connected i c p
  | Failed i => failed i p
  | Closed i => closed i p
  end.

Definition run (p : Provider) (evs : list Event) : Provider := foldl step p evs.

Definition isWsconnect (a : Action) : bool :=
  match a with Wsconnect _ => true | Close _ => false end.

Definition isCommit (ev : Event) : bool :=
  match ev with Commit _ _ => true | _ => false end.

Definition isConnected (ev : Event) : bool :=
  match ev with Connected _ _ => true | _ => false end.

(** The refs are consistent with the runs: only the run whose cleanup React
    holds can be active; the state shows the connection held in [connRef];
    a connection is held only while the active run listens to it; and
    [isConnectingRef] is set only while React holds a cleanup. *)
Definition consistent (p : Provider) : Prop :=
  (∀ (j : nat) r, runs p !! j = Some r → isActive r = true → cleanup p = Some j) ∧
  connection (current p) = connRef (current p) ∧
  (∀ c, connRef (current p) = Some c →
     ∃ (j : nat) r, cleanup p = Some j ∧ runs p !! j = Some r ∧
       isActive r = true ∧ connecting r = false ∧ listening r = Some c) ∧
  (cleanup p = None → isConnectingRef (current p) = false).

(** Nothing is held, nothing is being made, and no run is active. *)
Definition dormant (p : Provider) : Prop :=
  current p = {| connection := None; connRef := None; isConnectingRef := false |} ∧
  cleanup p = None ∧
  Forall (λ r, isActive r = false) (runs p).

End WithConnections.

Arguments ProviderState : clear implicits.
Arguments Action : clear implicits.
Arguments Run : clear implicits.
Arguments Provider : clear implicits.
Arguments Event : clear implicits.

(** *** Which renders run the effect

    [useEffect] runs the effect after the first render, and after a later
    render when its dependency array differs from the previous one in some
    position under [Object.is]: strings are compared by value, objects by
    identity.  An object is identified by the number of objects allocated
    before it. *)
Abbreviation ObjectId := nat (only parsing).

(** [NatsProviderProps], as the parent passes them: [options] is an object,
    with its identity and its properties, or absent. *)
Module NatsProviderProps.
Record t := mk { url : string; options : option (ObjectId * ConnectionOptions) }.
End NatsProviderProps.
Abbreviation NatsProviderProps := NatsProviderProps.t.

(** A dependency array of a string and an object. *)
Record Deps := { depUrl : string; depOptions : ObjectId }.

(** [Object.is], position by position. *)
Definition sameDeps (a b : Deps) : bool :=
  String.eqb (depUrl a) (depUrl b) && Nat.eqb (depOptions a) (depOptions b).

Definition effectRuns (previous : option Deps) (deps : Deps) : bool :=
  match previous with
  | Some previous => negb (sameDeps previous deps)
  | None => true
  end.

(** src/NatsProvider.tsx: the parameter default [options = {}] allocates an
    object at every render in which the prop is absent, and the dependency
    array is [[url, options]].  The result is the array, the object spread
    into the argument of [wsconnect], and the next free identity. *)
Definition renderDefault (props : NatsProviderProps) (next : ObjectId)
  : Deps * ConnectionOptions * ObjectId :=
  match NatsProviderProps.options props with
  | Some (id, options) =>
      ({| depUrl := NatsProviderProps.url props; depOptions := id |}, options, next)
  | None =>
      ({| depUrl := NatsProviderProps.url props; depOptions := next |}, ∅, S next)
  end.

(** The later revisions: [options] has no default, and
    [useMemo(() => ({ ...DEFAULT_OPTIONS, ...options }), [options])] keeps
    the merged object until the prop changes identity; the dependency array
    is [[url, connectionOptions]].  The memo cell holds the dependency and
    the object of the last computation. *)
Abbreviation Memo := (option (option ObjectId * (ObjectId * ConnectionOptions))).

Definition renderMemo (props : NatsProviderProps) (memo : Memo) (next : ObjectId)
  : Deps * ConnectionOptions * Memo * ObjectId :=
  let dependency := fst <$> NatsProviderProps.options props in
  let compute :=
    ({| depUrl := NatsProviderProps.url props; depOptions := next |},
     connectionOptions (snd <$> NatsProviderProps.options props),
     Some (dependency, (next, connectionOptions (snd <$> NatsProviderProps.options props))),
     S next) in
  match memo with
  | Some (previous, (id, merged)) =>
      if bool_decide (previous = dependency)
      then ({| depUrl := NatsProviderProps.url props; depOptions := id |}, merged, memo, next)
      else compute
  | None => compute
  end.

End NatsProvider.

(** ** src/useNatsConnection.ts *)
Module useNatsConnection.

(** [useContext(NatsContext)]: the [connection] state of the provider above,
    and the context's default, [null], when there is none. *)
Definition useNatsConnection {Connection}
    (provider : option (NatsProvider.ProviderState Connection)) : option Connection :=
  match provider with
  | Some p => NatsProvider.connection p
  | None => None
  end.

End useNatsConnection.

(** ** Concrete data for the examples *)
Module Fixtures.
Import Js.

(** Comparison by code units. *)
Definition codeUnitCompare (a b : string) : Z :=
  match String.compare a b with
  | Lt => -1
  | Eq => 0
  | Gt => 1
  end.

Definition codeUnitCollation : Collation := codeUnitCompare.

(** A decoder that reads the payload length and throws on the empty
    payload, as the JSON decoder of the tests does. *)
Definition lengthDecoder (data : Uint8Array) : option nat :=
  match data with
  | [] => None
  | _ => Some (length data)
  end.

(** A payload of [n] zero bytes. *)
Definition payload (n : nat) : Uint8Array := replicate n Byte.x00.

(** A decoder that never throws. *)
Definition sizeDecoder (data : Uint8Array) : option nat := Some (length data).

(** The reducer of the tests: [(arr, elem) => [...arr, elem]]. *)
Definition appendReducer {T} (arr : list (NatsMessage T)) (elem : NatsMessage T)
  : option (list (NatsMessage T)) :=
  Some (arr ++ [elem]).

(** The sliding-window reducer of the README and of the stream tests:
    [(arr, msg) => [...arr, msg].slice(-windowSize)]. *)
Definition slidingWindowReducer {T} (windowSize : Z)
    (arr : list (NatsMessage T)) (elem : NatsMessage T)
  : option (list (NatsMessage T)) :=
  Some (slice (- windowSize) (arr ++ [elem])).

(** A stand-in for the host's date formatting. *)
Definition epochIso : useNatsStream.DateFormat :=
  λ ms, match ms with
        | 0 => "1970-01-01T00:00:00.000Z"%string
        | _ => "later"%string
        end.

Definition entry (k : string) (v : nat) : NatsEntry nat :=
  NatsEntry.mk k v (TimeValue 0).

Definition put (k : string) (payload : Uint8Array) : useNatsKvTable.KvWatchEntry :=
  useNatsKvTable.KvWatchEntry.mk k payload (TimeValue 0) useNatsKvTable.PUT.

Definition del (k : string) : useNatsKvTable.KvWatchEntry :=
  useNatsKvTable.KvWatchEntry.mk k [] (TimeValue 0) useNatsKvTable.DEL.

Definition kvOptions (refreshInterval : Z) : useNatsKvTable.NatsKvTableOptions nat :=
  {| useNatsKvTable.decoder := sizeDecoder; useNatsKvTable.enrich := None;
     useNatsKvTable.refreshInterval := refreshInterval |}.

Definition msg (subject : string) (payload : Uint8Array) : useNatsStream.JsMsg :=
  useNatsStream.JsMsg.mk (TimeValue 0) subject payload.

Definition streamOptions (subject : option useNatsStream.Subjects) : useNatsStream.NatsStreamOptions nat :=
  {| useNatsStream.stream := Some "orders"%string; useNatsStream.subject := subject;
     useNatsStream.decoder := lengthDecoder; useNatsStream.reducer := appendReducer;
     useNatsStream.opt_start_time := Some (TimeValue 0) |}.

End Fixtures.

(* ================================================================== *)
(** * Part II: properties                                              *)
(* ================================================================== *)

(** ** Array builtins *)
Section JsFacts.
Import Js.
Context {A : Type}.

Lemma findIndexFrom_list_find (p : A → bool) (arr : list A) (i : Z) :
  findIndexFrom p arr i =
    match list_find (λ x, Is_true (p x)) arr with
    | Some (n, _) => i + Z.of_nat n
    | None => -1
    end.
Proof.
  revert i. induction arr as [|x arr IH]; intros i; simpl; [done|].
  destruct (p x) eqn:Hp; simpl.
  - lia.
  - rewrite IH. destruct (list_find _ arr) as [[n y]|]; simpl; lia.
Qed.

(** [findIndex] returns the first position whose element satisfies [p]. *)
Lemma findIndex_found (p : A → bool) (arr : list A) :
  0 ≤ findIndex p arr →
  ∃ (n : nat) (x : A),
    findIndex p arr = Z.of_nat n ∧ arr !! n = Some x ∧ p x = true ∧
    ∀ (j : nat) y, arr !! j = Some y → (j < n)%nat → p y = false.
Proof.
  unfold findIndex. rewrite findIndexFrom_list_find.
  destruct (list_find _ arr) as [[n x]|] eqn:Hfind; [|lia].
  intros _. apply list_find_Some in Hfind as (Hx & Hp & Hfirst).
  exists n, x. split_and!; [lia|done|by apply Is_true_true|].
  intros j y Hy Hj. specialize (Hfirst j y Hy Hj).
  destruct (p y); [by destruct Hfirst|done].
Qed.

Lemma findIndex_first (p : A → bool) (arr : list A) (n : nat) (x : A) :
  arr !! n = Some x → p x = true →
  (∀ (j : nat) y, arr !! j = Some y → (j < n)%nat → p y = false) →
  findIndex p arr = Z.of_nat n.
Proof.
  intros Hx Hp Hfirst. unfold findIndex. rewrite findIndexFrom_list_find.
  assert (list_find (λ x, Is_true (p x)) arr = Some (n, x)) as ->; [|lia].
  apply list_find_Some. split_and!; [done|by rewrite Hp|].
  intros j y Hy Hj. specialize (Hfirst j y Hy Hj). simpl.
  destruct (p y); [done|tauto].
Qed.

Lemma findIndex_absent (p : A → bool) (arr : list A) :
  ¬ 0 ≤ findIndex p arr → Forall (λ x, p x = false) arr.
Proof.
  unfold findIndex. rewrite findIndexFrom_list_find.
  destruct (list_find _ arr) as [[n x]|] eqn:Hfind; [lia|].
  intros _. apply list_find_None in Hfind.
  eapply Forall_impl; [done|]. intros y Hy. simpl in Hy.
  destruct (p y); [by destruct Hy|done].
Qed.

Lemma sortInsert_Permutation (compare : A → A → Z) x l :
  sortInsert compare x l ≡ₚ x :: l.
Proof.
  induction l as [|y l IH]; simpl; [done|].
  case_match; [done|]. rewrite IH. apply Permutation_swap.
Qed.

Lemma sort_Permutation (compare : A → A → Z) l : sort compare l ≡ₚ l.
Proof.
  induction l as [|x l IH]; simpl; [done|].
  unfold sort in *. simpl. by rewrite sortInsert_Permutation, IH.
Qed.

(** With a comparator under which any two elements are comparable, the
    result of [sort] is ascending. *)
Section Ascending.
Context (compare : A → A → Z).
Hypothesis compare_total : ∀ a b, compare a b ≤ 0 ∨ compare b a ≤ 0.

Lemma sortInsert_HdRel a x l :
  compare a x ≤ 0 → HdRel (λ a b, compare a b ≤ 0) a l →
  HdRel (λ a b, compare a b ≤ 0) a (sortInsert compare x l).
Proof.
  intros Hax Hal. destruct l as [|y l]; simpl; [by constructor|].
  inversion_clear Hal. case_match; by constructor.
Qed.

Lemma sortInsert_Sorted x l :
  Sorted (λ a b, compare a b ≤ 0) l →
  Sorted (λ a b, compare a b ≤ 0) (sortInsert compare x l).
Proof.
  induction 1 as [|y l Hl IH Hy]; simpl; [by repeat constructor|].
  destruct (compare x y <=? 0) eqn:Hxy.
  - apply Z.leb_le in Hxy. by repeat constructor.
  - apply Z.leb_gt in Hxy. constructor; [done|].
    apply sortInsert_HdRel; [|done].
    destruct (compare_total y x); [done|lia].
Qed.

Lemma sort_Sorted l : Sorted (λ a b, compare a b ≤ 0) (sort compare l).
Proof.
  induction l as [|x l IH]; [constructor|].
  unfold sort in *. simpl. by apply sortInsert_Sorted.
Qed.

(** With a transitive comparator on top, [sort] is stable: elements that
    compare equal keep the order they had in the array. *)
Hypothesis compare_trans :
  ∀ a b c, compare a b ≤ 0 → compare b c ≤ 0 → compare a c ≤ 0.

Lemma sortInsert_stable x a l :
  filter (λ y, compare x y ≤ 0 ∧ compare y x ≤ 0) (sortInsert compare a l)
  = filter (λ y, compare x y ≤ 0 ∧ compare y x ≤ 0) (a :: l).
Proof.
  induction l as [|y l IH]; simpl; [done|].
  destruct (compare a y <=? 0) eqn:Hay; [done|].
  apply Z.leb_gt in Hay.
  rewrite (filter_cons _ y), IH, !filter_cons.
  destruct (decide (compare x y ≤ 0 ∧ compare y x ≤ 0)) as [[Hxy Hyx]|];
    destruct (decide (compare x a ≤ 0 ∧ compare a x ≤ 0)) as [[Hxa Hax]|];
    try done.
  assert (compare a y ≤ 0) by eauto. lia.
Qed.

Lemma sort_stable x l :
  filter (λ y, compare x y ≤ 0 ∧ compare y x ≤ 0) (sort compare l)
  = filter (λ y, compare x y ≤ 0 ∧ compare y x ≤ 0) l.
Proof.
  induction l as [|a l IH]; [done|].
  unfold sort in *. simpl. by rewrite sortInsert_stable, !filter_cons, IH.
Qed.

(** The contract determines the result: an arrangement of [l] that is
    ascending and keeps equal elements in the order of [l] is the one [sort]
    returns, whichever algorithm produced it. *)
Lemma sorted_stable_unique l1 l2 :
  StronglySorted (λ a b, compare a b ≤ 0) l1 →
  StronglySorted (λ a b, compare a b ≤ 0) l2 →
  l1 ≡ₚ l2 →
  (∀ x, filter (λ y, compare x y ≤ 0 ∧ compare y x ≤ 0) l1
        = filter (λ y, compare x y ≤ 0 ∧ compare y x ≤ 0) l2) →
  l1 = l2.
Proof.
  intros Hsorted1. revert l2.
  induction Hsorted1 as [|a l1 Hsorted1 IH Ha]; intros l2 Hsorted2 Hperm Hstable.
  { by apply Permutation_nil_l in Hperm. }
  destruct Hsorted2 as [|b l2 Hsorted2 Hb].
  { by apply Permutation_nil_r in Hperm. }
  assert (compare a a ≤ 0) as Haa by (by destruct (compare_total a a)).
  assert (compare b b ≤ 0) as Hbb by (by destruct (compare_total b b)).
  assert (compare a b ≤ 0) as Hab.
  { assert (b ∈ a :: l1) as [->|Hin]%elem_of_cons by (rewrite Hperm; left); [done|].
    rewrite Forall_forall in Ha. by apply Ha. }
  assert (compare b a ≤ 0) as Hba.
  { assert (a ∈ b :: l2) as [->|Hin]%elem_of_cons by (rewrite <- Hperm; left); [done|].
    rewrite Forall_forall in Hb. by apply Hb. }
  pose proof (Hstable a) as Hheads.
  rewrite !filter_cons, !decide_True in Hheads by done.
  injection Hheads as <- _.
  f_equal. apply IH; [done|by eapply Permutation_cons_inv|].
  intros x. specialize (Hstable x). rewrite !filter_cons in Hstable.
  case_decide; [by injection Hstable|done].
Qed.

Lemma sort_determined l l' :
  Sorted (λ a b, compare a b ≤ 0) l' →
  l' ≡ₚ l →
  (∀ x, filter (λ y, compare x y ≤ 0 ∧ compare y x ≤ 0) l'
        = filter (λ y, compare x y ≤ 0 ∧ compare y x ≤ 0) l) →
  l' = sort compare l.
Proof.
  intros Hsorted Hperm Hstable.
  assert (Transitive (λ a b, compare a b ≤ 0)) as Htrans
    by (intros a b c; apply compare_trans).
  apply sorted_stable_unique.
  - by apply Sorted_StronglySorted.
  - apply Sorted_StronglySorted; [done|]. apply sort_Sorted.
  - by rewrite sort_Permutation.
  - intros x. by rewrite sort_stable.
Qed.

End Ascending.

End JsFacts.

(** ** [stableUpsert] *)
Section StableUpsertFacts.
Import Js useNatsKvTable.
Context {V : Type} `{Collation}.
Implicit Types (arr : list (NatsEntry V)) (newEntry : NatsEntry V).

(** When the key is in the array, both variants overwrite its first
    occurrence. *)
Lemma stableUpsert_present arr newEntry inPlace (i : nat) old :
  arr !! i = Some old →
  NatsEntry.key old = NatsEntry.key newEntry →
  (∀ (j : nat) y, arr !! j = Some y → (j < i)%nat →
     NatsEntry.key y ≠ NatsEntry.key newEntry) →
  stableUpsert arr newEntry inPlace = <[i := newEntry]> arr.
Proof.
  intros Hold Hkey Hfirst. unfold stableUpsert.
  rewrite (findIndex_first _ arr i old); [|done|by apply String.eqb_eq|].
  - rewrite (proj2 (Z.leb_le 0 (Z.of_nat i))) by lia.
    replace (Z.to_nat (Z.of_nat i + 1)) with (S i) by lia.
    rewrite Nat2Z.id. destruct inPlace; [done|].
    symmetry. apply insert_take_drop. by eapply lookup_lt_Some.
  - intros j y Hy Hj. apply String.eqb_neq. eauto.
Qed.

(** When it is not, both variants append and sort. *)
Lemma stableUpsert_absent arr newEntry inPlace :
  NatsEntry.key newEntry ∉ (NatsEntry.key <$> arr) →
  stableUpsert arr newEntry inPlace = sort byKey (arr ++ [newEntry]).
Proof.
  intros Hnew. unfold stableUpsert.
  destruct (0 <=? _) eqn:Hindex; [|by destruct inPlace].
  apply Z.leb_le, findIndex_found in Hindex as (n & x & _ & Hx & Hp & _).
  apply String.eqb_eq in Hp. destruct Hnew.
  apply list_elem_of_fmap. exists x. split; [done|].
  by eapply list_elem_of_lookup_2.
Qed.

(** One of the two always applies. *)
Lemma stableUpsert_cases arr newEntry inPlace :
  (∃ (i : nat) old,
      arr !! i = Some old ∧ NatsEntry.key old = NatsEntry.key newEntry ∧
      stableUpsert arr newEntry inPlace = <[i := newEntry]> arr) ∨
  ((NatsEntry.key newEntry ∉ (NatsEntry.key <$> arr)) ∧
   stableUpsert arr newEntry inPlace = sort byKey (arr ++ [newEntry])).
Proof.
  destruct (decide (NatsEntry.key newEntry ∈ (NatsEntry.key <$> arr))) as [Hin|Hout].
  - left.
    destruct (0 <=? findIndex (λ item, String.eqb (NatsEntry.key item)
                                  (NatsEntry.key newEntry)) arr) eqn:Hindex.
    + apply Z.leb_le, findIndex_found in Hindex as (n & x & _ & Hx & Hp & Hfirst).
      apply String.eqb_eq in Hp. exists n, x. split_and!; [done..|].
      apply (stableUpsert_present _ _ _ _ x); [done..|].
      intros j y Hy Hj. apply String.eqb_neq. eauto.
    + apply Z.leb_gt in Hindex.
      assert (Forall (λ x, String.eqb (NatsEntry.key x) (NatsEntry.key newEntry) = false) arr)
        as Hall by (apply findIndex_absent; lia).
      apply list_elem_of_fmap in Hin as (x & Hkey & Hx).
      rewrite Forall_forall in Hall. apply Hall, String.eqb_neq in Hx. congruence.
  - right. split; [done|]. by apply stableUpsert_absent.
Qed.

(** Mutating the array and copying it compute the same array. *)
Lemma stableUpsert_inPlace arr newEntry :
  stableUpsert arr newEntry true = stableUpsert arr newEntry false.
Proof.
  unfold stableUpsert. destruct (0 <=? _) eqn:Hindex; [|done].
  apply Z.leb_le in Hindex.
  destruct (findIndex_found _ _ Hindex) as (n & x & -> & Hx & _).
  replace (Z.to_nat (Z.of_nat n + 1)) with (S n) by lia. rewrite Nat2Z.id.
  apply insert_take_drop. by eapply lookup_lt_Some.
Qed.

(** *** The store: what the in-place variant writes to *)

Lemma deref_assign (σ : Store V) (r r' : Ref) a :
  (r < length σ)%nat →
  deref (assign r a σ) r' = if decide (r = r') then a else deref σ r'.
Proof.
  intros Hr. unfold deref, assign. case_decide as Hrr'.
  - subst r'. by rewrite list_lookup_insert_eq.
  - by rewrite list_lookup_insert_ne.
Qed.

Lemma deref_alloc (σ : Store V) (r : Ref) a :
  deref (alloc a σ).1 r = if decide (r = length σ) then a else deref σ r.
Proof.
  unfold deref, alloc. simpl. case_decide as Hr.
  - subst r. by rewrite list_lookup_middle.
  - destruct (decide (r < length σ)%nat).
    + by rewrite lookup_app_l.
    + rewrite !lookup_ge_None_2; [done|lia|]. rewrite length_app. simpl. lia.
Qed.

Lemma length_assign (σ : Store V) (r : Ref) a : length (assign r a σ) = length σ.
Proof. apply length_insert. Qed.

Lemma length_alloc (σ : Store V) a : length (alloc a σ).1 = S (length σ).
Proof. unfold alloc. simpl. rewrite length_app. simpl. lia. Qed.

(** On a reference that is allocated, [stableUpsertRef] computes
    [stableUpsert] of the contents.  In place, the result is the argument
    itself and no other array is written; copying, the result is a new
    array and no array that was there is written. *)
Lemma stableUpsertRef_spec (σ : Store V) (arr : Ref) newEntry inPlace :
  (arr < length σ)%nat →
  deref (stableUpsertRef σ arr newEntry inPlace).1
    (stableUpsertRef σ arr newEntry inPlace).2
    = stableUpsert (deref σ arr) newEntry inPlace ∧
  (stableUpsertRef σ arr newEntry inPlace).2 = (if inPlace then arr else length σ) ∧
  (length σ ≤ length (stableUpsertRef σ arr newEntry inPlace).1)%nat ∧
  ∀ r : Ref, r ≠ (stableUpsertRef σ arr newEntry inPlace).2 →
    deref (stableUpsertRef σ arr newEntry inPlace).1 r = deref σ r.
Proof.
  intros Harr. unfold stableUpsertRef, stableUpsert.
  destruct (0 <=? _); destruct inPlace; cbn [fst snd].
  - split_and!; [|done|by rewrite length_assign|].
    + by rewrite deref_assign, decide_True.
    + intros r Hr. by rewrite deref_assign, decide_False.
  - split_and!; [|done|rewrite length_alloc; lia|].
    + by rewrite deref_alloc, decide_True.
    + intros r Hr. by rewrite deref_alloc, decide_False.
  - split_and!; [|done|by rewrite !length_assign|].
    + rewrite deref_assign by (by rewrite length_assign).
      rewrite decide_True by done. by rewrite deref_assign, decide_True.
    + intros r Hr. rewrite deref_assign by (by rewrite length_assign).
      rewrite decide_False by done. by rewrite deref_assign, decide_False.
  - pose proof (length_alloc σ (deref σ arr ++ [newEntry])) as Hlen.
    pose proof (λ r, deref_alloc σ r (deref σ arr ++ [newEntry])) as Hderef.
    destruct (alloc (deref σ arr ++ [newEntry]) σ) as [σ' fresh] eqn:Halloc.
    assert (fresh = length σ) as -> by (by injection Halloc).
    cbn [fst snd] in *.
    split_and!; [|done|rewrite length_assign; lia|].
    + rewrite deref_assign, decide_True by (done || lia).
      by rewrite Hderef, decide_True.
    + intros r Hr. rewrite deref_assign, decide_False by (done || lia).
      by rewrite Hderef, decide_False.
Qed.

Lemma foldl_stableUpsertRef (updates : list (NatsEntry V)) (σ : Store V) (acc : Ref) :
  (acc < length σ)%nat →
  let result :=
    foldl (λ acc newEntry, stableUpsertRef acc.1 acc.2 newEntry true) (σ, acc) updates in
  deref result.1 result.2
    = foldl (λ a newEntry, stableUpsert a newEntry true) (deref σ acc) updates ∧
  result.2 = acc ∧
  ∀ r : Ref, r ≠ acc → deref result.1 r = deref σ r.
Proof.
  revert σ. induction updates as [|u us IH]; intros σ Hacc; simpl; [done|].
  destruct (stableUpsertRef_spec σ acc u true Hacc) as (Hvalue & Href & Hlen & Hframe).
  destruct (stableUpsertRef σ acc u true) as [σ' r'] eqn:Hstep. simpl in *. subst r'.
  destruct (IH σ' ltac:(lia)) as (Hvalue' & Href' & Hframe').
  split_and!; [by rewrite Hvalue', Hvalue|done|].
  intros r Hr. by rewrite Hframe', Hframe.
Qed.

(** The updater of [flushUpdates] returns a new array that holds the fold,
    and writes to no array that existed before: neither to [prev], which
    React still holds, nor to any other. *)
Lemma flushUpdater_spec (updates : list (NatsEntry V)) (σ : Store V) (prev : Ref) :
  deref (flushUpdater updates σ prev).1 (flushUpdater updates σ prev).2
    = foldl (λ a newEntry, stableUpsert a newEntry true) (deref σ prev) updates ∧
  (flushUpdater updates σ prev).2 = length σ ∧
  ∀ r : Ref, (r < length σ)%nat → deref (flushUpdater updates σ prev).1 r = deref σ r.
Proof.
  unfold flushUpdater.
  pose proof (length_alloc σ (deref σ prev)) as Hlen.
  pose proof (λ r, deref_alloc σ r (deref σ prev)) as Hderef.
  destruct (alloc (deref σ prev) σ) as [σ' newEntries] eqn:Halloc.
  assert (newEntries = length σ) as -> by (by injection Halloc).
  cbn [fst snd] in *.
  destruct (foldl_stableUpsertRef updates σ' (length σ) ltac:(lia))
    as (Hvalue & Href & Hframe).
  split_and!; [|done|].
  - by rewrite Hvalue, Hderef, decide_True.
  - intros r Hr. rewrite Hframe, Hderef by lia. by rewrite decide_False by lia.
Qed.


End StableUpsertFacts.

Section StableUpsertExamples.
Import Js useNatsKvTable Fixtures.
#[local] Existing Instance Fixtures.codeUnitCollation.



End StableUpsertExamples.

(** ** The table's invariant *)
Section TableInvariantFacts.
Import Js useNatsKvTable.
Context {V : Type} `{ConsistentCollation}.
Implicit Types (arr : list (NatsEntry V)) (newEntry : NatsEntry V) (h : Hook V).

Lemma byKey_transitive : Transitive (λ a b : NatsEntry V, byKey a b ≤ 0).
Proof. intros a b c. unfold byKey. apply localeCompare_trans. Qed.

(** Whether an array is ascending is a matter of its keys alone. *)
Lemma sortedByKey_keys arr :
  sortedByKey arr ↔
  Sorted (λ a b, localeCompare a b ≤ 0) (NatsEntry.key <$> arr).
Proof.
  unfold sortedByKey. split.
  - by apply Sorted_fmap.
  - induction arr as [|x arr IH]; [constructor|].
    rewrite fmap_cons. inversion_clear 1 as [|?? Hsorted Hhd].
    constructor; [by apply IH|].
    destruct arr; [constructor|].
    rewrite fmap_cons in Hhd. inversion_clear Hhd. by constructor.
Qed.

Lemma tableInvariant_keys arr arr' :
  NatsEntry.key <$> arr' = NatsEntry.key <$> arr →
  tableInvariant arr → tableInvariant arr'.
Proof.
  unfold tableInvariant, uniqueKeys. rewrite !sortedByKey_keys.
  by intros ->.
Qed.

Lemma tableInvariant_nil : tableInvariant (V := V) [].
Proof. split; [constructor|]. unfold uniqueKeys. simpl. constructor. Qed.

Lemma stableUpsert_tableInvariant arr newEntry inPlace :
  tableInvariant arr → tableInvariant (stableUpsert arr newEntry inPlace).
Proof.
  intros Harr.
  destruct (stableUpsert_cases arr newEntry inPlace)
    as [(i & old & Hold & Hkey & ->)|[Hnew ->]].
  - apply (tableInvariant_keys arr); [|done].
    rewrite list_fmap_insert. apply list_insert_id.
    by rewrite list_lookup_fmap, Hold, <- Hkey.
  - split.
    + apply sort_Sorted. intros a b. apply localeCompare_total.
    + unfold uniqueKeys. rewrite sort_Permutation, fmap_app.
      apply NoDup_app. split_and!.
      * apply Harr.
      * intros k Hk ->%list_elem_of_singleton. done.
      * apply NoDup_singleton.
Qed.

Lemma filter_StronglySorted {A} (R : relation A) (P : A → Prop)
    `{∀ x, Decision (P x)} (l : list A) :
  StronglySorted R l → StronglySorted R (filter P l).
Proof.
  induction 1 as [|x l Hl IH Hx]; [constructor|].
  rewrite filter_cons. case_decide; [|done].
  constructor; [done|].
  rewrite Forall_forall in Hx |- *.
  intros y [_ Hy]%list_elem_of_filter. by apply Hx.
Qed.

Lemma filter_tableInvariant arr (k : string) :
  tableInvariant arr → tableInvariant (filter (λ item, otherKey k item) arr).
Proof.
  intros [Hsorted Hunique]. split.
  - apply StronglySorted_Sorted, filter_StronglySorted.
    by apply Sorted_StronglySorted; [apply byKey_transitive|].
  - unfold uniqueKeys in *.
    eapply sublist_NoDup; [done|].
    apply fmap_sublist, sublist_filter.
Qed.

Lemma foldl_stableUpsert_tableInvariant inPlace (updates : list (NatsEntry V)) arr :
  tableInvariant arr →
  tableInvariant (foldl (λ acc newEntry, stableUpsert acc newEntry inPlace) arr updates).
Proof.
  revert arr. induction updates as [|u us IH]; intros arr Harr; [done|].
  simpl. by apply IH, stableUpsert_tableInvariant.
Qed.

Lemma flushUpdates_tableInvariant h :
  tableInvariant (entries h) → tableInvariant (entries (flushUpdates h)).
Proof.
  unfold flushUpdates. case_match; [|done]. simpl.
  apply foldl_stableUpsert_tableInvariant.
Qed.

Lemma step_tableInvariant h ev :
  tableInvariant (entries h) → tableInvariant (entries (step h ev)).
Proof.
  intros Hh. destruct ev as [o| |e|]; simpl.
  - case_match; [by apply flushUpdates_tableInvariant|done].
  - done.
  - destruct (effect h) as [eff|]; [|done].
    destruct (watching eff); [|done].
    unfold watchBody, watchBatched, watchUnbatched.
    destruct (batched (options eff)), (KvWatchEntry.operation e);
      try destruct (newEntryOf _ e); simpl;
      auto using stableUpsert_tableInvariant, filter_tableInvariant.
  - destruct (effect h) as [eff|]; [|done].
    case_match; [by apply flushUpdates_tableInvariant|done].
Qed.

(** C2.  Every entries array the hook produces is sorted in ascending key
    order and holds at most one entry per key, whatever the watcher, the
    timer and the effect's reruns do; [stableUpsert] preserves that shape in
    its copying and in its in-place variant, and so does the filtering done
    on DEL and PURGE. *)
Theorem entries_sorted_unique :
  (∀ evs : list (Event V), tableInvariant (entries (run initial evs))) ∧
  (∀ arr newEntry inPlace,
     tableInvariant arr → tableInvariant (stableUpsert arr newEntry inPlace)) ∧
  (∀ arr (k : string),
     tableInvariant arr → tableInvariant (filter (λ item, otherKey k item) arr)).
Proof.
  split_and!.
  - intros evs. unfold run.
    assert (tableInvariant (entries (initial (V := V)))) as Hinit
      by apply tableInvariant_nil.
    revert Hinit. generalize (initial (V := V)).
    induction evs as [|ev evs IH]; intros h Hh; [done|].
    simpl. by apply IH, step_tableInvariant.
  - apply stableUpsert_tableInvariant.
  - apply filter_tableInvariant.
Qed.

End TableInvariantFacts.

(** ** The example collation is consistent *)
Section FixtureFacts.
Import Js Fixtures.

Lemma string_compare_trans (a b c : string) :
  String.compare a b ≠ Gt → String.compare b c ≠ Gt → String.compare a c ≠ Gt.
Proof.
  revert b c. induction a as [|x a IH]; intros [|y b] [|z c]; simpl; try done.
  destruct (Ascii.compare x y) eqn:Hxy; [| |done];
    destruct (Ascii.compare y z) eqn:Hyz; try done.
  - apply Ascii.compare_eq_iff in Hxy as ->. rewrite Hyz. apply IH.
  - apply Ascii.compare_eq_iff in Hxy as ->. by rewrite Hyz.
  - apply Ascii.compare_eq_iff in Hyz as <-. by rewrite Hxy.
  - intros _ _. unfold Ascii.compare in *.
    rewrite N.compare_lt_iff in Hxy, Hyz.
    assert (Ascii.N_of_ascii x < Ascii.N_of_ascii z)%N as Hxz by lia.
    rewrite <- N.compare_lt_iff in Hxz. by rewrite Hxz.
Qed.

Lemma codeUnitCompare_le (a b : string) :
  codeUnitCompare a b ≤ 0 ↔ String.compare a b ≠ Gt.
Proof. unfold codeUnitCompare. destruct (String.compare a b); split; (done || lia). Qed.

Lemma codeUnitCompare_consistent : ConsistentCollation (H := codeUnitCollation).
Proof.
  split.
  - intros a b. unfold localeCompare, codeUnitCollation. rewrite !codeUnitCompare_le.
    rewrite (String.compare_antisym a b).
    destruct (String.compare b a); simpl; auto.
  - intros a b c. unfold localeCompare, codeUnitCollation. rewrite !codeUnitCompare_le.
    apply string_compare_trans.
Qed.

End FixtureFacts.

Section TableInvariantExamples.
Import Js useNatsKvTable Fixtures.
#[local] Existing Instance Fixtures.codeUnitCollation.

(** A batched run that sees b, then a, a tick and the deletion of b, under
    the code-unit collation. *)
Lemma entries_sorted_unique_example :
  tableInvariant
    (entries
       (run initial
          [EffectRun (kvOptions 50);
           Watch (put "b" []);
           Watch (put "a" []);
           IntervalTick;
           Watch (del "b")])).
Proof.
  apply (proj1 (entries_sorted_unique (V := nat)
                  (H0 := codeUnitCompare_consistent))).
Defined.

End TableInvariantExamples.

(** ** Batching and deletion in [useNatsKvTable] *)
Section KvTableFacts.
Import Js useNatsKvTable.
Context {V : Type} `{Collation}.
Implicit Types (arr prev : list (NatsEntry V)) (h : Hook V) (e : KvWatchEntry).

Lemma filter_otherKey (k : string) arr :
  filter (λ item, otherKey k item) arr = filter (λ item, NatsEntry.key item ≠ k) arr.
Proof.
  apply list_filter_iff. intros item. unfold otherKey.
  destruct (String.eqb_spec (NatsEntry.key item) k); simpl; tauto.
Qed.

Lemma foldl_stableUpsert_inPlace (updates : list (NatsEntry V)) prev :
  foldl (λ acc newEntry, stableUpsert acc newEntry true) prev updates
  = applyEach prev updates.
Proof.
  unfold applyEach. revert prev.
  induction updates as [|u us IH]; intros prev; [done|].
  simpl. by rewrite stableUpsert_inPlace, IH.
Qed.

(** One flush applies the pending updates as the unbatched path would have,
    one by one, and empties the buffer. *)
Lemma flushUpdates_applyEach h :
  entries (flushUpdates h) = applyEach (entries h) (pendingUpdates h) ∧
  pendingUpdates (flushUpdates h) = [] ∧
  effect (flushUpdates h) = effect h.
Proof.
  unfold flushUpdates. destruct (pendingUpdates h) as [|u us] eqn:Hpending.
  - simpl. by rewrite Hpending.
  - destruct (0 <? _) eqn:Hlen; [|apply Z.ltb_ge in Hlen; simpl in Hlen; lia].
    simpl. by rewrite stableUpsert_inPlace, foldl_stableUpsert_inPlace.
Qed.

Section Simulation.
(** Two sets of options that differ in [refreshInterval] only: [ob] batches,
    [ou] does not. *)
Context (ob ou : NatsKvTableOptions V).
Hypothesis batched_ob : batched ob = true.
Hypothesis batched_ou : batched ou = false.
Hypothesis same_decoder : decoder ob = decoder ou.
Hypothesis same_enrich : enrich ob = enrich ou.

Lemma newEntryOf_same e : newEntryOf ou e = newEntryOf ob e.
Proof. unfold newEntryOf. by rewrite same_decoder, same_enrich. Qed.

Lemma inStep_put hb hu e :
  KvWatchEntry.operation e = PUT →
  inStep ob ou hb hu → inStep ob ou (step hb (Watch e)) (step hu (Watch e)).
Proof.
  intros Hput (Hentries & w & Hb & Hu). unfold inStep. simpl.
  rewrite Hb, Hu. simpl. destruct w; [|by eauto].
  unfold watchBody. rewrite batched_ob, batched_ou.
  unfold watchBatched, watchUnbatched. rewrite Hput, newEntryOf_same.
  destruct (newEntryOf ob e) as [newEntry|]; simpl.
  - split; [|by eauto]. unfold applyEach in *. by rewrite foldl_snoc, Hentries.
  - split; [done|by eauto].
Qed.

Lemma inStep_tick hb hu :
  inStep ob ou hb hu → inStep ob ou (step hb IntervalTick) (step hu IntervalTick).
Proof.
  intros (Hentries & w & Hb & Hu). unfold inStep. simpl.
  rewrite Hb, Hu. simpl. rewrite batched_ob, batched_ou.
  destruct (flushUpdates_applyEach hb) as (-> & -> & ->). eauto.
Qed.

Lemma inStep_run (evs : list (Event V)) hb hu :
  Forall putOrTick evs →
  inStep ob ou hb hu → inStep ob ou (run hb evs) (run hu evs).
Proof.
  intros Hevs. revert hb hu.
  induction Hevs as [|ev evs Hev _ IH]; intros hb hu Hstep; [done|].
  simpl. apply IH. destruct ev as [| |e|]; try done.
  - by apply inStep_put.
  - by apply inStep_tick.
Qed.

Lemma batched_run_unbatched_run prev (evs : list (Event V)) :
  Forall putOrTick evs →
  entries
    (run {| entries := prev; pendingUpdates := []; effect := None |}
       ([EffectRun ob] ++ evs ++ [IntervalTick]))
  = entries
      (run {| entries := prev; pendingUpdates := []; effect := None |}
         ([EffectRun ou] ++ evs)).
Proof.
  intros Hevs. unfold run. rewrite !foldl_app. simpl.
  rewrite batched_ob, batched_ou.
  set (start := {| entries := prev; pendingUpdates := []; effect := None |}).
  pose proof (inStep_run evs
                (setEffect (Some {| options := ob; watching := true |}) (flushUpdates start))
                (setEffect (Some {| options := ou; watching := true |}) start) Hevs)
    as (Hentries & w & Hb & _).
  { split; [done|]. by exists true. }
  unfold run in *. rewrite Hb. simpl. rewrite batched_ob.
  rewrite Hentries. apply flushUpdates_applyEach.
Qed.

End Simulation.

(** C3.  Batching is a pure optimisation.  For every prior entries array and
    every list of updates, what [flushUpdates] does (copy the entries, fold
    the in-place [stableUpsert] over the buffer) leaves the array the
    unbatched path reaches by applying the updates one at a time with the
    copying [stableUpsert], on the level of the store, where the fold writes
    to its copy alone, and on the level of the hook's state; and a hook run
    with [refreshInterval > 0] that is fed PUT events, with the timer firing
    in between at will, and is then flushed shows the entries of the hook
    run with [refreshInterval <= 0] on the same events. *)
Theorem batching_is_pure_optimisation
    (decode : Uint8Array → option V)
    (enrichWith : option (string → Date → V → option V))
    (batchedInterval unbatchedInterval : Z) prev (evs : list (Event V)) :
  0 < batchedInterval → unbatchedInterval ≤ 0 →
  Forall putOrTick evs →
  (∀ (updates : list (NatsEntry V)) (σ : Store V) (prevRef : Ref),
     deref σ prevRef = prev →
     deref (flushUpdater updates σ prevRef).1 (flushUpdater updates σ prevRef).2
       = applyEach prev updates ∧
     ∀ r : Ref, (r < length σ)%nat →
       deref (flushUpdater updates σ prevRef).1 r = deref σ r) ∧
  (∀ (updates : list (NatsEntry V)) eff,
     entries (flushUpdates {| entries := prev; pendingUpdates := updates; effect := eff |})
     = applyEach prev updates) ∧
  entries
    (run {| entries := prev; pendingUpdates := []; effect := None |}
       ([EffectRun {| decoder := decode; enrich := enrichWith;
                      refreshInterval := batchedInterval |}]
          ++ evs ++ [IntervalTick]))
  = entries
      (run {| entries := prev; pendingUpdates := []; effect := None |}
         ([EffectRun {| decoder := decode; enrich := enrichWith;
                        refreshInterval := unbatchedInterval |}]
            ++ evs)).
Proof.
  intros Hb Hu Hevs. split_and!.
  - intros updates σ prevRef <-.
    destruct (flushUpdater_spec updates σ prevRef) as (-> & _ & Hframe).
    split; [apply foldl_stableUpsert_inPlace|done].
  - intros updates eff. apply flushUpdates_applyEach.
  - apply batched_run_unbatched_run; [..|done|done|done].
    + unfold batched. simpl. by apply Z.ltb_lt.
    + unfold batched. simpl. by apply Z.ltb_ge.
Qed.

(** C9 (as amended).  On a DEL or PURGE event for key [k], in the very step
    that handles the event and without waiting for the timer, the entries
    become the old entries without those whose key is [k]: every other entry
    stays, with its value and in its order.  With batching on
    ([refreshInterval > 0]) the pending buffer is filtered in the same way;
    with batching off the buffer is not touched. *)
Theorem delete_removes_key h eff e :
  effect h = Some eff → watching eff = true →
  KvWatchEntry.operation e = DEL ∨ KvWatchEntry.operation e = PURGE →
  entries (step h (Watch e))
    = filter (λ item, NatsEntry.key item ≠ KvWatchEntry.key e) (entries h) ∧
  pendingUpdates (step h (Watch e))
    = (if batched (options eff)
       then filter (λ item, NatsEntry.key item ≠ KvWatchEntry.key e) (pendingUpdates h)
       else pendingUpdates h) ∧
  effect (step h (Watch e)) = effect h.
Proof.
  intros Heff Hwatching Hop. simpl. rewrite Heff, Hwatching.
  unfold watchBody, watchBatched, watchUnbatched.
  rewrite <- !filter_otherKey.
  destruct (batched (options eff)), Hop as [-> | ->]; simpl; by rewrite ?Heff.
Qed.

End KvTableFacts.

Section KvTableExamples.
Import Js useNatsKvTable Fixtures.
#[local] Existing Instance Fixtures.codeUnitCollation.

(** Three PUTs (c, a, c again) on top of a table holding b, with a tick of
    the timer after the second: batched with a final flush, and unbatched. *)
Lemma batching_is_pure_optimisation_example :
  entries
    (run
       {| entries := [entry "b" 7]; pendingUpdates := []; effect := None |}
       ([EffectRun (kvOptions 50)]
          ++ [Watch (put "c" []); Watch (put "a" []); IntervalTick;
              Watch (put "c" (payload 1))]
          ++ [IntervalTick]))
  = entries
      (run
         {| entries := [entry "b" 7]; pendingUpdates := []; effect := None |}
         ([EffectRun (kvOptions 0)]
            ++ [Watch (put "c" []); Watch (put "a" []); IntervalTick;
                Watch (put "c" (payload 1))])).
Proof.
  apply (proj2 (proj2 (batching_is_pure_optimisation
                  sizeDecoder None 50 0 [entry "b" 7]
                  [Watch (put "c" []); Watch (put "a" []); IntervalTick;
                   Watch (put "c" (payload 1))]
                  ltac:(lia) ltac:(lia) ltac:(by repeat constructor)))).
Defined.

(** A batched run with a in the entries and b and a newer a in the buffer:
    the deletion of a empties the entries and leaves b in the buffer. *)
Lemma delete_removes_key_example :
  let h :=
    run initial
      [EffectRun (kvOptions 50);
       Watch (put "a" []);
       IntervalTick;
       Watch (put "b" []);
       Watch (put "a" (payload 1))] in
  entries h = [entry "a" 0] ∧
  pendingUpdates h = [entry "b" 0; entry "a" 1] ∧
  entries (step h (Watch (del "a"))) = [] ∧
  pendingUpdates (step h (Watch (del "a")))
    = [entry "b" 0].
Proof.
  pose proof (delete_removes_key
                (run initial
                   [EffectRun (kvOptions 50);
                    Watch (put "a" []);
                    IntervalTick;
                    Watch (put "b" []);
                    Watch (put "a" (payload 1))])
                {| options := kvOptions 50; watching := true |}
                (del "a") eq_refl eq_refl (or_introl eq_refl))
    as (Hentries & Hpending & _).
  split_and!; [reflexivity|reflexivity|..].
  - rewrite Hentries. reflexivity.
  - rewrite Hpending. reflexivity.
Defined.

(** C9 as stated fails with batching off: the DEL leaves the buffer alone.
    A PUT of key a is buffered; before the timer fires, the effect is rerun
    with [refreshInterval = 0]; the DEL of a then empties the entries and
    leaves a in the buffer, from where the next batched run of the effect
    flushes it back into the entries. *)
Lemma delete_unbatched_keeps_pending :
  let h :=
    run initial
      [EffectRun (kvOptions 50);
       Watch (put "a" []);
       EffectCleanup;
       EffectRun (kvOptions 0);
       Watch (put "a" [])] in
  let h' := step h (Watch (del "a")) in
  entries h = [entry "a" 0] ∧
  pendingUpdates h = [entry "a" 0] ∧
  entries h' = [] ∧
  pendingUpdates h' = [entry "a" 0] ∧
  entries
    (run h' [EffectCleanup; EffectRun (kvOptions 50)])
    = [entry "a" 0].
Proof. split_and!; reflexivity. Qed.

End KvTableExamples.

(** ** The read loop of [useNatsStream] *)
Section StreamFacts.
Import Js useNatsStream.
Context {V Connection : Type} `{DateFormat}.
Implicit Types (h : Hook V Connection) (o : NatsStreamOptions V) (m : JsMsg)
  (eff : Effect V) (c : option Connection).

(** *** Runs that can no longer publish *)

Lemma deliver_quiet i m h :
  quiet h → quiet (deliver i m h) ∧ data (deliver i m h) = data h.
Proof.
  intros Hquiet. unfold deliver.
  destruct (effects h !! i) as [eff|] eqn:Heff; [|done].
  destruct (consuming eff) eqn:Hconsuming; [|done].
  assert (isCurrent eff = false) as Hstale.
  { unfold quiet in Hquiet. rewrite Forall_lookup in Hquiet.
    destruct (Hquiet i eff Heff); congruence. }
  rewrite Hstale.
  destruct (reduceWith _ _ m); simpl; (split; [|done]);
    apply Forall_insert; auto.
Qed.

Lemma quiet_deliveries (ds : list (nat * JsMsg)) h :
  quiet h → data (run h (deliveries ds)) = data h.
Proof.
  revert h. induction ds as [|[i m] ds IH]; intros h Hquiet; [done|].
  simpl. destruct (deliver_quiet i m h Hquiet) as [Hquiet' <-]. by apply IH.
Qed.

(** *** The run that is reading *)

Lemma reading_deliver_other (i j : nat) o acc m h :
  j ≠ i → reading i o acc h → reading i o acc (deliver j m h).
Proof.
  intros Hj (Heff & Hdata & Hothers). unfold deliver.
  destruct (effects h !! j) as [eff|] eqn:Hother; [|done].
  destruct (consuming eff); [|done].
  rewrite (Hothers j eff Hj Hother).
  destruct (reduceWith _ _ m); unfold reading; simpl.
  all: split_and!; [by rewrite list_lookup_insert_ne|done|].
  all: intros k eff' Hk; destruct (decide (k = j)) as [->|Hkj].
  all: try (rewrite list_lookup_insert_eq by (by eapply lookup_lt_Some);
            by intros [= <-]).
  all: rewrite list_lookup_insert_ne by done; by apply Hothers.
Qed.

Lemma reading_deliver_same (i : nat) o acc m h :
  reading i o acc h →
  match reduceWith o acc m with
  | Some acc' => reading i o acc' (deliver i m h)
  | None => quiet (deliver i m h) ∧ data (deliver i m h) = acc
  end.
Proof.
  intros (Heff & Hdata & Hothers). unfold deliver. rewrite Heff. simpl.
  destruct (reduceWith o acc m) as [acc'|]; unfold reading; simpl.
  - split_and!; [|done|].
    + apply list_lookup_insert_eq. by eapply lookup_lt_Some.
    + intros j eff Hj. rewrite list_lookup_insert_ne by done. by apply Hothers.
  - split; [|done]. unfold quiet. apply Forall_lookup. simpl. intros j eff.
    destruct (decide (j = i)) as [->|Hj].
    + rewrite list_lookup_insert_eq by (by eapply lookup_lt_Some).
      intros [= <-]. by right.
    + rewrite list_lookup_insert_ne by done. intros Hlookup. left. eauto.
Qed.

Lemma reading_deliveries (ds : list (nat * JsMsg)) (i : nat) o acc h :
  reading i o acc h →
  data (run h (deliveries ds)) = published o acc (deliveredTo i ds).
Proof.
  revert h acc. induction ds as [|[j m] ds IH]; intros h acc Hreading.
  { simpl. apply Hreading. }
  unfold deliveredTo. rewrite filter_cons. simpl.
  destruct (decide (j = i)) as [->|Hj].
  - rewrite bool_decide_true by done. rewrite decide_True by done. simpl.
    pose proof (reading_deliver_same i o acc m h Hreading) as Hstep.
    destruct (reduceWith o acc m) as [acc'|].
    + by apply IH.
    + destruct Hstep as [Hquiet <-]. by apply quiet_deliveries.
  - rewrite bool_decide_false by done. rewrite decide_False by tauto.
    by apply IH, reading_deliver_other.
Qed.

(** *** Effect runs and their cleanup *)

Lemma runCleanup_stale h :
  wellFormed h →
  Forall (λ eff, isCurrent eff = false) (effects (runCleanup h)) ∧
  length (effects (runCleanup h)) = length (effects h) ∧
  data (runCleanup h) = data h ∧
  log (runCleanup h) = log h.
Proof.
  intros Hwf. unfold runCleanup.
  destruct (cleanup h) as [i|] eqn:Hcleanup; simpl.
  - split_and!; [|by rewrite length_alter|done..].
    apply Forall_lookup. intros j eff.
    destruct (decide (i = j)) as [->|Hij].
    + rewrite list_lookup_alter_eq.
      destruct (effects h !! j); simpl; [|done]. by intros [= <-].
    + rewrite list_lookup_alter_ne by done. intros Heff.
      destruct (isCurrent eff) eqn:Hcurrent; [|done].
      specialize (Hwf j eff Heff Hcurrent). congruence.
  - split_and!; [|done..].
    apply Forall_lookup. intros j eff Heff.
    destruct (isCurrent eff) eqn:Hcurrent; [|done].
    specialize (Hwf j eff Heff Hcurrent). congruence.
Qed.

Lemma runCleanup_log h : log (runCleanup h) = log h.
Proof. unfold runCleanup. by destruct (cleanup h). Qed.

Lemma runEffect_guards c o h :
  runEffect c o h =
    match c with
    | Some c' =>
        if guardsPass c o
        then setCleanup (Some (length (effects h))) (setupNats c' o (setData [] h))
        else setCleanup None (setData [] h)
    | None => setCleanup None (setData [] h)
    end.
Proof.
  unfold runEffect, guardsPass. destruct c as [c'|]; [|done].
  destruct (opt_start_time o); simpl; [|done].
  by destruct (truthyString (stream o)).
Qed.

Lemma runEffect_log c o h :
  log (runEffect c o h) = log h ++ SetData [] :: setupCalls c o.
Proof.
  rewrite runEffect_guards. unfold setupCalls, setupNats.
  destruct c as [c'|]; [|done].
  destruct (guardsPass _ o); [|done].
  destruct (consumerOptions o); simpl; by rewrite <- ?app_assoc.
Qed.

Lemma runEffect_data c o h : data (runEffect c o h) = [].
Proof.
  rewrite runEffect_guards. unfold setupNats.
  destruct c as [c'|]; [|done].
  destruct (guardsPass _ o); [|done].
  by destruct (consumerOptions o).
Qed.

Lemma runEffect_effects c o h :
  effects (runEffect c o h) =
    effects h ++
      (if guardsPass c o
       then [{| props := o; isCurrent := true; effectData := [];
                consuming := bool_decide (is_Some (consumerOptions o)) |}]
       else []).
Proof.
  rewrite runEffect_guards. unfold setupNats.
  destruct c as [c'|]; [|by rewrite app_nil_r].
  destruct (guardsPass _ o); [|by rewrite app_nil_r].
  by destruct (consumerOptions o).
Qed.

Lemma runEffect_cleanup c o h :
  cleanup (runEffect c o h) =
    if guardsPass c o then Some (length (effects h)) else None.
Proof.
  rewrite runEffect_guards. unfold setupNats.
  destruct c as [c'|]; [|done].
  destruct (guardsPass _ o); [|done].
  by destruct (consumerOptions o).
Qed.

(** After a render the data is empty, and either the new run is the one
    reading or nothing can publish any more. *)
Lemma render_outcome c o h :
  wellFormed h →
  data (step h (Render c o)) = [] ∧
  if startsConsuming c o
  then reading (length (effects h)) o [] (step h (Render c o))
  else quiet (step h (Render c o)).
Proof.
  intros Hwf. simpl.
  destruct (runCleanup_stale h Hwf) as (Hstale & Hlen & _ & _).
  split; [apply runEffect_data|].
  unfold startsConsuming, reading, quiet.
  rewrite runEffect_data, runEffect_effects.
  destruct (guardsPass c o); simpl.
  - case_bool_decide as Hopt.
    + split_and!; [|done|].
      * rewrite lookup_app_r by lia. by rewrite Hlen, Nat.sub_diag.
      * intros j eff Hj [Hold|[-> _]]%lookup_snoc_Some; [|lia].
        destruct Hold as [_ Hold].
        rewrite Forall_lookup in Hstale. eauto.
    + apply Forall_app. split; [|by apply Forall_singleton; right].
      eapply Forall_impl; [done|]. by left.
  - rewrite app_nil_r. eapply Forall_impl; [done|]. by left.
Qed.

Lemma step_wellFormed h ev : wellFormed h → wellFormed (step h ev).
Proof.
  intros Hwf. destruct ev as [c o| |i m]; simpl.
  - destruct (runCleanup_stale h Hwf) as (Hstale & _).
    intros j eff. rewrite runEffect_effects, runEffect_cleanup.
    rewrite Forall_lookup in Hstale.
    destruct (guardsPass c o).
    + intros [[_ Hold]|[-> <-]]%lookup_snoc_Some Hcurrent; [|done].
      specialize (Hstale j eff Hold). congruence.
    + rewrite app_nil_r. intros Hold Hcurrent.
      specialize (Hstale j eff Hold). congruence.
  - destruct (runCleanup_stale h Hwf) as (Hstale & _).
    intros j eff Heff Hcurrent. rewrite Forall_lookup in Hstale.
    specialize (Hstale j eff Heff). congruence.
  - unfold deliver.
    destruct (effects h !! i) as [eff|] eqn:Heff; [|done].
    destruct (consuming eff); [|done].
    assert (∀ eff' : Effect V,
              isCurrent eff' = isCurrent eff →
              ∀ (j : nat) e, <[i := eff']> (effects h) !! j = Some e →
                isCurrent e = true → cleanup h = Some j) as Hinsert.
    { intros eff' Hsame j e. destruct (decide (i = j)) as [->|Hij].
      - rewrite list_lookup_insert_eq by (by eapply lookup_lt_Some).
        intros [= <-] Hcurrent. apply (Hwf j eff Heff). congruence.
      - rewrite list_lookup_insert_ne by done. apply Hwf. }
    destruct (reduceWith _ _ m); [destruct (isCurrent eff) eqn:Hcurrent|];
      unfold wellFormed; simpl; apply Hinsert; simpl; congruence.
Qed.

Lemma run_wellFormed (evs : list (Event V Connection)) h :
  wellFormed h → wellFormed (run h evs).
Proof.
  revert h. induction evs as [|ev evs IH]; intros h Hwf; [done|].
  simpl. by apply IH, step_wellFormed.
Qed.

Lemma initial_wellFormed : wellFormed (initial (V := V) (Connection := Connection)).
Proof. intros j eff Heff. by destruct j. Qed.

(** What a hook shows after a render and any schedule of deliveries: the
    fold over the messages that reached the new run, up to the first call
    that throws; and nothing when the new run reads no consumer. *)
Lemma data_after_render (evs : list (Event V Connection)) c o
    (ds : list (nat * JsMsg)) :
  data (run (step (run initial evs) (Render c o)) (deliveries ds)) =
    if startsConsuming c o
    then published o [] (deliveredTo (length (effects (run initial evs))) ds)
    else [].
Proof.
  pose proof (run_wellFormed evs _ initial_wellFormed) as Hwf.
  destruct (render_outcome c o _ Hwf) as [Hdata Hnext].
  destruct (startsConsuming c o).
  - by apply reading_deliveries.
  - by rewrite quiet_deliveries.
Qed.

(** *** The claims about the loop *)

Lemma foldMessages_published o (ms : list JsMsg) acc r :
  foldMessages o acc ms = Some r → published o acc ms = r.
Proof.
  revert acc. induction ms as [|m ms IH]; intros acc; simpl; [congruence|].
  destruct (reduceWith o acc m); simpl; [apply IH|done].
Qed.

Lemma foldReduce_foldMessages o (ms : list JsMsg) records acc :
  recordsOf o ms = Some records →
  foldMessages o acc ms = foldReduce o acc records.
Proof.
  unfold recordsOf. revert records acc.
  induction ms as [|m ms IH]; intros records acc; simpl.
  - by intros [= <-].
  - unfold reduceWith. destruct (toMessage o m) as [d|]; simpl; [|done].
    destruct (mapM (toMessage o) ms) as [rest|]; simpl; [|done].
    intros [= <-]. simpl. destruct (reducer o acc d); simpl; [by apply IH|done].
Qed.

Lemma startsConsuming_spec c o :
  startsConsuming c o = true ↔
  is_Some c ∧ (∃ ms, opt_start_time o = Some (TimeValue ms)) ∧
  ∃ s, stream o = Some s ∧ s ≠ ""%string.
Proof.
  unfold startsConsuming, guardsPass, consumerOptions, toISOString, truthyString.
  rewrite andb_true_iff, bool_decide_eq_true.
  destruct c as [conn|]; [|split; [by intros []|by intros [[] _]]].
  destruct (opt_start_time o) as [[ms|]|];
    [|split; [by intros [_ []]|by intros (_ & [? [=]] & _)]
     |split; [by intros []|by intros (_ & [? [=]] & _)]].
  destruct (stream o) as [s|]; [|split; [by intros []|by intros (_ & _ & ? & [=] & _)]].
  destruct (String.eqb_spec s ""); simpl.
  - split; [by intros []|]. intros (_ & _ & s' & [= <-] & Hs). done.
  - split; [|by eauto]. intros _. split_and!; eauto.
Qed.

(** C1.  After a run of the effect that reads a consumer (the connection is
    there, the start time is a valid date, the stream is named), and for
    every schedule of deliveries that follows while that run is current:
    when each [decoder.decode] and [reducer.reduce] returns, the data the
    hook returns is the left fold of [reducer.reduce], from the empty
    array, over the records [{received, subject, value}] of the messages
    delivered to the run's loop, in the order of delivery. *)
Theorem data_is_fold_of_reducer (evs : list (Event V Connection)) c o
    (ms : Z) (s : string) (ds : list (nat * JsMsg))
    (records r : list (NatsMessage V)) :
  is_Some c →
  opt_start_time o = Some (TimeValue ms) →
  stream o = Some s → s ≠ ""%string →
  recordsOf o (deliveredTo (length (effects (run initial evs))) ds) = Some records →
  foldReduce o [] records = Some r →
  data (run (step (run initial evs) (Render c o)) (deliveries ds)) = r.
Proof.
  intros Hc Hdate Hstream Hs Hrecords Hfold.
  assert (startsConsuming c o = true) as Hstart
    by (apply startsConsuming_spec; eauto 10).
  rewrite data_after_render, Hstart.
  apply foldMessages_published.
  by rewrite (foldReduce_foldMessages _ _ records).
Qed.

(** When the connection is there, the start time is a valid date and the
    stream is named, the effect run resets the data, wraps the connection,
    gets the consumer and starts consuming, in that order. *)
Lemma consumers_get_called h (conn : Connection) o (ms : Z) (s : string) :
  opt_start_time o = Some (TimeValue ms) →
  stream o = Some s → s ≠ ""%string →
  ∃ opt,
    consumerOptions o = Some opt ∧
    log (step h (Render (Some conn) o))
      = log h ++ [SetData []; Jetstream conn; ConsumersGet s opt; Consume 1].
Proof.
  intros Hdate Hstream Hs. cbn [step]. rewrite runEffect_log, runCleanup_log.
  unfold setupCalls, guardsPass, consumerOptions, toISOString, truthyString.
  rewrite Hdate, Hstream. simpl.
  destruct (String.eqb_spec s ""); [done|]. simpl. eauto.
Qed.

Lemma consumerOptions_spec o opt :
  consumerOptions o = Some opt →
  (∃ ms,
     opt_start_time o = Some (TimeValue ms) ∧
     OrderedConsumerOptions.deliver_policy opt = Some StartTime ∧
     OrderedConsumerOptions.opt_start_time opt = Some (isoString ms) ∧
     OrderedConsumerOptions.filter_subjects opt
       = (if truthySubjects (subject o) then subject o else None))
  ∨ opt_start_time o = None.
Proof.
  unfold consumerOptions, toISOString.
  destruct (opt_start_time o) as [[ms|]|]; simpl; [|done|by right].
  intros [= <-]. left. exists ms. by destruct (truthySubjects (subject o)).
Qed.

(** C5 (as amended).  Whenever a run of the effect calls [js.consumers.get],
    a start time was supplied, and the options object passed has
    [deliver_policy] equal to [DeliverPolicy.StartTime], [opt_start_time]
    equal to the ISO string of the supplied date, and [filter_subjects]
    equal to the subject when the subject is an array or a non-empty
    string; for no subject and for the empty string [filter_subjects] is
    not set. *)
Theorem consumer_replays_from_start_time h c o (calls : list (Action V Connection))
    (s : string) opt :
  log (step h (Render c o)) = log h ++ calls →
  ConsumersGet s opt ∈ calls →
  ∃ ms,
    opt_start_time o = Some (TimeValue ms) ∧
    stream o = Some s ∧
    OrderedConsumerOptions.deliver_policy opt = Some StartTime ∧
    OrderedConsumerOptions.opt_start_time opt = Some (isoString ms) ∧
    (∀ subjects, subject o = Some subjects → subjects ≠ Subject "" →
       OrderedConsumerOptions.filter_subjects opt = Some subjects) ∧
    (subject o = None ∨ subject o = Some (Subject "") →
       OrderedConsumerOptions.filter_subjects opt = None).
Proof.
  cbn [step]. rewrite runEffect_log, runCleanup_log.
  intros <-%app_inv_head [[=]|Hcall]%elem_of_cons.
  unfold setupCalls in Hcall. destruct c as [conn|]; [|by apply elem_of_nil in Hcall].
  destruct (guardsPass (Some conn) o) eqn:Hguards; [|by apply elem_of_nil in Hcall].
  apply elem_of_cons in Hcall as [[=]|Hcall].
  destruct (consumerOptions o) as [opt'|] eqn:Hopt; [|by apply elem_of_nil in Hcall].
  apply elem_of_cons in Hcall as [[= -> ->]|Hcall];
    [|apply elem_of_cons in Hcall as [[=]|Hcall]; by apply elem_of_nil in Hcall].
  unfold guardsPass in Hguards.
  destruct (consumerOptions_spec o opt' Hopt)
    as [(ms & Hdate & Hpolicy & Hstart & Hfilter)|Hnone];
    [|by rewrite Hnone in Hguards].
  exists ms. rewrite Hdate in Hguards.
  destruct (stream o) as [s'|]; [|done]. simpl.
  split_and!; [done..| |].
  - intros subjects Hsubject Hnonempty. rewrite Hfilter, Hsubject.
    destruct subjects as [s''|l]; simpl; [|done].
    destruct (String.eqb_spec s'' ""); [congruence|done].
  - intros [Hsubject|Hsubject]; by rewrite Hfilter, Hsubject.
Qed.

(** C6 (as amended).  For every message delivered to a loop that is still
    reading: when [decoder.decode] and [reducer.reduce] return, the loop
    acknowledges the message once, then reads the cancellation flag, and
    then either publishes the new fold (the run is current) or leaves the
    loop and deletes the consumer without publishing (the run was
    cancelled), in which case the data is what it was; when one of the two
    calls throws, the loop is left and the consumer deleted with the
    message unacknowledged and nothing published. *)
Theorem delivered_message_acknowledged h (i : nat) eff m :
  effects h !! i = Some eff → consuming eff = true →
  match reduceWith (props eff) (effectData eff) m with
  | Some effectData' =>
      log (deliver i m h)
        = log h ++ [Ack m; ReadIsCurrent (isCurrent eff)]
            ++ (if isCurrent eff then [SetData effectData'] else [ConsumerDelete]) ∧
      (isCurrent eff = false →
         data (deliver i m h) = data h ∧
         ∃ eff', effects (deliver i m h) !! i = Some eff' ∧ consuming eff' = false)
  | None =>
      log (deliver i m h) = log h ++ [ConsumerDelete] ∧
      data (deliver i m h) = data h ∧
      ∃ eff', effects (deliver i m h) !! i = Some eff' ∧ consuming eff' = false
  end.
Proof.
  intros Heff Hconsuming. unfold deliver. rewrite Heff, Hconsuming.
  assert (i < length (effects h))%nat by (by eapply lookup_lt_Some).
  destruct (reduceWith _ _ m) as [effectData'|]; [destruct (isCurrent eff)|]; simpl.
  - split; [by rewrite <- app_assoc|by intros [=]].
  - split; [by rewrite <- app_assoc|]. intros _. split; [done|].
    eexists. split; [by apply list_lookup_insert_eq|done].
  - split_and!; [done..|].
    eexists. split; [by apply list_lookup_insert_eq|done].
Qed.



End StreamFacts.

Section StreamExamples.
Import Fixtures.
Import Js useNatsStream.
#[local] Existing Instance Fixtures.epochIso.

(** A second run of the effect, reading two messages while a late message
    still reaches the first, cancelled run. *)
Lemma data_is_fold_of_reducer_example :
  data
    (run (Connection := unit)
       (step
          (run initial
             [Render (Some ()) (streamOptions None);
              Deliver 0 (msg "orders.old" (payload 5))])
          (Render (Some ()) (streamOptions None)))
       (deliveries
          [(1%nat, msg "orders.a" (payload 2));
           (0%nat, msg "orders.late" (payload 4));
           (1%nat, msg "orders.b" (payload 1))]))
  = [NatsMessage.mk "orders.a" 2%nat (TimeValue 0);
     NatsMessage.mk "orders.b" 1%nat (TimeValue 0)].
Proof.
  apply (data_is_fold_of_reducer (Connection := unit)
           [Render (Some ()) (streamOptions None);
            Deliver 0 (msg "orders.old" (payload 5))]
           (Some ()) (streamOptions None) 0 "orders"
           [(1%nat, msg "orders.a" (payload 2));
            (0%nat, msg "orders.late" (payload 4));
            (1%nat, msg "orders.b" (payload 1))]
           [NatsMessage.mk "orders.a" 2%nat (TimeValue 0);
            NatsMessage.mk "orders.b" 1%nat (TimeValue 0)]
           [NatsMessage.mk "orders.a" 2%nat (TimeValue 0);
            NatsMessage.mk "orders.b" 1%nat (TimeValue 0)]);
    first [reflexivity | discriminate | by eexists].
Defined.

(** A run with a start time, a stream and the subject orders.eu. *)
Lemma consumer_replays_from_start_time_example :
  let o := streamOptions (Some (Subject "orders.eu")) in
  let opt :=
    OrderedConsumerOptions.mk (Some (isoString 0)) (Some StartTime)
      (Some (Subject "orders.eu")) in
  log (step (Connection := unit) initial (Render (Some ()) o))
    = log (initial (V := nat) (Connection := unit))
        ++ [SetData []; Jetstream (); ConsumersGet "orders" opt; Consume 1] ∧
  ∃ ms,
    opt_start_time o = Some (TimeValue ms) ∧
    stream o = Some "orders"%string ∧
    OrderedConsumerOptions.deliver_policy opt = Some StartTime ∧
    OrderedConsumerOptions.opt_start_time opt = Some (isoString ms) ∧
    (∀ subjects, subject o = Some subjects → subjects ≠ Subject "" →
       OrderedConsumerOptions.filter_subjects opt = Some subjects) ∧
    (subject o = None ∨ subject o = Some (Subject "") →
       OrderedConsumerOptions.filter_subjects opt = None).
Proof.
  split; [reflexivity|].
  apply (consumer_replays_from_start_time (V := nat) (Connection := unit)
           initial (Some ()) (streamOptions (Some (Subject "orders.eu")))
           [SetData []; Jetstream ();
            ConsumersGet "orders"
              (OrderedConsumerOptions.mk (Some (isoString 0)) (Some StartTime)
                 (Some (Subject "orders.eu")));
            Consume 1]).
  - reflexivity.
  - apply elem_of_cons; right. apply elem_of_cons; right. apply elem_of_cons; by left.
Defined.

(** C5 as stated fails for the empty string: it is a subject the caller
    supplied, and the options passed to [js.consumers.get] carry no
    [filter_subjects]. *)
Lemma empty_subject_is_not_passed_on :
  subject (streamOptions (Some (Subject ""))) = Some (Subject "") ∧
  log (step (Connection := unit) initial
         (Render (Some ()) (streamOptions (Some (Subject "")))))
    = [SetData []; Jetstream ();
       ConsumersGet "orders"
         (OrderedConsumerOptions.mk
            (Some "1970-01-01T00:00:00.000Z"%string) (Some StartTime) None);
       Consume 1].
Proof. split; reflexivity. Qed.

(** The last message of a cancelled run: acknowledged, the flag read, the
    consumer deleted, nothing published. *)
Lemma delivered_message_acknowledged_example :
  let h :=
    run (Connection := unit) initial
      [Render (Some ()) (streamOptions None);
       Deliver 0 (msg "orders.a" (payload 1));
       Unmount] in
  let m := msg "orders.b" (payload 2) in
  log (deliver 0 m h) = log h ++ [Ack m; ReadIsCurrent false; ConsumerDelete] ∧
  data (deliver 0 m h) = [NatsMessage.mk "orders.a" 1%nat (TimeValue 0)].
Proof.
  destruct (delivered_message_acknowledged (Connection := unit)
              (run (Connection := unit) initial
                 [Render (Some ()) (streamOptions None);
                  Deliver 0 (msg "orders.a" (payload 1));
                  Unmount])
              0
              {| props := streamOptions None; isCurrent := false;
                 effectData := [NatsMessage.mk "orders.a" 1%nat (TimeValue 0)];
                 consuming := true |}
              (msg "orders.b" (payload 2))
              eq_refl eq_refl)
    as [Hlog Hcancelled].
  split; [exact Hlog|]. exact (proj1 (Hcancelled eq_refl)).
Defined.

(** C6 as stated fails when [decoder.decode] throws: the message was
    delivered to the loop, the exception leaves the loop before [m.ack()],
    and the consumer is deleted with the message unacknowledged. *)
Lemma undecodable_message_is_not_acknowledged :
  let h :=
    run (Connection := unit) initial [Render (Some ()) (streamOptions None)] in
  let m := msg "orders.a" [] in
  effects h !! 0%nat
    = Some {| props := streamOptions None; isCurrent := true;
              effectData := []; consuming := true |} ∧
  decoder (streamOptions None) (JsMsg.data m) = None ∧
  log (deliver 0 m h) = log h ++ [ConsumerDelete] ∧
  Ack m ∉ log (deliver 0 m h).
Proof.
  split_and!; [reflexivity..|].
  intros Hin. repeat (apply elem_of_cons in Hin as [[=]|Hin]).
  by apply elem_of_nil in Hin.
Qed.


End StreamExamples.

(** ** The argument of [wsconnect] *)
Section ProviderFacts.
Import NatsProvider.
Context {Connection : Type}.
Implicit Types (url : string) (options : option ConnectionOptions)
  (p : ProviderState Connection).

Lemma spread_lookup (target : ConnectionOptions) options (k : string) :
  spread target options !! k =
    match default ∅ options !! k with
    | Some v => Some v
    | None => target !! k
    end.
Proof.
  destruct options as [source|]; simpl.
  - rewrite lookup_union. destruct (source !! k), (target !! k); done.
  - by rewrite lookup_empty.
Qed.

(** The revisions that name [DEFAULT_OPTIONS] pass the same object as the
    one that writes the defaults inline. *)
Lemma wsconnectArgument_revisions url options :
  wsconnectArgument' url options = wsconnectArgument url options.
Proof.
  apply map_eq. intros k.
  unfold wsconnectArgument', wsconnectArgument, connectionOptions, DEFAULT_OPTIONS.
  rewrite !spread_lookup. cbn [default from_option id]. rewrite !spread_lookup.
  cbn [default from_option id].
  destruct (from_option id ∅ options !! k); [done|]. rewrite lookup_empty.
  destruct (decide (k = "maxPingOut"%string)) as [->|]; [by simplify_map_eq|].
  destruct (decide (k = "pingInterval"%string)) as [->|]; [by simplify_map_eq|].
  destruct (decide (k = "reconnect"%string)) as [->|]; [by simplify_map_eq|].
  simplify_map_eq.
  by rewrite (lookup_insert_ne _ "maxPingOut"%string),
    (lookup_insert_ne _ "pingInterval"%string),
    (lookup_insert_ne _ "reconnect"%string) by congruence.
Qed.

(** C7 (as amended).  When no connection is held or being made, the
    provider's effect calls [wsconnect]; the object it passes, the same in
    every revision of the file, holds every entry of the [options] prop as
    the caller wrote it, and, for the keys the caller left out, [servers]
    set to the [url] prop, [reconnect = true], [pingInterval = 10000],
    [maxPingOut = 5] and nothing else.  An entry [servers] in [options]
    therefore replaces the [url] prop. *)
Theorem wsconnect_argument url options p :
  (isConnectingRef p = false → connRef p = None →
     (establishConnection url options p).2 = Some (wsconnectArgument url options)) ∧
  wsconnectArgument' url options = wsconnectArgument url options ∧
  (∀ (k : string) v,
     default ∅ options !! k = Some v → wsconnectArgument url options !! k = Some v) ∧
  (default ∅ options !! "servers" = None →
     wsconnectArgument url options !! "servers" = Some (VString url)) ∧
  (default ∅ options !! "reconnect" = None →
     wsconnectArgument url options !! "reconnect" = Some (VBoolean true)) ∧
  (default ∅ options !! "pingInterval" = None →
     wsconnectArgument url options !! "pingInterval" = Some (VNumber 10000)) ∧
  (default ∅ options !! "maxPingOut" = None →
     wsconnectArgument url options !! "maxPingOut" = Some (VNumber 5)) ∧
  (∀ k : string,
     default ∅ options !! k = None →
     k ∉ ["servers"; "reconnect"; "pingInterval"; "maxPingOut"]%string →
     wsconnectArgument url options !! k = None).
Proof.
  split.
  { intros Hidle Hnone. unfold establishConnection. by rewrite Hidle, Hnone. }
  split; [apply wsconnectArgument_revisions|].
  unfold wsconnectArgument.
  split_and!; [intros k v Hk|intros Hk..|intros k Hk Hother];
    rewrite spread_lookup; simpl; rewrite Hk; [done|by simplify_map_eq..|].
  rewrite !lookup_insert_ne, lookup_empty; [done|..];
    intros <-; apply Hother; set_solver.
Qed.

End ProviderFacts.

(** The options of the test wrapper, with a [maxPingOut] of the caller's. *)
Lemma wsconnect_argument_example :
  NatsProvider.wsconnectArgument "ws://localhost:4222"
    (Some {[ "name"%string := NatsProvider.VString "test-client";
             "maxPingOut"%string := NatsProvider.VNumber 2 ]})
  = {[ "servers"%string := NatsProvider.VString "ws://localhost:4222";
       "reconnect"%string := NatsProvider.VBoolean true;
       "pingInterval"%string := NatsProvider.VNumber 10000;
       "maxPingOut"%string := NatsProvider.VNumber 2;
       "name"%string := NatsProvider.VString "test-client" ]}.
Proof. by vm_compute. Qed.

(** C7 as stated fails when [options] has an entry [servers]: it is spread
    after [servers: url] and replaces it. *)
Lemma options_servers_replaces_url :
  NatsProvider.wsconnectArgument "ws://a"
    (Some {[ "servers"%string := NatsProvider.VString "ws://b" ]}) !! "servers"%string
  = Some (NatsProvider.VString "ws://b") ∧
  NatsProvider.wsconnectArgument' "ws://a"
    (Some {[ "servers"%string := NatsProvider.VString "ws://b" ]}) !! "servers"%string
  = Some (NatsProvider.VString "ws://b").
Proof. split; by vm_compute. Qed.

(* ================================================================== *)
(** * Part III: further properties of the code                         *)
(* ================================================================== *)

(** ** More about [stableUpsert] *)
Section UpsertFacts.
Import Js useNatsKvTable.
Context {V : Type} `{Collation}.
Implicit Types (arr : list (NatsEntry V)) (newEntry : NatsEntry V).

(** The two cases of [stableUpsert], with the position of the first
    occurrence spelled out as a split of the array. *)
Lemma stableUpsert_middle (l1 l2 : list (NatsEntry V)) old newEntry inPlace :
  NatsEntry.key old = NatsEntry.key newEntry →
  NatsEntry.key newEntry ∉ (NatsEntry.key <$> l1) →
  stableUpsert (l1 ++ old :: l2) newEntry inPlace = l1 ++ newEntry :: l2.
Proof.
  intros Hkey Hfirst.
  rewrite (stableUpsert_present _ newEntry inPlace (length l1) old).
  - by rewrite insert_app_r_alt, Nat.sub_diag by lia.
  - by rewrite list_lookup_middle.
  - done.
  - intros j y Hy Hj Hsame. apply Hfirst.
    rewrite lookup_app_l in Hy by done.
    apply list_elem_of_fmap. exists y. split; [done|].
    by eapply list_elem_of_lookup_2.
Qed.

Lemma stableUpsert_split arr newEntry :
  NatsEntry.key newEntry ∈ (NatsEntry.key <$> arr) →
  ∃ l1 old l2,
    arr = l1 ++ old :: l2 ∧ NatsEntry.key old = NatsEntry.key newEntry ∧
    NatsEntry.key newEntry ∉ (NatsEntry.key <$> l1).
Proof.
  induction arr as [|x arr IH]; [by intros ?%elem_of_nil|].
  intros Hin. destruct (decide (NatsEntry.key x = NatsEntry.key newEntry)) as [Hx|Hx].
  - exists [], x, arr. split_and!; [done..|]. simpl. apply not_elem_of_nil.
  - rewrite fmap_cons in Hin. apply elem_of_cons in Hin as [Hin|Hin]; [congruence|].
    destruct (IH Hin) as (l1 & old & l2 & -> & Hold & Hl1).
    exists (x :: l1), old, l2. split_and!; [done..|].
    rewrite fmap_cons. intros [?|?]%elem_of_cons; congruence.
Qed.

Lemma stableUpsert_key_list arr newEntry inPlace :
  NatsEntry.key <$> stableUpsert arr newEntry inPlace ≡ₚ
    if decide (NatsEntry.key newEntry ∈ (NatsEntry.key <$> arr))
    then NatsEntry.key <$> arr
    else (NatsEntry.key <$> arr) ++ [NatsEntry.key newEntry].
Proof.
  case_decide as Hin.
  - destruct (stableUpsert_split arr newEntry Hin) as (l1 & old & l2 & -> & Hold & Hl1).
    rewrite stableUpsert_middle by done.
    by rewrite !fmap_app, !fmap_cons, Hold.
  - rewrite stableUpsert_absent by done.
    by rewrite sort_Permutation, fmap_app.
Qed.

Lemma stableUpsert_key_iff arr newEntry inPlace (k : string) :
  k ∈ (NatsEntry.key <$> stableUpsert arr newEntry inPlace) ↔
  k ∈ (NatsEntry.key <$> arr) ∨ k = NatsEntry.key newEntry.
Proof.
  rewrite stableUpsert_key_list. case_decide as Hin.
  - split; [by left|]. by intros [?| ->].
  - by rewrite elem_of_app, list_elem_of_singleton.
Qed.

(** X1.  The keys of the array after an upsert are the keys it had and the
    key of the new entry, and the array grows by one exactly when the key is
    new, in place as well as copying. *)
Theorem stableUpsert_keys arr newEntry inPlace :
  (∀ k : string,
     k ∈ (NatsEntry.key <$> stableUpsert arr newEntry inPlace) ↔
     k ∈ (NatsEntry.key <$> arr) ∨ k = NatsEntry.key newEntry) ∧
  length (stableUpsert arr newEntry inPlace)
    = (if decide (NatsEntry.key newEntry ∈ (NatsEntry.key <$> arr))
       then length arr else S (length arr)).
Proof.
  split; [intros k; apply stableUpsert_key_iff|].
  pose proof (stableUpsert_key_list arr newEntry inPlace) as Hkeys.
  apply Permutation_length in Hkeys. rewrite length_fmap in Hkeys.
  rewrite Hkeys. case_decide; [by rewrite length_fmap|].
  rewrite length_app, length_fmap. simpl. lia.
Qed.

(** Keys stay unique under an upsert, whatever the collation does. *)
Lemma stableUpsert_uniqueKeys arr newEntry inPlace :
  uniqueKeys arr → uniqueKeys (stableUpsert arr newEntry inPlace).
Proof.
  unfold uniqueKeys. intros Harr. rewrite stableUpsert_key_list.
  case_decide as Hin; [done|].
  apply NoDup_app. split_and!; [done| |apply NoDup_singleton].
  by intros k Hk ->%list_elem_of_singleton.
Qed.

Lemma stableUpsert_elem_of arr newEntry inPlace :
  newEntry ∈ stableUpsert arr newEntry inPlace ∧
  ∀ x, x ∈ stableUpsert arr newEntry inPlace → x ∈ arr ∨ x = newEntry.
Proof.
  destruct (decide (NatsEntry.key newEntry ∈ (NatsEntry.key <$> arr))) as [Hin|Hout].
  - destruct (stableUpsert_split arr newEntry Hin) as (l1 & old & l2 & -> & Hold & Hl1).
    rewrite stableUpsert_middle by done.
    split; [apply elem_of_app; right; left|].
    intros x. rewrite !elem_of_app, !elem_of_cons. tauto.
  - rewrite stableUpsert_absent by done. split.
    + rewrite sort_Permutation, elem_of_app, list_elem_of_singleton. by right.
    + intros x. rewrite sort_Permutation, elem_of_app, list_elem_of_singleton. tauto.
Qed.

Lemma uniqueKeys_elem_eq arr (x y : NatsEntry V) :
  uniqueKeys arr → x ∈ arr → y ∈ arr → NatsEntry.key x = NatsEntry.key y → x = y.
Proof.
  intros Hunique [i Hx]%list_elem_of_lookup [j Hy]%list_elem_of_lookup Hkey.
  assert (i = j) as ->; [|congruence].
  apply (NoDup_lookup _ i j (NatsEntry.key x) Hunique).
  - by rewrite list_lookup_fmap, Hx.
  - by rewrite list_lookup_fmap, Hy, Hkey.
Qed.

(** Closes a goal [k ∉ key <$> [x1; ...; xn] ++ l] from what the context says
    about the keys. *)
Ltac not_a_key :=
  simpl; rewrite ?not_elem_of_cons; split_and?;
  first [done | congruence | apply not_elem_of_nil].

(** Inserting an entry into a sorted run of entries goes around the slot of
    a key that is not the entry's: what stands in the slot plays no part. *)
Lemma sortInsert_slot (a : NatsEntry V) (l1 l2 : list (NatsEntry V)) (k : string) :
  NatsEntry.key a ≠ k → k ∉ (NatsEntry.key <$> l1) →
  ∃ l1' l2',
    (k ∉ (NatsEntry.key <$> l1')) ∧
    ∀ e : NatsEntry V, NatsEntry.key e = k →
      sortInsert byKey a (l1 ++ e :: l2) = l1' ++ e :: l2'.
Proof.
  intros Ha. induction l1 as [|y l1 IH]; intros Hl1.
  - destruct (localeCompare (NatsEntry.key a) k <=? 0) eqn:Hcompare.
    + exists [a], l2. split; [not_a_key|]. intros e He. simpl.
      unfold byKey at 1. by rewrite He, Hcompare.
    + exists [], (sortInsert byKey a l2). split; [not_a_key|]. intros e He. simpl.
      unfold byKey at 1. by rewrite He, Hcompare.
  - rewrite fmap_cons in Hl1. apply not_elem_of_cons in Hl1 as [Hy Hl1].
    destruct (IH Hl1) as (l1' & l2' & Hl1' & Hslot).
    destruct (byKey a y <=? 0) eqn:Hcompare.
    + exists (a :: y :: l1), l2. split; [not_a_key|]. intros e He. simpl.
      by rewrite Hcompare.
    + exists (y :: l1'), l2'. split; [not_a_key|]. intros e He. simpl.
      by rewrite Hcompare, Hslot.
Qed.

Lemma sort_slot arr (k : string) :
  k ∉ (NatsEntry.key <$> arr) →
  ∃ l1 l2,
    (k ∉ (NatsEntry.key <$> l1)) ∧
    ∀ e : NatsEntry V, NatsEntry.key e = k → sort byKey (arr ++ [e]) = l1 ++ e :: l2.
Proof.
  induction arr as [|a arr IH]; intros Harr.
  - exists [], []. split; [not_a_key|]. done.
  - rewrite fmap_cons in Harr. apply not_elem_of_cons in Harr as [Ha Harr].
    destruct (IH Harr) as (l1 & l2 & Hl1 & Hsort).
    destruct (sortInsert_slot a l1 l2 k) as (l1' & l2' & Hl1' & Hslot); [done..|].
    exists l1', l2'. split; [done|]. intros e He.
    unfold sort in *. simpl. by rewrite Hsort, Hslot.
Qed.

(** X2.  The last write wins: an upsert under a key replaces what an earlier
    upsert under that key has left, whichever variants were used; so
    upserting the same entry twice is upserting it once. *)
Theorem stableUpsert_overwrite arr (e1 e2 : NatsEntry V) (inPlace1 inPlace2 : bool) :
  NatsEntry.key e1 = NatsEntry.key e2 →
  stableUpsert (stableUpsert arr e1 inPlace1) e2 inPlace2 = stableUpsert arr e2 inPlace2.
Proof.
  intros Hkey.
  destruct (decide (NatsEntry.key e1 ∈ (NatsEntry.key <$> arr))) as [Hin|Hout].
  - destruct (stableUpsert_split arr e1 Hin) as (l1 & old & l2 & -> & Hold & Hl1).
    rewrite (stableUpsert_middle l1 l2 old e1) by done.
    rewrite !stableUpsert_middle; [done|congruence..].
  - destruct (sort_slot arr (NatsEntry.key e1) Hout) as (l1 & l2 & Hl1 & Hsort).
    rewrite (stableUpsert_absent arr e1) by done.
    rewrite (stableUpsert_absent arr e2) by congruence.
    rewrite (Hsort e1), (Hsort e2) by done.
    apply stableUpsert_middle; congruence.
Qed.

End UpsertFacts.

Section UpsertFrame.
Import Js useNatsKvTable.
Context {V : Type} `{ConsistentCollation}.
Implicit Types (arr : list (NatsEntry V)) (newEntry : NatsEntry V).

Lemma byKey_total (a b : NatsEntry V) : byKey a b ≤ 0 ∨ byKey b a ≤ 0.
Proof. apply localeCompare_total. Qed.

Lemma filter_comm {A} (P Q : A → Prop) `{∀ x, Decision (P x)} `{∀ x, Decision (Q x)}
    (l : list A) :
  filter P (filter Q l) = filter Q (filter P l).
Proof.
  induction l as [|x l IH]; [done|].
  rewrite !(filter_cons _ x).
  destruct (decide (Q x)), (decide (P x)); rewrite ?filter_cons;
    repeat case_decide; try done; by rewrite IH.
Qed.

(** X3.  An upsert into an ascending array leaves the entries under every
    other key as they were, values and order: the array without the new
    key is the same before and after, and the new entry is in the result. *)
Theorem stableUpsert_frame arr newEntry inPlace :
  sortedByKey arr →
  filter (λ item, otherKey (NatsEntry.key newEntry) item) (stableUpsert arr newEntry inPlace)
    = filter (λ item, otherKey (NatsEntry.key newEntry) item) arr ∧
  newEntry ∈ stableUpsert arr newEntry inPlace.
Proof.
  intros Hsorted. split; [|apply stableUpsert_elem_of].
  assert (otherKey (NatsEntry.key newEntry) newEntry = false) as Hnew
    by (unfold otherKey; by rewrite String.eqb_refl).
  destruct (decide (NatsEntry.key newEntry ∈ (NatsEntry.key <$> arr))) as [Hin|Hout].
  - destruct (stableUpsert_split arr newEntry Hin) as (l1 & old & l2 & -> & Hold & Hl1).
    rewrite stableUpsert_middle by done.
    assert (otherKey (NatsEntry.key newEntry) old = false) as Hother
      by (unfold otherKey; by rewrite Hold, String.eqb_refl).
    by rewrite !filter_app, !filter_cons, Hnew, Hother.
  - rewrite stableUpsert_absent by done.
    pose proof (byKey_transitive (V := V)) as Htrans.
    apply (sorted_stable_unique byKey byKey_total).
    + apply filter_StronglySorted, Sorted_StronglySorted; [done|].
      apply sort_Sorted, byKey_total.
    + by apply filter_StronglySorted, Sorted_StronglySorted.
    + rewrite sort_Permutation, filter_app, filter_cons, Hnew. simpl.
      by rewrite filter_nil, app_nil_r.
    + intros x. rewrite filter_comm, sort_stable by (apply byKey_total || apply Htrans).
      rewrite filter_comm, filter_app, (filter_cons _ newEntry), Hnew. simpl.
      by rewrite filter_nil, app_nil_r.
Qed.

End UpsertFrame.

(** ** More about the table hook *)
Section TableFacts.
Import Js useNatsKvTable.
Context {V : Type} `{Collation}.
Implicit Types (arr prev : list (NatsEntry V)) (h : Hook V) (e : KvWatchEntry)
  (o : NatsKvTableOptions V) (x : NatsEntry V).

Lemma applyEach_snoc prev (updates : list (NatsEntry V)) x :
  applyEach prev (updates ++ [x]) = stableUpsert (applyEach prev updates) x false.
Proof. unfold applyEach. by rewrite foldl_snoc. Qed.

Lemma applyEach_keys prev (updates : list (NatsEntry V)) (k : string) :
  k ∈ (NatsEntry.key <$> applyEach prev updates) ↔
  k ∈ (NatsEntry.key <$> prev) ∨ k ∈ (NatsEntry.key <$> updates).
Proof.
  induction updates as [|u updates IH] using rev_ind.
  - simpl. rewrite elem_of_nil. tauto.
  - rewrite applyEach_snoc, stableUpsert_key_iff, IH.
    rewrite fmap_app, elem_of_app. simpl. rewrite list_elem_of_singleton. tauto.
Qed.

Lemma applyEach_elem_of prev (updates : list (NatsEntry V)) x :
  x ∈ applyEach prev updates → x ∈ prev ∨ x ∈ updates.
Proof.
  induction updates as [|u updates IH] using rev_ind; [by left|].
  rewrite applyEach_snoc. intros [Hx| ->]%stableUpsert_elem_of.
  - destruct (IH Hx); [by left|]. right. apply elem_of_app. by left.
  - right. apply elem_of_app. right. by left.
Qed.

Lemma applyEach_uniqueKeys prev (updates : list (NatsEntry V)) :
  uniqueKeys prev → uniqueKeys (applyEach prev updates).
Proof.
  induction updates as [|u updates IH] using rev_ind; [done|].
  intros Hprev. rewrite applyEach_snoc. by apply stableUpsert_uniqueKeys, IH.
Qed.

Lemma filter_uniqueKeys arr (k : string) :
  uniqueKeys arr → uniqueKeys (filter (λ item, otherKey k item) arr).
Proof.
  unfold uniqueKeys. intros Harr.
  eapply sublist_NoDup; [done|]. apply fmap_sublist, sublist_filter.
Qed.

Lemma step_uniqueKeys h (ev : Event V) :
  uniqueKeys (entries h) → uniqueKeys (entries (step h ev)).
Proof.
  intros Hh.
  assert (uniqueKeys (entries (flushUpdates h))) as Hflush.
  { destruct (flushUpdates_applyEach h) as (-> & _). by apply applyEach_uniqueKeys. }
  destruct ev as [o| |e|]; simpl.
  - by destruct (batched o).
  - done.
  - destruct (effect h) as [eff|]; [|done].
    destruct (watching eff); [|done].
    unfold watchBody, watchBatched, watchUnbatched.
    destruct (batched (options eff)), (KvWatchEntry.operation e);
      try destruct (newEntryOf _ e); simpl;
      auto using stableUpsert_uniqueKeys, filter_uniqueKeys.
  - destruct (effect h) as [eff|]; [|done].
    by destruct (batched (options eff)).
Qed.

Lemma run_uniqueKeys (evs : list (Event V)) h :
  uniqueKeys (entries h) → uniqueKeys (entries (run h evs)).
Proof.
  revert h. induction evs as [|ev evs IH]; intros h Hh; [done|].
  simpl. by apply IH, step_uniqueKeys.
Qed.

(** X4.  No key occurs twice in the entries, whatever the watcher, the timer
    and the reruns of the effect do, and whatever [localeCompare] returns:
    uniqueness does not depend on the collation being consistent. *)
Theorem entries_keys_unique (evs : list (Event V)) :
  uniqueKeys (entries (run initial evs)) ∧
  ∀ x y : NatsEntry V,
    x ∈ entries (run initial evs) → y ∈ entries (run initial evs) →
    NatsEntry.key x = NatsEntry.key y → x = y.
Proof.
  assert (uniqueKeys (entries (run (initial (V := V)) evs))) as Hunique.
  { apply run_uniqueKeys. unfold uniqueKeys. simpl. constructor. }
  split; [done|]. intros x y. by apply uniqueKeys_elem_eq.
Qed.

(** X5.  A flush empties the buffer, so a second flush finds nothing to do:
    it returns the hook as it is, without a call of [setEntries], and a
    timer that fires twice in a row does what it does when it fires
    once. *)
Theorem flushUpdates_idempotent h :
  pendingUpdates (flushUpdates h) = [] ∧
  flushUpdates (flushUpdates h) = flushUpdates h ∧
  step (step h IntervalTick) IntervalTick = step h IntervalTick.
Proof.
  destruct (flushUpdates_applyEach h) as (_ & Hpending & Heffect).
  assert (flushUpdates (flushUpdates h) = flushUpdates h) as Hflush.
  { unfold flushUpdates at 1. by rewrite Hpending. }
  split_and!; [done..|]. cbn [step].
  destruct (effect h) as [eff|] eqn:Heff.
  - destruct (batched (options eff)) eqn:Hbatched.
    + by rewrite Heffect, Hbatched, Hflush.
    + by rewrite Heff, Hbatched.
  - by rewrite Heff.
Qed.

(** *** Where the entries come from *)

Lemma newEntryOf_key o e x : newEntryOf o e = Some x → NatsEntry.key x = KvWatchEntry.key e.
Proof.
  unfold newEntryOf. destruct (decoder o _) as [decoded|]; simpl; [|done].
  destruct (enrich o) as [f|]; simpl.
  - destruct (f _ _ decoded); simpl; [|done]. by intros [= <-].
  - by intros [= <-].
Qed.

Lemma step_elem_of h (ev : Event V) x :
  x ∈ entries (step h ev) ∨ x ∈ pendingUpdates (step h ev) →
  (x ∈ entries h ∨ x ∈ pendingUpdates h) ∨
  ∃ eff e, ev = Watch e ∧ effect h = Some eff ∧
    KvWatchEntry.operation e = PUT ∧ newEntryOf (options eff) e = Some x.
Proof.
  assert (x ∈ entries (flushUpdates h) ∨ x ∈ pendingUpdates (flushUpdates h) →
          x ∈ entries h ∨ x ∈ pendingUpdates h) as Hflush.
  { destruct (flushUpdates_applyEach h) as (-> & -> & _).
    intros [Hx|Hx%elem_of_nil]; [|done]. by apply applyEach_elem_of. }
  destruct ev as [o| |e|]; simpl.
  - destruct (batched o); [|by left]. intros Hx. left. by apply Hflush.
  - by left.
  - destruct (effect h) as [eff|] eqn:Heff; [|by left].
    destruct (watching eff); [|by left].
    unfold watchBody, watchBatched, watchUnbatched.
    destruct (batched (options eff)), (KvWatchEntry.operation e) eqn:Hop;
      try destruct (newEntryOf _ e) as [newEntry|] eqn:Hnew; simpl;
      try (by left).
    + intros [Hx|[Hx|Hx%list_elem_of_singleton]%elem_of_app]; [by left; left|by left; right|].
      subst x. right. by exists eff, e.
    + intros [[_ Hx]%list_elem_of_filter|[_ Hx]%list_elem_of_filter]; left; [by left|by right].
    + intros [[_ Hx]%list_elem_of_filter|[_ Hx]%list_elem_of_filter]; left; [by left|by right].
    + intros [[Hx| ->]%stableUpsert_elem_of|Hx]; [by left; left| |by left; right].
      right. by exists eff, e.
    + intros [[_ Hx]%list_elem_of_filter|Hx]; left; [by left|by right].
    + intros [[_ Hx]%list_elem_of_filter|Hx]; left; [by left|by right].
  - destruct (effect h) as [eff|]; [|by left].
    destruct (batched (options eff)); [|by left]. intros Hx. left. by apply Hflush.
Qed.

Lemma step_effect_options h (ev : Event V) eff' :
  effect (step h ev) = Some eff' →
  ev = EffectRun (options eff') ∨
  ∃ eff, effect h = Some eff ∧ options eff = options eff'.
Proof.
  assert (effect (flushUpdates h) = effect h) as Hflush by apply flushUpdates_applyEach.
  assert (∀ eff, effect h = Some eff → options eff = options eff' →
            ev = EffectRun (options eff') ∨
            ∃ eff, effect h = Some eff ∧ options eff = options eff') as Hsame
    by (intros eff ??; right; by exists eff).
  destruct ev as [o| |e|]; cbn [step].
  - intros [= <-]. by left.
  - done.
  - destruct (effect h) as [eff|] eqn:Heff; [|by rewrite Heff].
    destruct (watching eff); [|rewrite Heff; intros [= <-]; by eapply Hsame].
    unfold watchBody, watchBatched, watchUnbatched.
    destruct (batched (options eff)), (KvWatchEntry.operation e);
      try destruct (newEntryOf _ e); simpl; rewrite ?Heff;
      intros [= <-]; by eapply Hsame.
  - destruct (effect h) as [eff|] eqn:Heff; [|by rewrite Heff].
    destruct (batched (options eff)); rewrite ?Hflush, ?Heff;
      intros [= <-]; by eapply Hsame.
Qed.

Lemma run_snoc h (evs : list (Event V)) ev : run h (evs ++ [ev]) = step (run h evs) ev.
Proof. unfold run. by rewrite foldl_snoc. Qed.

Lemma run_origin (evs : list (Event V)) :
  (∀ x, x ∈ entries (run initial evs) ∨ x ∈ pendingUpdates (run initial evs) →
     ∃ o e, EffectRun o ∈ evs ∧ Watch e ∈ evs ∧
       KvWatchEntry.operation e = PUT ∧ newEntryOf o e = Some x) ∧
  (∀ eff, effect (run initial evs) = Some eff → EffectRun (options eff) ∈ evs).
Proof.
  induction evs as [|ev evs [IHx IHeff]] using rev_ind.
  - split; [|done]. intros x [Hx|Hx]; by apply elem_of_nil in Hx.
  - rewrite run_snoc. split.
    + intros x [Hx|(eff & e & -> & Heff & Hop & Hnew)]%step_elem_of.
      * destruct (IHx x Hx) as (o & e & Ho & He & Hop & Hnew).
        exists o, e. rewrite !elem_of_app. by split_and!; [left|left|..].
      * exists (options eff), e. rewrite !elem_of_app, !list_elem_of_singleton.
        split_and!; [left; by apply IHeff|by right|done..].
    + intros eff' [->|(eff & Heff & <-)]%step_effect_options.
      * apply elem_of_app. right. by left.
      * apply elem_of_app. left. by apply IHeff.
Qed.

(** X6.  The hook invents nothing: every entry in the entries and in the
    buffer was built, by [decoder.decode] and [enrich] as some run of the
    effect had them, from a PUT the watcher has yielded, and carries that
    PUT's key and creation date. *)
Theorem entries_come_from_puts (evs : list (Event V)) x :
  x ∈ entries (run initial evs) ∨ x ∈ pendingUpdates (run initial evs) →
  ∃ o e,
    EffectRun o ∈ evs ∧ Watch e ∈ evs ∧
    KvWatchEntry.operation e = PUT ∧ newEntryOf o e = Some x ∧
    NatsEntry.key x = KvWatchEntry.key e ∧
    NatsEntry.created x = KvWatchEntry.created e.
Proof.
  intros Hx. destruct (proj1 (run_origin evs) x Hx) as (o & e & Ho & He & Hop & Hnew).
  exists o, e. split_and!; [done..|by eapply newEntryOf_key|].
  unfold newEntryOf in Hnew. destruct (decoder o _) as [decoded|]; simpl in Hnew; [|done].
  destruct (enrich o) as [f|]; simpl in Hnew.
  - destruct (f _ _ decoded); simpl in Hnew; [|done]. by injection Hnew as <-.
  - by injection Hnew as <-.
Qed.

(** X7.  A PUT that the live loop decodes is shown: without batching in the
    step that handles it, with batching after the next tick of the timer;
    and the entry built from it is then the only entry under its key. *)
Theorem put_is_shown (evs : list (Event V)) eff e newEntry :
  effect (run initial evs) = Some eff → watching eff = true →
  KvWatchEntry.operation e = PUT → newEntryOf (options eff) e = Some newEntry →
  let shown :=
    entries (if batched (options eff)
             then step (step (run initial evs) (Watch e)) IntervalTick
             else step (run initial evs) (Watch e)) in
  newEntry ∈ shown ∧
  ∀ x, x ∈ shown → NatsEntry.key x = KvWatchEntry.key e → x = newEntry.
Proof.
  intros Heff Hwatching Hop Hnew shown.
  assert (uniqueKeys (entries (run (initial (V := V)) evs))) as Hunique.
  { apply run_uniqueKeys. unfold uniqueKeys. simpl. constructor. }
  assert (newEntry ∈ shown ∧ uniqueKeys shown) as [Hin Hshown].
  { subst shown. set (h := run initial evs) in *.
    destruct (batched (options eff)) eqn:Hbatched.
    - assert (step h (Watch e) = setPending (pendingUpdates h ++ [newEntry]) h) as ->.
      { simpl. rewrite Heff, Hwatching. unfold watchBody. rewrite Hbatched.
        unfold watchBatched. by rewrite Hop, Hnew. }
      simpl. rewrite Heff, Hbatched.
      destruct (flushUpdates_applyEach (setPending (pendingUpdates h ++ [newEntry]) h))
        as (-> & _).
      simpl. rewrite applyEach_snoc. split; [apply stableUpsert_elem_of|].
      by apply stableUpsert_uniqueKeys, applyEach_uniqueKeys.
    - assert (step h (Watch e)
              = setEntries (λ prev, stableUpsert prev newEntry false) h) as ->.
      { simpl. rewrite Heff, Hwatching. unfold watchBody. rewrite Hbatched.
        unfold watchUnbatched. by rewrite Hop, Hnew. }
      simpl. split; [apply stableUpsert_elem_of|].
      by apply stableUpsert_uniqueKeys. }
  split; [done|]. intros x Hx Hkey.
  apply (uniqueKeys_elem_eq shown); [done..|].
  rewrite Hkey. symmetry. by eapply newEntryOf_key.
Qed.

(** X8.  When [decoder.decode] or [enrich] throws on a PUT, the exception
    ends the watch loop and nothing is stored; from then on the watcher's
    events are lost, PUTs and deletions alike, until the effect runs
    again. *)
Theorem decoder_throw_stops_table h eff e (es : list KvWatchEntry) :
  effect h = Some eff → watching eff = true →
  KvWatchEntry.operation e = PUT → newEntryOf (options eff) e = None →
  entries (step h (Watch e)) = entries h ∧
  pendingUpdates (step h (Watch e)) = pendingUpdates h ∧
  run (step h (Watch e)) (Watch <$> es) = step h (Watch e).
Proof.
  intros Heff Hwatching Hop Hnew.
  assert (step h (Watch e)
          = setEffect (Some {| options := options eff; watching := false |}) h) as ->.
  { simpl. rewrite Heff, Hwatching.
    unfold watchBody, watchBatched, watchUnbatched.
    destruct (batched (options eff)); by rewrite Hop, Hnew. }
  split_and!; [done..|].
  induction es as [|e' es IH]; [done|]. simpl. apply IH.
Qed.

(** X9.  A rerun of the effect does not reset the table: the entries
    stay, and what the previous run has left in the buffer is flushed into
    them when the new run batches, and stays in the buffer when it does
    not. *)
Theorem rerun_keeps_entries h o :
  entries (run h [EffectCleanup; EffectRun o])
    = applyEach (entries h) (if batched o then pendingUpdates h else []) ∧
  pendingUpdates (run h [EffectCleanup; EffectRun o])
    = (if batched o then [] else pendingUpdates h) ∧
  effect (run h [EffectCleanup; EffectRun o])
    = Some {| options := o; watching := true |}.
Proof.
  simpl. destruct (batched o); [|done].
  destruct (flushUpdates_applyEach (setEffect None h)) as (-> & -> & _). done.
Qed.

(** X10.  Without batching the buffer is never written: while every run of
    the effect has [refreshInterval <= 0], the buffer stays empty. *)
Theorem unbatched_never_buffers (evs : list (Event V)) :
  Forall (λ ev, ∀ o, ev = EffectRun o → refreshInterval o ≤ 0) evs →
  pendingUpdates (run initial evs) = [].
Proof.
  intros Hevs.
  assert (pendingUpdates (run (initial (V := V)) evs) = [] ∧
          ∀ eff, effect (run (initial (V := V)) evs) = Some eff →
            batched (options eff) = false) as [Hpending _]; [|done].
  induction evs as [|ev evs IH] using rev_ind; [done|].
  apply Forall_app in Hevs as [Hevs Hev]. rewrite Forall_singleton in Hev.
  destruct (IH Hevs) as [Hpending Hunbatched]. rewrite run_snoc.
  set (h := run initial evs) in *.
  destruct ev as [o| |e|]; cbn [step].
  - assert (batched o = false) as Ho
      by (apply Z.ltb_ge; by apply Hev).
    rewrite Ho. split; [done|]. by intros eff [= <-].
  - done.
  - destruct (effect h) as [eff|] eqn:Heff; [|by rewrite Heff].
    specialize (Hunbatched eff eq_refl).
    destruct (watching eff);
      [|split; [done|]; rewrite Heff; by intros ? [= <-]].
    unfold watchBody. rewrite Hunbatched. unfold watchUnbatched.
    destruct (KvWatchEntry.operation e); try destruct (newEntryOf _ e);
      simpl; rewrite ?Heff.
    all: split; [done|]; intros eff' [= <-]; exact Hunbatched.
  - destruct (effect h) as [eff|] eqn:Heff; [|by rewrite Heff].
    rewrite (Hunbatched eff eq_refl). split; [exact Hpending|].
    rewrite Heff. intros eff' [= <-]. by apply Hunbatched.
Qed.

(** X11.  Only a DEL or a PURGE of a key removes that key from the entries:
    PUTs, ticks of the timer, cleanups and reruns of the effect keep every
    key that is shown, so the table is not reset when the effect reruns. *)
Theorem key_stays_until_deleted h (evs : list (Event V)) (k : string) :
  k ∈ (NatsEntry.key <$> entries h) →
  Forall (λ ev, ∀ e, ev = Watch e →
            KvWatchEntry.operation e = PUT ∨ KvWatchEntry.key e ≠ k) evs →
  k ∈ (NatsEntry.key <$> entries (run h evs)).
Proof.
  intros Hk Hevs. revert h Hk.
  induction Hevs as [|ev evs Hev _ IH]; intros h Hk; [done|].
  simpl. apply IH.
  assert (k ∈ (NatsEntry.key <$> entries (flushUpdates h))) as Hflush.
  { destruct (flushUpdates_applyEach h) as (-> & _). apply applyEach_keys. by left. }
  assert (∀ k', k' ≠ k →
            k ∈ (NatsEntry.key <$> filter (λ item, otherKey k' item) (entries h)))
    as Hfilter.
  { intros k' Hk'. apply list_elem_of_fmap in Hk as (x & -> & Hx).
    apply list_elem_of_fmap. exists x. split; [done|].
    apply list_elem_of_filter. split; [|done].
    unfold otherKey. destruct (String.eqb_spec (NatsEntry.key x) k'); [congruence|done]. }
  destruct ev as [o| |e|]; cbn [step].
  - by destruct (batched o).
  - done.
  - destruct (effect h) as [eff|]; [|done].
    destruct (watching eff); [|done].
    unfold watchBody, watchBatched, watchUnbatched.
    destruct (Hev e eq_refl) as [Hput|Hother].
    + destruct (batched (options eff)); rewrite Hput;
        destruct (newEntryOf _ e); simpl; try done.
      apply stableUpsert_key_iff. by left.
    + destruct (batched (options eff)), (KvWatchEntry.operation e);
        try destruct (newEntryOf _ e); simpl; try done; try by apply Hfilter.
      apply stableUpsert_key_iff. by left.
  - destruct (effect h) as [eff|]; [|done].
    by destruct (batched (options eff)).
Qed.

(** X12.  With batching on, a deleted key is gone for good: the DEL or
    PURGE takes it out of the entries and out of the buffer, so no later
    tick of the timer brings it back. *)
Theorem deleted_key_stays_deleted h eff e (n : nat) :
  effect h = Some eff → watching eff = true → batched (options eff) = true →
  KvWatchEntry.operation e = DEL ∨ KvWatchEntry.operation e = PURGE →
  KvWatchEntry.key e
    ∉ (NatsEntry.key <$> entries (run (step h (Watch e)) (replicate n IntervalTick))).
Proof.
  intros Heff Hwatching Hbatched Hop.
  set (k := KvWatchEntry.key e).
  assert (∀ arr, k ∉ (NatsEntry.key <$> filter (λ item, otherKey k item) arr)) as Hfilter.
  { intros arr (x & Hkey & [Hx _]%list_elem_of_filter)%list_elem_of_fmap.
    unfold otherKey in Hx. rewrite <- Hkey, String.eqb_refl in Hx. done. }
  assert (∀ h', effect h' = Some eff →
            (k ∉ (NatsEntry.key <$> entries h')) →
            (k ∉ (NatsEntry.key <$> pendingUpdates h')) →
            k ∉ (NatsEntry.key <$> entries (run h' (replicate n IntervalTick)))) as Hticks.
  { induction n as [|n IH]; intros h' Heff' Hentries Hpending; [done|].
    simpl. rewrite Heff', Hbatched.
    destruct (flushUpdates_applyEach h') as (Hflushed & Hempty & Hsame).
    apply IH.
    - by rewrite Hsame.
    - rewrite Hflushed, applyEach_keys. tauto.
    - rewrite Hempty. apply not_elem_of_nil. }
  assert (step h (Watch e)
          = setEntries (filter (λ item, otherKey k item))
              (setPending (filter (λ item, otherKey k item) (pendingUpdates h)) h)) as ->.
  { simpl. rewrite Heff, Hwatching. unfold watchBody. rewrite Hbatched.
    unfold watchBatched. by destruct Hop as [-> | ->]. }
  apply Hticks; [done|apply Hfilter..].
Qed.

End TableFacts.

(** ** Counting in lists *)
Section CountingFacts.
Context {A : Type} (P : A → Prop) `{∀ x, Decision (P x)}.

Lemma length_filter_insert (l : list A) (i : nat) (x y : A) :
  l !! i = Some x →
  (length (filter P (<[i := y]> l)) + (if decide (P x) then 1 else 0)
   = length (filter P l) + (if decide (P y) then 1 else 0))%nat.
Proof.
  intros Hx.
  rewrite insert_take_drop by (by eapply lookup_lt_Some).
  rewrite <- (take_drop_middle l i x Hx) at 3.
  rewrite !filter_app, !filter_cons, !length_app.
  destruct (decide (P x)), (decide (P y)); simpl; lia.
Qed.

Lemma length_filter_alter (f : A → A) (l : list A) (i : nat) :
  (∀ x, P (f x) ↔ P x) →
  length (filter P (alter f i l)) = length (filter P l).
Proof.
  intros Hf. revert i. induction l as [|x l IH]; intros [|i]; simpl; try done.
  - rewrite !filter_cons. pose proof (Hf x).
    destruct (decide (P (f x))), (decide (P x)); simpl; first [done | tauto].
  - rewrite !filter_cons. specialize (IH i).
    destruct (decide (P x)); simpl; by rewrite <- IH.
Qed.

End CountingFacts.

(** ** More about the read loop of [useNatsStream] *)
Section LoopFacts.
Import Js useNatsStream.
Context {V Connection : Type} `{DateFormat}.
Implicit Types (h : Hook V Connection) (o : NatsStreamOptions V) (m : JsMsg)
  (eff : Effect V) (c : option Connection).

Lemma stream_run_snoc h (evs : list (Event V Connection)) ev :
  run h (evs ++ [ev]) = step (run h evs) ev.
Proof. unfold run. by rewrite foldl_snoc. Qed.

Lemma runCleanup_quiet h : wellFormed h → quiet (runCleanup h).
Proof.
  intros Hwf. destruct (runCleanup_stale h Hwf) as (Hstale & _).
  unfold quiet. eapply Forall_impl; [done|]. by left.
Qed.

Lemma deliver_quiet_setData (i : nat) m h :
  quiet h →
  filter (λ a, isSetData a) (log (deliver i m h)) = filter (λ a, isSetData a) (log h).
Proof.
  intros Hquiet. unfold deliver.
  destruct (effects h !! i) as [eff|] eqn:Heff; [|done].
  destruct (consuming eff) eqn:Hconsuming; [|done].
  assert (isCurrent eff = false) as ->.
  { unfold quiet in Hquiet. rewrite Forall_lookup in Hquiet.
    destruct (Hquiet i eff Heff); congruence. }
  destruct (reduceWith _ _ m); simpl; rewrite ?filter_app; simpl;
    by rewrite ?app_nil_r.
Qed.

Lemma quiet_deliveries_setData (ds : list (nat * JsMsg)) h :
  quiet h →
  filter (λ a, isSetData a) (log (run h (deliveries ds)))
    = filter (λ a, isSetData a) (log h).
Proof.
  revert h. induction ds as [|[i m] ds IH]; intros h Hquiet; [done|].
  simpl. rewrite IH by (by apply deliver_quiet).
  by apply deliver_quiet_setData.
Qed.

(** X13.  After the component has unmounted nothing is published any more:
    whatever the consumers of earlier runs still deliver, the data stays
    what it was at the unmount and [setData] is not called again. *)
Theorem unmount_freezes_data (evs : list (Event V Connection)) (ds : list (nat * JsMsg)) :
  data (run (step (run initial evs) Unmount) (deliveries ds)) = data (run initial evs) ∧
  filter (λ a, isSetData a) (log (run (step (run initial evs) Unmount) (deliveries ds)))
    = filter (λ a, isSetData a) (log (run initial evs)).
Proof.
  pose proof (run_wellFormed evs _ initial_wellFormed) as Hwf.
  pose proof (runCleanup_quiet _ Hwf) as Hquiet.
  destruct (runCleanup_stale _ Hwf) as (_ & _ & Hdata & Hlog).
  cbn [step]. split.
  - by rewrite quiet_deliveries.
  - by rewrite quiet_deliveries_setData, Hlog.
Qed.

(** *** Consumers are deleted once *)

Lemma runCleanup_balanced h : balanced h → balanced (runCleanup h).
Proof.
  unfold balanced, consumingRuns, runCleanup.
  destruct (cleanup h) as [i|]; [|done]. simpl.
  by rewrite length_filter_alter.
Qed.

Lemma runEffect_balanced c o h : balanced h → balanced (runEffect c o h).
Proof.
  unfold balanced, consumingRuns. intros (Hget & Hconsume & Hone).
  rewrite runEffect_guards. unfold setupNats.
  assert (∀ l : list (Action V Connection),
            Forall (λ a, ∀ n, a = Consume n → n = 1) l →
            Forall (λ a, ∀ n, a = Consume n → n = 1) (log h ++ l)) as Hmore
    by (intros l Hl; by apply Forall_app).
  destruct c as [c'|]; [destruct (guardsPass _ o); [destruct (consumerOptions o)|]|];
    simpl; rewrite ?filter_app, ?length_app; simpl;
    (split_and!; [lia|lia|]); rewrite <- ?app_assoc; apply Hmore;
    repeat constructor; by intros ? [=].
Qed.

Lemma deliver_balanced (i : nat) m h : balanced h → balanced (deliver i m h).
Proof.
  unfold balanced, consumingRuns. intros (Hget & Hconsume & Hone). unfold deliver.
  destruct (effects h !! i) as [eff|] eqn:Heff; [|done].
  destruct (consuming eff) eqn:Hconsuming; [|done].
  assert (∀ l : list (Action V Connection),
            Forall (λ a, ∀ n, a = Consume n → n = 1) l →
            Forall (λ a, ∀ n, a = Consume n → n = 1) (log h ++ l)) as Hmore
    by (intros l Hl; by apply Forall_app).
  assert (∀ eff',
            (length (filter (λ eff, consuming eff = true) (<[i := eff']> (effects h)))
             + 1
             = length (filter (λ eff, consuming eff = true) (effects h))
               + (if consuming eff' then 1 else 0))%nat) as Hinsert.
  { intros eff'.
    pose proof (length_filter_insert (λ eff, consuming eff = true)
                  (effects h) i eff eff' Heff) as Hlen.
    rewrite decide_True in Hlen by done.
    destruct (consuming eff'); [by rewrite decide_True in Hlen|].
    by rewrite decide_False in Hlen. }
  destruct (reduceWith _ _ m); [destruct (isCurrent eff)|];
    simpl; rewrite ?filter_app, ?length_app; simpl;
    (split_and!; [|lia|]);
    try (rewrite <- ?app_assoc; apply Hmore; repeat constructor; by intros ? [=]).
  - specialize (Hinsert {| props := props eff; isCurrent := true;
                           effectData := l; consuming := true |}).
    simpl in Hinsert. lia.
  - specialize (Hinsert {| props := props eff; isCurrent := false;
                           effectData := l; consuming := false |}).
    simpl in Hinsert. lia.
  - specialize (Hinsert {| props := props eff; isCurrent := isCurrent eff;
                           effectData := effectData eff; consuming := false |}).
    simpl in Hinsert. lia.
Qed.

(** X14.  Consumers are deleted once and are not leaked by a loop that
    ends: at any time the consumers got from [js.consumers.get] are those
    deleted by [c.delete()] and those whose loop is still reading, each
    counted once; every consumer got is consumed from once, with
    [max_messages: 1]. *)
Theorem consumers_deleted_once (evs : list (Event V Connection)) :
  length (filter (λ a, isConsumersGet a) (log (run initial evs)))
    = (length (filter (λ a, isConsumerDelete a) (log (run initial evs)))
       + consumingRuns (run initial evs))%nat ∧
  length (filter (λ a, isConsume a) (log (run initial evs)))
    = length (filter (λ a, isConsumersGet a) (log (run initial evs))) ∧
  Forall (λ a, ∀ n, a = Consume n → n = 1) (log (run initial evs)).
Proof.
  change (balanced (run (initial (V := V) (Connection := Connection)) evs)).
  induction evs as [|ev evs IH] using rev_ind.
  - unfold balanced, consumingRuns. simpl. split_and!; [done..|constructor].
  - rewrite stream_run_snoc. destruct ev as [c o| |i m]; cbn [step].
    + by apply runEffect_balanced, runCleanup_balanced.
    + by apply runCleanup_balanced.
    + by apply deliver_balanced.
Qed.

(** X15.  A start time that is an invalid date passes the guards, and
    [toISOString] throws on it inside [setupNats]: the connection is
    wrapped, no consumer is got, and the hook returns the empty array
    whatever happens next. *)
Theorem invalid_start_time_consumes_nothing (evs : list (Event V Connection))
    (conn : Connection) o (s : string) (ds : list (nat * JsMsg)) :
  opt_start_time o = Some InvalidDate → stream o = Some s → s ≠ ""%string →
  log (step (run initial evs) (Render (Some conn) o))
    = log (run initial evs) ++ [SetData []; Jetstream conn] ∧
  data (run (step (run initial evs) (Render (Some conn) o)) (deliveries ds)) = [].
Proof.
  intros Hdate Hstream Hs. split.
  - cbn [step]. rewrite runEffect_log, runCleanup_log.
    unfold setupCalls, guardsPass, consumerOptions, toISOString, truthyString.
    rewrite Hdate, Hstream. simpl. by destruct (String.eqb_spec s "").
  - rewrite data_after_render.
    unfold startsConsuming, consumerOptions, toISOString. rewrite Hdate. simpl.
    by rewrite andb_false_r.
Qed.

(** *** The reducers of the tests and of the README *)

Lemma data_after_deliveries (evs : list (Event V Connection)) c o
    (ms : Z) (s : string) (ds : list (nat * JsMsg)) (records r : list (NatsMessage V)) :
  is_Some c → opt_start_time o = Some (TimeValue ms) →
  stream o = Some s → s ≠ ""%string →
  recordsOf o (deliveredTo (length (effects (run initial evs))) ds) = Some records →
  foldReduce o [] records = Some r →
  data (run (step (run initial evs) (Render c o)) (deliveries ds)) = r.
Proof.
  intros Hc Hdate Hstream Hs Hrecords Hfold.
  assert (startsConsuming c o = true) as Hstart
    by (apply startsConsuming_spec; eauto 10).
  rewrite data_after_render, Hstart.
  apply foldMessages_published.
  by rewrite (foldReduce_foldMessages _ _ records).
Qed.

Lemma foldReduce_append o (acc records : list (NatsMessage V)) :
  reducer o = Fixtures.appendReducer →
  foldReduce o acc records = Some (acc ++ records).
Proof.
  intros Hreducer. revert acc.
  induction records as [|d records IH]; intros acc; simpl.
  - by rewrite app_nil_r.
  - rewrite Hreducer. unfold Fixtures.appendReducer. simpl.
    by rewrite IH, <- app_assoc.
Qed.

(** X16.  With the reducer of the tests, [(arr, elem) => [...arr, elem]],
    the hook returns the records of all the messages delivered to the
    current run, in the order of delivery. *)
Theorem append_reducer_collects_all (evs : list (Event V Connection)) c o
    (ms : Z) (s : string) (ds : list (nat * JsMsg)) (records : list (NatsMessage V)) :
  reducer o = Fixtures.appendReducer →
  is_Some c → opt_start_time o = Some (TimeValue ms) →
  stream o = Some s → s ≠ ""%string →
  recordsOf o (deliveredTo (length (effects (run initial evs))) ds) = Some records →
  data (run (step (run initial evs) (Render c o)) (deliveries ds)) = records.
Proof.
  intros Hreducer Hc Hdate Hstream Hs Hrecords.
  apply (data_after_deliveries evs c o ms s ds records); [done..|].
  by rewrite foldReduce_append.
Qed.

Lemma slice_negative {A} (n : Z) (l : list A) :
  0 < n → slice (- n) l = drop (length l - Z.to_nat n) l.
Proof.
  intros Hn. unfold slice.
  destruct (- n <? 0) eqn:Hneg; [|apply Z.ltb_ge in Hneg; lia].
  f_equal. lia.
Qed.

Lemma slice_zero {A} (l : list A) : slice 0 l = l.
Proof. unfold slice. simpl. by replace (Z.min 0 (Z.of_nat (length l))) with 0 by lia. Qed.

Lemma slice_window {A} (n : Z) (l : list A) (x : A) :
  0 < n → slice (- n) (slice (- n) l ++ [x]) = slice (- n) (l ++ [x]).
Proof.
  intros Hn. rewrite !slice_negative by done.
  rewrite !length_app, length_drop. simpl.
  destruct (decide (length l < Z.to_nat n)%nat) as [Hshort|Hlong].
  - replace (length l - Z.to_nat n)%nat with 0%nat by lia. simpl.
    by replace (length l - 0 + 1 - Z.to_nat n)%nat
      with (length l + 1 - Z.to_nat n)%nat by lia.
  - rewrite !drop_app_le by (rewrite ?length_drop; lia).
    rewrite drop_drop. do 2 f_equal. lia.
Qed.

Lemma foldReduce_window o (n : Z) (l records : list (NatsMessage V)) :
  0 < n → reducer o = Fixtures.slidingWindowReducer n →
  foldReduce o (slice (- n) l) records = Some (slice (- n) (l ++ records)).
Proof.
  intros Hn Hreducer. revert l.
  induction records as [|d records IH]; intros l; simpl.
  - by rewrite app_nil_r.
  - rewrite Hreducer. unfold Fixtures.slidingWindowReducer. simpl.
    by rewrite slice_window, IH, <- app_assoc.
Qed.

Lemma foldReduce_window_zero o (acc records : list (NatsMessage V)) :
  reducer o = Fixtures.slidingWindowReducer 0 →
  foldReduce o acc records = Some (acc ++ records).
Proof.
  intros Hreducer. revert acc.
  induction records as [|d records IH]; intros acc; simpl.
  - by rewrite app_nil_r.
  - rewrite Hreducer. unfold Fixtures.slidingWindowReducer. simpl.
    by rewrite slice_zero, IH, <- app_assoc.
Qed.

(** X17.  With the sliding-window reducer,
    [(arr, msg) => [...arr, msg].slice(-windowSize)], and a positive window
    size, the hook returns the last [windowSize] records of the messages
    delivered to the current run, and all of them while there are fewer.
    With a window size of 0 it returns all the records: [slice(-0)] is
    [slice(0)]. *)
Theorem sliding_window_keeps_last (evs : list (Event V Connection)) c o
    (windowSize ms : Z) (s : string) (ds : list (nat * JsMsg))
    (records : list (NatsMessage V)) :
  0 ≤ windowSize →
  reducer o = Fixtures.slidingWindowReducer windowSize →
  is_Some c → opt_start_time o = Some (TimeValue ms) →
  stream o = Some s → s ≠ ""%string →
  recordsOf o (deliveredTo (length (effects (run initial evs))) ds) = Some records →
  data (run (step (run initial evs) (Render c o)) (deliveries ds))
    = (if windowSize =? 0 then records
       else drop (length records - Z.to_nat windowSize) records).
Proof.
  intros Hsize Hreducer Hc Hdate Hstream Hs Hrecords.
  apply (data_after_deliveries evs c o ms s ds records); [done..|].
  destruct (Z.eqb_spec windowSize 0) as [->|Hpositive].
  - by rewrite foldReduce_window_zero.
  - pose proof (foldReduce_window o windowSize [] records) as Hwindow.
    rewrite !slice_negative in Hwindow by lia.
    rewrite drop_nil in Hwindow. apply Hwindow; [lia|done].
Qed.

End LoopFacts.

(** ** The provider's life cycle *)
Section LifeCycleFacts.
Import NatsProvider.
Context {Connection : Type}.
Implicit Types (p : Provider Connection) (ev : Event Connection) (r : Run Connection)
  (c : Connection) (url : string) (options : option ConnectionOptions).

Lemma provider_run_snoc p (evs : list (Event Connection)) ev :
  run p (evs ++ [ev]) = step (run p evs) ev.
Proof. unfold run. by rewrite foldl_snoc. Qed.

Lemma provider_initial_consistent : consistent (initial (Connection := Connection)).
Proof. by split_and!. Qed.

(** After the cleanup nothing is held and no run is active. *)
Lemma provider_cleanup_dormant p : consistent p → dormant (runCleanup p).
Proof.
  intros (Hactive & Hstate & Hheld & Hidle). unfold dormant, runCleanup.
  destruct (cleanup p) as [i|] eqn:Hcleanup.
  - assert (Forall (λ r, isActive r = false) (alter deactivate i (runs p))) as Hruns.
    { apply Forall_lookup. intros j r. destruct (decide (i = j)) as [->|Hij].
      - rewrite list_lookup_alter_eq. destruct (runs p !! j); simpl; [|done].
        by intros [= <-].
      - rewrite list_lookup_alter_ne by done. intros Hr.
        destruct (isActive r) eqn:Hr'; [|done].
        specialize (Hactive j r Hr Hr'). congruence. }
    destruct (connRef (current p)) as [c|] eqn:Href; simpl; [done|].
    by rewrite Hstate.
  - split_and!; [|done|].
    + specialize (Hidle eq_refl). destruct (current p) as [st ref flag]. simpl in *.
      destruct ref as [c|]; [|by subst].
      destruct (Hheld c eq_refl) as (j & _ & [=] & _).
    + apply Forall_lookup. intros j r Hr.
      destruct (isActive r) eqn:Hr'; [|done].
      specialize (Hactive j r Hr Hr'). congruence.
Qed.

Lemma dormant_consistent p : dormant p → consistent p.
Proof.
  intros (Hcurrent & Hcleanup & Hruns). rewrite Forall_lookup in Hruns.
  split_and!; rewrite ?Hcurrent; simpl; try done.
  intros j r Hr Hactive. specialize (Hruns j r Hr). congruence.
Qed.

(** The effect body on a dormant provider: the guard lets it through. *)
Lemma provider_effect_dormant url options p :
  dormant p →
  runEffect url options p
  = {| current := {| connection := None; connRef := None; isConnectingRef := true |};
       runs := runs p ++ [{| isActive := true; connecting := true; listening := None |}];
       cleanup := Some (length (runs p));
       log := log p ++ [Wsconnect (wsconnectArgument url options)] |}.
Proof.
  intros (Hcurrent & _). unfold runEffect, establishConnection. by rewrite Hcurrent.
Qed.

Lemma provider_effect_consistent url options p :
  dormant p → consistent (runEffect url options p).
Proof.
  intros Hdormant. rewrite provider_effect_dormant by done.
  destruct Hdormant as (_ & _ & Hruns). rewrite Forall_lookup in Hruns.
  split_and!; simpl; try done.
  intros j r [[_ Hr]|[-> _]]%lookup_snoc_Some Hactive; [|done].
  specialize (Hruns j r Hr). congruence.
Qed.

Lemma connected_consistent (i : nat) c p : consistent p → consistent (connected i c p).
Proof.
  intros (Hactive & Hstate & Hheld & Hidle). unfold connected.
  destruct (runs p !! i) as [r|] eqn:Hr; [|done].
  assert (i < length (runs p))%nat as Hi by (by eapply lookup_lt_Some).
  destruct (connecting r) eqn:Hconnecting; [|done].
  destruct (isActive r) eqn:Hr'.
  - pose proof (Hactive i r Hr Hr') as Hcleanup.
    split_and!; simpl; try done.
    + intros j r'. destruct (decide (i = j)) as [->|Hij].
      * by rewrite list_lookup_insert_eq.
      * rewrite list_lookup_insert_ne by done. apply Hactive.
    + intros c' [= <-]. exists i. eexists. split; [done|].
      by rewrite list_lookup_insert_eq.
  - split_and!; simpl; try done.
    + intros j r'. destruct (decide (i = j)) as [->|Hij].
      * rewrite list_lookup_insert_eq by done. by intros [= <-].
      * rewrite list_lookup_insert_ne by done. apply Hactive.
    + intros c' Hc'. destruct (Hheld c' Hc') as (j & r' & Hj & Hr'' & Hrest).
      exists j, r'. split; [done|]. split; [|done].
      rewrite list_lookup_insert_ne; [done|]. intros ->.
      destruct Hrest as [Hrest _]. congruence.
Qed.

Lemma failed_consistent (i : nat) p : consistent p → consistent (failed i p).
Proof.
  intros (Hactive & Hstate & Hheld & Hidle). unfold failed.
  destruct (runs p !! i) as [r|] eqn:Hr; [|done].
  assert (i < length (runs p))%nat as Hi by (by eapply lookup_lt_Some).
  destruct (connecting r) eqn:Hconnecting; [|done].
  assert (∀ (j : nat) r',
            <[i := {| isActive := isActive r; connecting := false;
                      listening := None |}]> (runs p) !! j = Some r' →
            isActive r' = true → cleanup p = Some j) as Hactive'.
  { intros j r'. destruct (decide (i = j)) as [->|Hij].
    - rewrite list_lookup_insert_eq by done. intros [= <-]. simpl.
      by apply (Hactive j r).
    - rewrite list_lookup_insert_ne by done. apply Hactive. }
  destruct (isActive r) eqn:Hr'.
  - pose proof (Hactive i r Hr Hr') as Hcleanup.
    destruct (connRef (current p)) as [c|] eqn:Href.
    { destruct (Hheld c eq_refl) as (j & r' & Hj & Hr'' & _ & Hdone & _). congruence. }
    by split_and!; simpl; rewrite ?Href.
  - split_and!; simpl; try done.
    intros c' Hc'. destruct (Hheld c' Hc') as (j & r' & Hj & Hr'' & Hrest).
    exists j, r'. split; [done|]. split; [|done].
    rewrite list_lookup_insert_ne; [done|]. intros ->.
    destruct Hrest as [Hrest _]. congruence.
Qed.

Lemma closed_consistent (i : nat) p : consistent p → consistent (closed i p).
Proof.
  intros (Hactive & Hstate & Hheld & Hidle). unfold closed.
  destruct (runs p !! i) as [r|] eqn:Hr; [|done].
  assert (i < length (runs p))%nat as Hi by (by eapply lookup_lt_Some).
  destruct (listening r) as [c|] eqn:Hlistening; [|done].
  assert (∀ (j : nat) r',
            <[i := {| isActive := isActive r; connecting := connecting r;
                      listening := None |}]> (runs p) !! j = Some r' →
            isActive r' = true → cleanup p = Some j) as Hactive'.
  { intros j r'. destruct (decide (i = j)) as [->|Hij].
    - rewrite list_lookup_insert_eq by done. intros [= <-]. simpl.
      by apply (Hactive j r).
    - rewrite list_lookup_insert_ne by done. apply Hactive. }
  destruct (isActive r) eqn:Hr'.
  - pose proof (Hactive i r Hr Hr') as Hcleanup.
    by split_and!; simpl.
  - split_and!; simpl; try done.
    intros c' Hc'. destruct (Hheld c' Hc') as (j & r' & Hj & Hr'' & Hrest).
    exists j, r'. split; [done|]. split; [|done].
    rewrite list_lookup_insert_ne; [done|]. intros ->.
    destruct Hrest as [Hrest _]. congruence.
Qed.

Lemma provider_step_consistent p ev : consistent p → consistent (step p ev).
Proof.
  intros Hp. destruct ev as [url options| |i c|i|i]; cbn [step].
  - by apply provider_effect_consistent, provider_cleanup_dormant.
  - by apply dormant_consistent, provider_cleanup_dormant.
  - by apply connected_consistent.
  - by apply failed_consistent.
  - by apply closed_consistent.
Qed.

Lemma provider_run_consistent (evs : list (Event Connection)) p :
  consistent p → consistent (run p evs).
Proof.
  revert p. induction evs as [|ev evs IH]; intros p Hp; [done|].
  simpl. by apply IH, provider_step_consistent.
Qed.

Lemma provider_cleanup_log p :
  consistent p →
  log (runCleanup p)
  = log p ++ match connRef (current p) with Some c => [Close c] | None => [] end.
Proof.
  intros (_ & _ & Hheld & _). unfold runCleanup.
  destruct (cleanup p) as [i|] eqn:Hcleanup.
  - destruct (connRef (current p)); simpl; by rewrite ?app_nil_r.
  - destruct (connRef (current p)) as [c|]; [|by rewrite app_nil_r].
    destruct (Hheld c eq_refl) as (j & _ & [=] & _).
Qed.

Lemma provider_cleanup_runs p : length (runs (runCleanup p)) = length (runs p).
Proof.
  unfold runCleanup. destruct (cleanup p); [|done].
  destruct (connRef (current p)); simpl; by rewrite length_alter.
Qed.

Lemma step_wsconnect p ev :
  consistent p →
  length (filter (λ a, isWsconnect a) (log (step p ev)))
  = (length (filter (λ a, isWsconnect a) (log p)) + (if isCommit ev then 1 else 0))%nat.
Proof.
  intros Hp. destruct ev as [url options| |i c|i|i]; cbn [step isCommit].
  - rewrite provider_effect_dormant by (by apply provider_cleanup_dormant). simpl.
    rewrite provider_cleanup_log by done.
    rewrite !filter_app, !length_app.
    destruct (connRef (current p)); simpl; lia.
  - rewrite provider_cleanup_log by done. rewrite filter_app, length_app.
    destruct (connRef (current p)); simpl; lia.
  - unfold connected. destruct (runs p !! i) as [r|]; [|lia].
    destruct (connecting r), (isActive r); simpl;
      rewrite ?filter_app, ?length_app; simpl; lia.
  - unfold failed. destruct (runs p !! i) as [r|]; [|lia].
    destruct (connecting r); simpl; lia.
  - unfold closed. destruct (runs p !! i) as [r|]; [|lia].
    destruct (listening r); simpl; lia.
Qed.

(** X18.  The guard of the effect never stops a run: whenever React runs the
    effect, the cleanup before it (or the mount) has left the refs idle, so
    [wsconnect] is called, after the connection held, if any, was closed.
    The provider dials once per run of the effect and at no other time,
    neither after a failure nor when the connection closes. *)
Theorem every_commit_dials (evs : list (Event Connection)) url options :
  log (step (run initial evs) (Commit url options))
    = log (run initial evs)
        ++ match connRef (current (run initial evs)) with
           | Some c => [Close c]
           | None => []
           end
        ++ [Wsconnect (wsconnectArgument url options)] ∧
  current (step (run initial evs) (Commit url options))
    = {| connection := None; connRef := None; isConnectingRef := true |} ∧
  cleanup (step (run initial evs) (Commit url options))
    = Some (length (runs (run initial evs))) ∧
  length (filter (λ a, isWsconnect a) (log (run initial evs)))
    = length (filter (λ ev, isCommit ev) evs).
Proof.
  pose proof (provider_run_consistent evs _ provider_initial_consistent) as Hp.
  split_and!.
  - cbn [step]. rewrite provider_effect_dormant by (by apply provider_cleanup_dormant). simpl.
    by rewrite provider_cleanup_log, <- app_assoc.
  - cbn [step]. by rewrite provider_effect_dormant by (by apply provider_cleanup_dormant).
  - cbn [step]. rewrite provider_effect_dormant by (by apply provider_cleanup_dormant). simpl.
    by rewrite provider_cleanup_runs.
  - clear Hp. induction evs as [|ev evs IH] using rev_ind; [done|].
    rewrite provider_run_snoc, step_wsconnect
      by (by apply provider_run_consistent, provider_initial_consistent).
    rewrite filter_app, length_app, IH, filter_cons, filter_nil.
    destruct (isCommit ev); simpl; lia.
Qed.

(** *** The connection that is published *)

Lemma step_listening p ev (j : nat) r c :
  runs (step p ev) !! j = Some r → listening r = Some c →
  ev = Connected j c ∨ ∃ r', runs p !! j = Some r' ∧ listening r' = Some c.
Proof.
  assert (∀ r', runs p !! j = Some r' → listening r' = Some c →
            ev = Connected j c ∨ ∃ r', runs p !! j = Some r' ∧ listening r' = Some c)
    as Hold by (intros r' ??; right; by exists r').
  assert (∀ i f, alter f i (runs p) !! j = Some r →
            (∀ r', listening (f r') = listening r') → listening r = Some c →
            ev = Connected j c ∨ ∃ r', runs p !! j = Some r' ∧ listening r' = Some c)
    as Halter.
  { intros i f Hr Hf Hc. destruct (decide (i = j)) as [->|Hij].
    - rewrite list_lookup_alter_eq in Hr.
      destruct (runs p !! j) as [r'|] eqn:Hr'; simpl in Hr; [|done].
      injection Hr as <-. apply (Hold r'); [done|]. by rewrite <- Hf.
    - rewrite list_lookup_alter_ne in Hr by done. by eapply Hold. }
  assert (runs (runCleanup p) !! j = Some r → listening r = Some c →
          ev = Connected j c ∨ ∃ r', runs p !! j = Some r' ∧ listening r' = Some c)
    as Hcleaned.
  { unfold runCleanup. destruct (cleanup p) as [i|]; [|apply Hold].
    destruct (connRef (current p)); simpl; intros Hr; by eapply Halter. }
  destruct ev as [url options| |i c'|i|i]; cbn [step].
  - unfold runEffect. destruct (establishConnection _ _ _) as [s [argument|]]; simpl.
    + intros [[_ Hr]|[_ <-]]%lookup_snoc_Some; [|done]. by apply Hcleaned.
    + apply Hcleaned.
  - apply Hcleaned.
  - unfold connected. destruct (runs p !! i) as [r'|] eqn:Hr'; [|apply Hold].
    assert (i < length (runs p))%nat as Hi by (by eapply lookup_lt_Some).
    destruct (connecting r'); [|apply Hold].
    destruct (isActive r'); simpl; (destruct (decide (i = j)) as [->|Hij];
      [rewrite list_lookup_insert_eq by done
      |rewrite list_lookup_insert_ne by done; apply Hold]).
    + intros [= <-]. simpl. intros [= <-]. by left.
    + by intros [= <-].
  - unfold failed. destruct (runs p !! i) as [r'|] eqn:Hr'; [|apply Hold].
    assert (i < length (runs p))%nat as Hi by (by eapply lookup_lt_Some).
    destruct (connecting r'); [|apply Hold]. simpl.
    destruct (decide (i = j)) as [->|Hij];
      [rewrite list_lookup_insert_eq by done
      |rewrite list_lookup_insert_ne by done; apply Hold].
    by intros [= <-].
  - unfold closed. destruct (runs p !! i) as [r'|] eqn:Hr'; [|apply Hold].
    assert (i < length (runs p))%nat as Hi by (by eapply lookup_lt_Some).
    destruct (listening r'); [|apply Hold]. simpl.
    destruct (decide (i = j)) as [->|Hij];
      [rewrite list_lookup_insert_eq by done
      |rewrite list_lookup_insert_ne by done; apply Hold].
    by intros [= <-].
Qed.

Lemma run_listening (evs : list (Event Connection)) (j : nat) r c :
  runs (run initial evs) !! j = Some r → listening r = Some c → Connected j c ∈ evs.
Proof.
  revert r. induction evs as [|ev evs IH] using rev_ind; intros r; [done|].
  rewrite provider_run_snoc. intros Hr Hc.
  destruct (step_listening _ _ _ _ _ Hr Hc) as [->|(r' & Hr' & Hc')].
  - apply elem_of_app. right. by left.
  - apply elem_of_app. left. by eapply IH.
Qed.

(** X19.  The connection the provider publishes is the one it holds in
    [connRef], and it is a connection that [wsconnect] returned to the run
    of the effect whose cleanup React holds: a connection made for a run
    that was cleaned up is never published. *)
Theorem published_connection_is_current (evs : list (Event Connection)) :
  connection (current (run initial evs)) = connRef (current (run initial evs)) ∧
  ∀ c, connection (current (run initial evs)) = Some c →
    ∃ i : nat, cleanup (run initial evs) = Some i ∧ Connected i c ∈ evs.
Proof.
  destruct (provider_run_consistent evs _ provider_initial_consistent) as (_ & Hstate & Hheld & _).
  split; [done|]. intros c Hc. rewrite Hstate in Hc.
  destruct (Hheld c Hc) as (j & r & Hj & Hr & _ & _ & Hlistening).
  exists j. split; [done|]. by eapply run_listening.
Qed.

(** *** Runs that were cleaned up *)

Lemma step_dormant p ev : isCommit ev = false → dormant p → dormant (step p ev).
Proof.
  intros Hev Hp. pose proof Hp as (Hcurrent & Hcleanup & Hruns).
  rewrite Forall_lookup in Hruns.
  destruct ev as [url options| |i c|i|i]; cbn [step]; [done|..].
  - by apply provider_cleanup_dormant, dormant_consistent.
  - unfold connected. destruct (runs p !! i) as [r|] eqn:Hr; [|done].
    destruct (connecting r); [|done]. rewrite (Hruns i r Hr).
    split_and!; simpl; [done..|]. apply Forall_insert; [|done]. by apply Forall_lookup.
  - unfold failed. destruct (runs p !! i) as [r|] eqn:Hr; [|done].
    destruct (connecting r); [|done]. rewrite (Hruns i r Hr).
    split_and!; simpl; [done..|]. apply Forall_insert; [|done]. by apply Forall_lookup.
  - unfold closed. destruct (runs p !! i) as [r|] eqn:Hr; [|done].
    destruct (listening r); [|done]. rewrite (Hruns i r Hr).
    split_and!; simpl; [done..|]. apply Forall_insert; [|done]. by apply Forall_lookup.
Qed.

(** X20.  After the unmount the provider holds and publishes nothing, and
    stays so: [connection] and [connRef] are null and [isConnectingRef] is
    false whatever the promises of earlier runs still do, and [wsconnect]
    is not called again. *)
Theorem unmounted_provider_stays_idle (evs evs' : list (Event Connection)) :
  Forall (λ ev, isCommit ev = false) evs' →
  current (run (step (run initial evs) Unmount) evs')
    = {| connection := None; connRef := None; isConnectingRef := false |} ∧
  length (filter (λ a, isWsconnect a) (log (run (step (run initial evs) Unmount) evs')))
    = length (filter (λ a, isWsconnect a) (log (run initial evs))).
Proof.
  intros Hevs'.
  pose proof (provider_run_consistent evs _ provider_initial_consistent) as Hp.
  assert (dormant (step (run initial evs) Unmount)) as Hdormant
    by (by apply provider_cleanup_dormant).
  assert (length (filter (λ a, isWsconnect a) (log (step (run initial evs) Unmount)))
          = length (filter (λ a, isWsconnect a) (log (run initial evs)))) as <-.
  { rewrite step_wsconnect by done. simpl. lia. }
  revert Hdormant. generalize (step (run initial evs) Unmount).
  induction Hevs' as [|ev evs' Hev _ IH]; intros p Hdormant.
  - split; [apply Hdormant|done].
  - simpl. destruct (IH (step p ev)) as [-> ->]; [by apply step_dormant|].
    split; [done|]. rewrite step_wsconnect by (by apply dormant_consistent).
    rewrite Hev. lia.
Qed.

(** X21.  A connection that arrives for a run that was cleaned up in the
    meantime (the component unmounted, or the effect ran again) is closed
    at once, and the state and the refs are left alone. *)
Theorem superseded_connection_is_closed (evs : list (Event Connection))
    (i : nat) r c :
  runs (run initial evs) !! i = Some r → connecting r = true →
  cleanup (run initial evs) ≠ Some i →
  log (step (run initial evs) (Connected i c)) = log (run initial evs) ++ [Close c] ∧
  current (step (run initial evs) (Connected i c)) = current (run initial evs).
Proof.
  intros Hr Hconnecting Hcleanup.
  destruct (provider_run_consistent evs _ provider_initial_consistent) as (Hactive & _).
  cbn [step]. unfold connected. rewrite Hr, Hconnecting.
  destruct (isActive r) eqn:Hr'; [|done].
  by specialize (Hactive i r Hr Hr').
Qed.

(** X22.  When the connection attempt of the current run fails, or the
    connection it made closes, the provider publishes null and resets both
    refs; it calls neither [wsconnect] nor [close]. *)
Theorem lost_connection_resets (evs : list (Event Connection)) (i : nat) r ev :
  cleanup (run initial evs) = Some i →
  runs (run initial evs) !! i = Some r → isActive r = true →
  (ev = Failed i ∧ connecting r = true) ∨ (ev = Closed i ∧ listening r ≠ None) →
  current (step (run initial evs) ev)
    = {| connection := None; connRef := None; isConnectingRef := false |} ∧
  log (step (run initial evs) ev) = log (run initial evs).
Proof.
  intros Hcleanup Hr Hactive Hev.
  destruct (provider_run_consistent evs _ provider_initial_consistent) as (_ & _ & Hheld & _).
  destruct Hev as [[-> Hconnecting]|[-> Hlistening]]; cbn [step].
  - unfold failed. rewrite Hr, Hconnecting, Hactive. simpl. split; [|done].
    destruct (connRef (current (run initial evs))) as [c|] eqn:Href; [|done].
    destruct (Hheld c eq_refl) as (j & r' & Hj & Hr' & _ & Hdone & _). congruence.
  - unfold closed. rewrite Hr, Hactive.
    by destruct (listening r).
Qed.

End LifeCycleFacts.

(** ** Which renders run the provider's effect *)
Section RenderFacts.
Import NatsProvider.
Implicit Types (props : NatsProviderProps) (previous : Deps) (next : ObjectId).

Lemma sameDeps_refl (deps : Deps) : sameDeps deps deps = true.
Proof. unfold sameDeps. by rewrite String.eqb_refl, Nat.eqb_refl. Qed.

(** X23.  With the parameter default [options = {}], a render without an
    [options] prop makes a new object, so its dependency array differs from
    that of every earlier render and the effect runs again; with an
    [options] prop the effect runs again only when the URL or the identity
    of the object has changed. *)
Theorem default_options_rerun_effect props previous next :
  (depOptions previous < next)%nat →
  effectRuns (Some previous) (renderDefault props next).1.1
  = match NatsProviderProps.options props with
    | None => true
    | Some (id, _) =>
        negb (String.eqb (depUrl previous) (NatsProviderProps.url props)
              && Nat.eqb (depOptions previous) id)
    end.
Proof.
  intros Hallocated. unfold effectRuns, renderDefault, sameDeps.
  destruct (NatsProviderProps.options props) as [[id options]|]; simpl; [done|].
  destruct (Nat.eqb_spec (depOptions previous) next); [lia|].
  by rewrite andb_false_r.
Qed.

(** X24.  With the memoised [connectionOptions] of the later revisions, a
    render with the props of the render before it changes nothing: the memo
    cell, the merged object and the dependency array are the same, and the
    effect does not run again. *)
Theorem memoised_options_are_stable props (memo : Memo) next :
  let rendered := renderMemo props memo next in
  renderMemo props rendered.1.2 rendered.2 = rendered ∧
  effectRuns (Some rendered.1.1.1) (renderMemo props rendered.1.2 rendered.2).1.1.1
    = false.
Proof.
  intros rendered.
  assert (renderMemo props rendered.1.2 rendered.2 = rendered) as Hsame.
  { subst rendered. unfold renderMemo.
    destruct memo as [[previous [id merged]]|]; [case_bool_decide as Hprevious|];
      simpl; rewrite ?bool_decide_true by done; done. }
  split; [done|]. rewrite Hsame. unfold effectRuns. by rewrite sameDeps_refl.
Qed.

End RenderFacts.

(** ** The hooks under the provider *)
Section ContextFacts.
Import NatsProvider useNatsConnection.
Context {Connection : Type}.

Lemma no_connected_no_connection (evs : list (Event Connection)) :
  Forall (λ ev, isConnected ev = false) evs →
  connection (current (run initial evs)) = None.
Proof.
  intros Hevs.
  destruct (connection (current (run initial evs))) as [c|] eqn:Hc; [|done].
  destruct (provider_run_consistent evs _ provider_initial_consistent) as (_ & Hstate & Hheld & _).
  rewrite Hstate in Hc.
  destruct (Hheld c Hc) as (j & r & _ & Hr & _ & _ & Hlistening).
  pose proof (run_listening evs j r c Hr Hlistening) as Hin.
  rewrite Forall_forall in Hevs. by specialize (Hevs _ Hin).
Qed.

(** X25.  [useNatsConnection] returns null outside a provider and under a
    provider for which no [wsconnect] has returned; and [useNatsStream]
    rendered with that value resets its data and does nothing else. *)
Theorem hooks_idle_until_connected {V} `{useNatsStream.DateFormat}
    (evs : list (Event Connection))
    (h : useNatsStream.Hook V Connection) (o : useNatsStream.NatsStreamOptions V) :
  Forall (λ ev, isConnected ev = false) evs →
  useNatsConnection (Some (current (run initial evs))) = None ∧
  useNatsConnection (Connection := Connection) None = None ∧
  useNatsStream.log
    (useNatsStream.step h
       (useNatsStream.Render (useNatsConnection (Some (current (run initial evs)))) o))
  = useNatsStream.log h ++ [useNatsStream.SetData []].
Proof.
  intros Hevs.
  assert (useNatsConnection (Some (current (run initial evs))) = None) as Hnull
    by (by apply no_connected_no_connection).
  split_and!; [done..|]. rewrite Hnull.
  cbn [useNatsStream.step]. by rewrite runEffect_log, runCleanup_log.
Qed.

(** X26.  When the [wsconnect] of a run of the effect returns before
    anything else happens, the provider publishes the connection:
    [useNatsConnection] returns it. *)
Theorem connection_is_published (evs : list (Event Connection)) url options
    (c : Connection) :
  useNatsConnection
    (Some (current
             (run initial
                (evs ++ [Commit url options;
                         Connected (length (runs (run initial evs))) c]))))
  = Some c.
Proof.
  rewrite (cons_middle (Commit url options) evs), (assoc_L (++)), !provider_run_snoc.
  pose proof (provider_run_consistent evs _ provider_initial_consistent) as Hp.
  cbn [step]. rewrite provider_effect_dormant by (by apply provider_cleanup_dormant).
  unfold connected. simpl.
  rewrite <- (provider_cleanup_runs (run initial evs)), list_lookup_middle by done.
  done.
Qed.

End ContextFacts.

(** ** Examples *)
Section UpsertExamples.
Import Js useNatsKvTable Fixtures.
#[local] Existing Instance Fixtures.codeUnitCollation.

(** Key b is inserted in place and then overwritten by a copying upsert. *)
Lemma stableUpsert_overwrite_example :
  stableUpsert (stableUpsert [entry "a" 1; entry "c" 3] (entry "b" 2) true)
    (entry "b" 20) false
  = stableUpsert [entry "a" 1; entry "c" 3] (entry "b" 20) false.
Proof.
  apply (stableUpsert_overwrite [entry "a" 1; entry "c" 3]
           (entry "b" 2) (entry "b" 20) true false).
  reflexivity.
Defined.

(** Key b is inserted between a and c, under the code-unit collation. *)
Lemma stableUpsert_frame_example :
  filter (λ item, otherKey "b" item)
    (stableUpsert [entry "a" 1; entry "c" 3] (entry "b" 2) false)
    = filter (λ item, otherKey "b" item) [entry "a" 1; entry "c" 3] ∧
  entry "b" 2 ∈ stableUpsert [entry "a" 1; entry "c" 3] (entry "b" 2) false.
Proof.
  apply (stableUpsert_frame (H0 := codeUnitCompare_consistent)
           [entry "a" 1; entry "c" 3] (entry "b" 2) false).
  repeat constructor. by vm_compute.
Defined.

(** A batched run that has buffered one PUT. *)
Lemma entries_come_from_puts_example :
  ∃ o e,
    EffectRun o ∈ [EffectRun (kvOptions 50); Watch (put "a" (payload 2))] ∧
    Watch e ∈ [EffectRun (kvOptions 50); Watch (put "a" (payload 2))] ∧
    KvWatchEntry.operation e = PUT ∧ newEntryOf o e = Some (entry "a" 2) ∧
    NatsEntry.key (entry "a" 2) = KvWatchEntry.key e ∧
    NatsEntry.created (entry "a" 2) = KvWatchEntry.created e.
Proof.
  apply (entries_come_from_puts
           [EffectRun (kvOptions 50); Watch (put "a" (payload 2))] (entry "a" 2)).
  right. apply list_elem_of_singleton. reflexivity.
Defined.

(** A PUT of key a over an older a, batched: shown after the tick. *)
Lemma put_is_shown_example :
  let shown :=
    entries
      (step (step (run initial [EffectRun (kvOptions 50); Watch (put "a" []); IntervalTick])
               (Watch (put "a" (payload 2))))
         IntervalTick) in
  entry "a" 2 ∈ shown ∧
  ∀ x, x ∈ shown → NatsEntry.key x = "a"%string → x = entry "a" 2.
Proof.
  apply (put_is_shown
           [EffectRun (kvOptions 50); Watch (put "a" []); IntervalTick]
           {| options := kvOptions 50; watching := true |}
           (put "a" (payload 2)) (entry "a" 2));
    reflexivity.
Defined.

(** The decoder throws on the empty payload of a PUT; the PUT of b and the
    deletion that follow are lost. *)
Lemma decoder_throw_stops_table_example :
  let o := {| decoder := lengthDecoder; enrich := None; refreshInterval := 0 |} in
  let h := run initial [EffectRun o; Watch (put "a" (payload 1))] in
  entries (step h (Watch (put "b" []))) = entries h ∧
  pendingUpdates (step h (Watch (put "b" []))) = pendingUpdates h ∧
  run (step h (Watch (put "b" [])))
    (Watch <$> [put "b" (payload 1); del "a"])
  = step h (Watch (put "b" [])).
Proof.
  apply (decoder_throw_stops_table
           (run initial
              [EffectRun {| decoder := lengthDecoder; enrich := None; refreshInterval := 0 |};
               Watch (put "a" (payload 1))])
           {| options := {| decoder := lengthDecoder; enrich := None; refreshInterval := 0 |};
              watching := true |}
           (put "b" []) [put "b" (payload 1); del "a"]);
    reflexivity.
Defined.

(** An unbatched run. *)
Lemma unbatched_never_buffers_example :
  pendingUpdates
    (run initial [EffectRun (kvOptions 0); Watch (put "a" []); IntervalTick]) = [].
Proof.
  apply (unbatched_never_buffers
           [EffectRun (kvOptions 0); Watch (put "a" []); IntervalTick]).
  repeat constructor; intros o [= <-]; simpl; lia.
Defined.

(** Key a survives the deletion of b, a cleanup and a rerun. *)
Lemma key_stays_until_deleted_example :
  "a"%string
    ∈ (NatsEntry.key
         <$> entries
               (run
                  (run initial [EffectRun (kvOptions 0); Watch (put "a" []);
                                Watch (put "b" [])])
                  [Watch (del "b"); EffectCleanup; EffectRun (kvOptions 50)])).
Proof.
  apply (key_stays_until_deleted
           (run initial [EffectRun (kvOptions 0); Watch (put "a" []);
                         Watch (put "b" [])])
           [Watch (del "b"); EffectCleanup; EffectRun (kvOptions 50)] "a").
  - left.
  - repeat first [apply Forall_nil_2 | apply Forall_cons_2];
      intros e [= <-]; right; discriminate.
Defined.

(** Key a is buffered, deleted before the timer fires, and not shown by the
    two ticks that follow. *)
Lemma deleted_key_stays_deleted_example :
  "a"%string
    ∉ (NatsEntry.key
         <$> entries
               (run
                  (step (run initial [EffectRun (kvOptions 50); Watch (put "a" [])])
                     (Watch (del "a")))
                  (replicate 2 IntervalTick))).
Proof.
  apply (deleted_key_stays_deleted
           (run initial [EffectRun (kvOptions 50); Watch (put "a" [])])
           {| options := kvOptions 50; watching := true |}
           (del "a") 2);
    first [reflexivity | by left].
Defined.

End UpsertExamples.

Section LoopExamples.
Import Fixtures.
Import Js useNatsStream.
#[local] Existing Instance Fixtures.epochIso.

(** A start time built from NaN. *)
Lemma invalid_start_time_consumes_nothing_example :
  let o :=
    {| stream := Some "orders"%string; subject := None; decoder := lengthDecoder;
       reducer := appendReducer; opt_start_time := Some InvalidDate |} in
  log (step (run (Connection := unit) initial []) (Render (Some ()) o))
    = log (run (Connection := unit) (V := nat) initial []) ++ [SetData []; Jetstream ()] ∧
  data (run (step (run (Connection := unit) initial []) (Render (Some ()) o))
          (deliveries [(0%nat, msg "orders.a" (payload 1))])) = [].
Proof.
  apply (invalid_start_time_consumes_nothing (Connection := unit) []
           ()
           {| stream := Some "orders"%string; subject := None; decoder := lengthDecoder;
              reducer := appendReducer; opt_start_time := Some InvalidDate |}
           "orders" [(0%nat, msg "orders.a" (payload 1))]);
    first [reflexivity | discriminate].
Defined.

(** Three messages, as in the tests. *)
Lemma append_reducer_collects_all_example :
  data
    (run (Connection := unit)
       (step (run initial []) (Render (Some ()) (streamOptions None)))
       (deliveries
          [(0%nat, msg "orders.a" (payload 1));
           (0%nat, msg "orders.b" (payload 2));
           (0%nat, msg "orders.c" (payload 3))]))
  = [NatsMessage.mk "orders.a" 1%nat (TimeValue 0);
     NatsMessage.mk "orders.b" 2%nat (TimeValue 0);
     NatsMessage.mk "orders.c" 3%nat (TimeValue 0)].
Proof.
  apply (append_reducer_collects_all (Connection := unit) []
           (Some ()) (streamOptions None) 0 "orders"
           [(0%nat, msg "orders.a" (payload 1));
            (0%nat, msg "orders.b" (payload 2));
            (0%nat, msg "orders.c" (payload 3))]);
    first [reflexivity | discriminate | by eexists].
Defined.

(** The test of the sliding window: three messages, a window of two. *)
Lemma sliding_window_keeps_last_example :
  let o :=
    {| stream := Some "orders"%string; subject := None; decoder := lengthDecoder;
       reducer := slidingWindowReducer 2; opt_start_time := Some (TimeValue 0) |} in
  data
    (run (Connection := unit)
       (step (run initial []) (Render (Some ()) o))
       (deliveries
          [(0%nat, msg "orders.a" (payload 1));
           (0%nat, msg "orders.b" (payload 2));
           (0%nat, msg "orders.c" (payload 3))]))
  = [NatsMessage.mk "orders.b" 2%nat (TimeValue 0);
     NatsMessage.mk "orders.c" 3%nat (TimeValue 0)].
Proof.
  apply (sliding_window_keeps_last (Connection := unit) []
           (Some ())
           {| stream := Some "orders"%string; subject := None; decoder := lengthDecoder;
              reducer := slidingWindowReducer 2; opt_start_time := Some (TimeValue 0) |}
           2 0 "orders"
           [(0%nat, msg "orders.a" (payload 1));
            (0%nat, msg "orders.b" (payload 2));
            (0%nat, msg "orders.c" (payload 3))]
           [NatsMessage.mk "orders.a" 1%nat (TimeValue 0);
            NatsMessage.mk "orders.b" 2%nat (TimeValue 0);
            NatsMessage.mk "orders.c" 3%nat (TimeValue 0)]);
    first [reflexivity | discriminate | lia | by eexists].
Defined.

End LoopExamples.

Section LifeCycleExamples.
Import NatsProvider.

(** The first connection arrives after the unmount, and then its
    [closed()] promise resolves. *)
Lemma unmounted_provider_stays_idle_example :
  current
    (run (step (run (Connection := nat) initial [Commit "ws://a" None]) Unmount)
       [Connected 0 7%nat; Closed 0])
    = {| connection := None; connRef := None; isConnectingRef := false |} ∧
  length
    (filter (λ a, isWsconnect a)
       (log (run (step (run (Connection := nat) initial [Commit "ws://a" None]) Unmount)
               [Connected 0 7%nat; Closed 0])))
    = length
        (filter (λ a, isWsconnect a)
           (log (run (Connection := nat) initial [Commit "ws://a" None]))).
Proof.
  apply (unmounted_provider_stays_idle (Connection := nat)
           [Commit "ws://a" None] [Connected 0 7%nat; Closed 0]).
  by repeat constructor.
Defined.

(** The URL changes while the first connection is being made. *)
Lemma superseded_connection_is_closed_example :
  let p :=
    run (Connection := nat) initial [Commit "ws://a" None; Commit "ws://b" None] in
  log (step p (Connected 0 7%nat)) = log p ++ [Close 7%nat] ∧
  current (step p (Connected 0 7%nat)) = current p.
Proof.
  apply (superseded_connection_is_closed (Connection := nat)
           [Commit "ws://a" None; Commit "ws://b" None] 0
           {| isActive := false; connecting := true; listening := None |} 7%nat);
    first [reflexivity | discriminate].
Defined.

(** The server closes the connection that is held. *)
Lemma lost_connection_resets_example :
  let p := run (Connection := nat) initial [Commit "ws://a" None; Connected 0 7%nat] in
  current p
    = {| connection := Some 7%nat; connRef := Some 7%nat; isConnectingRef := true |} ∧
  current (step p (Closed 0))
    = {| connection := None; connRef := None; isConnectingRef := false |} ∧
  log (step p (Closed 0)) = log p.
Proof.
  split; [reflexivity|].
  apply (lost_connection_resets (Connection := nat)
           [Commit "ws://a" None; Connected 0 7%nat] 0
           {| isActive := true; connecting := false; listening := Some 7%nat |}
           (Closed 0));
    first [reflexivity | right; split; [reflexivity|discriminate]].
Defined.

(** Two renders without an [options] prop: the second allocates object 1,
    the dependency array of the first holds object 0. *)
Lemma default_options_rerun_effect_example :
  let props := NatsProviderProps.mk "ws://a" None in
  effectRuns (Some (renderDefault props 0).1.1) (renderDefault props 1).1.1 = true.
Proof.
  apply (default_options_rerun_effect (NatsProviderProps.mk "ws://a" None)
           (renderDefault (NatsProviderProps.mk "ws://a" None) 0).1.1 1%nat).
  simpl. lia.
Defined.

(** A provider that is connecting, and a stream hook under it. *)
Lemma hooks_idle_until_connected_example :
  let provider :=
    current (run (Connection := nat) initial [Commit "ws://a" None; Failed 0;
                                               Commit "ws://a" None]) in
  let h := useNatsStream.initial (V := nat) (Connection := nat) in
  useNatsConnection.useNatsConnection (Some provider) = None ∧
  useNatsConnection.useNatsConnection (Connection := nat) None = None ∧
  useNatsStream.log
    (useNatsStream.step (H := Fixtures.epochIso) h
       (useNatsStream.Render (useNatsConnection.useNatsConnection (Some provider))
          (Fixtures.streamOptions None)))
  = useNatsStream.log h ++ [useNatsStream.SetData []].
Proof.
  apply (hooks_idle_until_connected (Connection := nat) (V := nat)
           (H := Fixtures.epochIso)
           [Commit "ws://a" None; Failed 0; Commit "ws://a" None]
           useNatsStream.initial (Fixtures.streamOptions None)).
  by repeat constructor.
Defined.

End LifeCycleExamples.

(** ** The two variants of [stableUpsert] as functions on references *)
Section AliasingFacts.
Import Js useNatsKvTable.
Context {V : Type} `{Collation}.

(** X27.  The two variants of [stableUpsert] compute the same array and
    differ in where they put it.  The in-place variant returns its
    argument, overwritten, and allocates nothing that outlives the call;
    the copying variant returns a new array and leaves its argument, like
    every other array, as it was. *)
Theorem stableUpsert_variants_aliasing (σ : Store V) (arr : Ref) (newEntry : NatsEntry V) :
  (arr < length σ)%nat →
  let inPlace := stableUpsertRef σ arr newEntry true in
  let copying := stableUpsertRef σ arr newEntry false in
  inPlace.2 = arr ∧
  deref inPlace.1 arr = stableUpsert (deref σ arr) newEntry true ∧
  length inPlace.1 = length σ ∧
  copying.2 = length σ ∧
  deref copying.1 copying.2 = deref inPlace.1 inPlace.2 ∧
  (∀ r : Ref, (r < length σ)%nat → deref copying.1 r = deref σ r) ∧
  (∀ r : Ref, r ≠ arr → deref inPlace.1 r = deref σ r).
Proof.
  intros Harr inPlace copying.
  destruct (stableUpsertRef_spec σ arr newEntry true Harr)
    as (Hvalue & Href & _ & Hframe).
  destruct (stableUpsertRef_spec σ arr newEntry false Harr)
    as (Hvalue' & Href' & _ & Hframe').
  fold inPlace in Hvalue, Href, Hframe. fold copying in Hvalue', Href', Hframe'.
  split_and!.
  - done.
  - by rewrite Href in Hvalue.
  - subst inPlace. unfold stableUpsertRef.
    destruct (0 <=? _); cbn [fst]; by rewrite !length_assign.
  - done.
  - by rewrite Hvalue, Hvalue', stableUpsert_inPlace.
  - intros r Hr. apply Hframe'. rewrite Href'. lia.
  - intros r Hr. apply Hframe. by rewrite Href.
Qed.

End AliasingFacts.

Section SortContract.
Import Js useNatsKvTable.
Context {V : Type} `{ConsistentCollation}.

(** X28.  What [stableUpsert] returns for a new key does not depend on the
    sorting algorithm of the host: any arrangement of [[...arr, newEntry]]
    that is ascending in [localeCompare] of the keys and keeps entries with
    equivalent keys in the order they had, as ECMAScript requires of
    [sort], is the array returned. *)
Theorem stableUpsert_insertion_determined (arr sorted : list (NatsEntry V))
    (newEntry : NatsEntry V) (inPlace : bool) :
  NatsEntry.key newEntry ∉ (NatsEntry.key <$> arr) →
  sortedByKey sorted →
  sorted ≡ₚ arr ++ [newEntry] →
  (∀ x, filter (λ y, byKey x y ≤ 0 ∧ byKey y x ≤ 0) sorted
        = filter (λ y, byKey x y ≤ 0 ∧ byKey y x ≤ 0) (arr ++ [newEntry])) →
  stableUpsert arr newEntry inPlace = sorted.
Proof.
  intros Hnew Hsorted Hperm Hstable.
  rewrite stableUpsert_absent by done. symmetry.
  apply (sort_determined byKey); [apply byKey_total|apply byKey_transitive|done..].
Qed.

End SortContract.

Section AliasingExamples.
Import Js useNatsKvTable Fixtures.
#[local] Existing Instance Fixtures.codeUnitCollation.

(** A store of two arrays; key b is upserted into the second. *)
Lemma stableUpsert_variants_aliasing_example :
  let σ := [[entry "z" 9]; [entry "a" 1; entry "c" 3]] in
  let inPlace := stableUpsertRef σ 1%nat (entry "b" 2) true in
  let copying := stableUpsertRef σ 1%nat (entry "b" 2) false in
  inPlace.2 = 1%nat ∧
  deref inPlace.1 1%nat = stableUpsert (deref σ 1%nat) (entry "b" 2) true ∧
  length inPlace.1 = length σ ∧
  copying.2 = length σ ∧
  deref copying.1 copying.2 = deref inPlace.1 inPlace.2 ∧
  (∀ r : Ref, (r < length σ)%nat → deref copying.1 r = deref σ r) ∧
  (∀ r : Ref, r ≠ 1%nat → deref inPlace.1 r = deref σ r).
Proof.
  apply (stableUpsert_variants_aliasing
           [[entry "z" 9]; [entry "a" 1; entry "c" 3]] 1%nat (entry "b" 2)).
  simpl. lia.
Defined.

(** Key b goes between a and c. *)
Lemma stableUpsert_insertion_determined_example :
  stableUpsert [entry "a" 1; entry "c" 3] (entry "b" 2) false
  = [entry "a" 1; entry "b" 2; entry "c" 3].
Proof.
  apply (stableUpsert_insertion_determined (H0 := codeUnitCompare_consistent)
           [entry "a" 1; entry "c" 3] [entry "a" 1; entry "b" 2; entry "c" 3]
           (entry "b" 2) false).
  - intros Hin. repeat (apply elem_of_cons in Hin as [[=]|Hin]).
    by apply elem_of_nil in Hin.
  - repeat constructor; by vm_compute.
  - simpl. by rewrite (Permutation_swap (entry "b" 2) (entry "c" 3)).
  - intros x. simpl. rewrite !filter_cons, !filter_nil.
    destruct (decide (byKey x (entry "b" 2) ≤ 0 ∧ byKey (entry "b" 2) x ≤ 0))
      as [[Hxb Hbx]|]; [|done].
    destruct (decide (byKey x (entry "c" 3) ≤ 0 ∧ byKey (entry "c" 3) x ≤ 0))
      as [[Hxc Hcx]|]; [|done].
    pose proof (localeCompare_trans (ConsistentCollation := codeUnitCompare_consistent)
                  "c" (NatsEntry.key x) "b" Hcx Hxb) as Hcb.
    by vm_compute in Hcb.
Defined.

End AliasingExamples.

(** ** The cleanup and the asynchronous set-up of [useNatsKvTable] *)
Section AsyncFacts.
Import Js useNatsKvTable.
Import useNatsKvTable.Async.
Context {V Connection : Type} `{Collation}.
Implicit Types (m : Mounted V Connection) (ev : Event V Connection)
  (s : Setup V Connection) (c : Connection).

(** A run that is stopped stays stopped, whatever happens. *)
Lemma step_stopped m ev (i : nat) c (o : NatsKvTableOptions V) :
  setups m !! i
    = Some {| connection := c; options := o; opened := true; reading := false; ticking := false |} →
  setups (step m ev) !! i
    = Some {| connection := c; options := o; opened := true; reading := false; ticking := false |}.
Proof.
  intros Hi.
  assert (i < length (setups m))%nat as Hlen by (by eapply lookup_lt_Some).
  destruct ev as [[conn|] o'| |j|j e|j]; cbn [step]; try done.
  - simpl. by rewrite lookup_app_l.
  - destruct (cleanup m) as [j|]; [|done]. simpl.
    destruct (decide (j = i)) as [->|Hj].
    + by rewrite list_lookup_alter_eq, Hi.
    + by rewrite list_lookup_alter_ne.
  - destruct (setups m !! j) as [s|] eqn:Hj; [|done].
    destruct (opened s) eqn:Hopened; [done|]. simpl.
    rewrite list_lookup_insert_ne; [done|]. intros ->.
    rewrite Hi in Hj. injection Hj as <-. done.
  - destruct (setups m !! j) as [s|] eqn:Hj; [|done].
    destruct (reading s) eqn:Hreading; [|done].
    destruct (watchBody _ e _); simpl; [done|].
    rewrite list_lookup_insert_ne; [done|]. intros ->.
    rewrite Hi in Hj. injection Hj as <-. done.
  - destruct (setups m !! j) as [s|]; [|done]. by destruct (ticking s).
Qed.

Lemma run_stopped (evs : list (Event V Connection)) m (i : nat) c
    (o : NatsKvTableOptions V) :
  setups m !! i
    = Some {| connection := c; options := o; opened := true; reading := false; ticking := false |} →
  setups (run m evs) !! i
    = Some {| connection := c; options := o; opened := true; reading := false; ticking := false |}.
Proof.
  revert m. induction evs as [|ev evs IH]; intros m Hi; [done|].
  simpl. by apply IH, step_stopped.
Qed.

(** X29.  A cleanup that runs after [setupNats] has opened the watcher
    stops the run for good: its loop and its interval are off from then
    on, whatever happens, and what its watcher still yields and what its
    timer would do change nothing. *)
Theorem timely_cleanup_stops_run m (i : nat) s (evs : list (Event V Connection))
    (e : KvWatchEntry) :
  cleanup m = Some i → setups m !! i = Some s → opened s = true →
  setups (run (step m Cleanup) evs) !! i
    = Some {| connection := connection s; options := options s; opened := true; reading := false; ticking := false |} ∧
  step (run (step m Cleanup) evs) (Yield i e)
    = run (step m Cleanup) evs ∧
  step (run (step m Cleanup) evs) (Tick i)
    = run (step m Cleanup) evs.
Proof.
  intros Hcleanup Hi Hopened.
  assert (setups (run (step m Cleanup) evs) !! i
          = Some {| connection := connection s; options := options s; opened := true; reading := false;
                    ticking := false |}) as Hstopped.
  { apply run_stopped. cbn [step]. rewrite Hcleanup. simpl.
    rewrite list_lookup_alter_eq, Hi. simpl. unfold stop. by rewrite Hopened. }
  split; [done|]. revert Hstopped. generalize (run (step m Cleanup) evs).
  intros m' Hstopped. split; cbn [step]; by rewrite Hstopped.
Qed.

(** A run whose loop and interval are on, and whose cleanup React does not
    hold, stays on as long as its loop does not throw. *)
Lemma step_leaked m ev (i : nat) c (o : NatsKvTableOptions V) :
  setups m !! i
    = Some {| connection := c; options := o; opened := true; reading := true; ticking := batched o |} →
  (∀ j : nat, cleanup m = Some j → (i < j)%nat) →
  (∀ e, ev = Yield i e → ¬ throwsOn o e) →
  setups (step m ev) !! i
    = Some {| connection := c; options := o; opened := true; reading := true; ticking := batched o |} ∧
  (∀ j : nat, cleanup (step m ev) = Some j → (i < j)%nat).
Proof.
  intros Hi Hheld Hev.
  assert (i < length (setups m))%nat as Hlen by (by eapply lookup_lt_Some).
  destruct ev as [[conn|] o'| |j|j e|j]; cbn [step].
  - simpl. split; [by rewrite lookup_app_l|]. intros j [= <-]. done.
  - done.
  - destruct (cleanup m) as [j|] eqn:Hj; simpl; [|by rewrite Hj].
    split; [|done].
    rewrite list_lookup_alter_ne; [done|]. specialize (Hheld j eq_refl). lia.
  - destruct (setups m !! j) as [s|] eqn:Hj; [|done].
    destruct (opened s) eqn:Hopened; [done|]. simpl. split; [|done].
    rewrite list_lookup_insert_ne; [done|]. intros ->.
    rewrite Hi in Hj. injection Hj as <-. done.
  - destruct (setups m !! j) as [s|] eqn:Hj; [|done].
    destruct (reading s) eqn:Hreading; [|done].
    destruct (watchBody (options s) e (table m)) as [t|] eqn:Hbody; simpl; [done|].
    split; [|done].
    rewrite list_lookup_insert_ne; [done|]. intros ->.
    rewrite Hi in Hj. injection Hj as <-. simpl in Hbody.
    destruct (Hev e eq_refl).
    unfold watchBody, watchBatched, watchUnbatched in Hbody.
    destruct (batched o), (KvWatchEntry.operation e) eqn:Hop; try done;
      (split; [done|]); by destruct (newEntryOf o e).
  - destruct (setups m !! j) as [s|]; [|done]. by destruct (ticking s).
Qed.

Lemma run_leaked (evs : list (Event V Connection)) m (i : nat) c
    (o : NatsKvTableOptions V) :
  setups m !! i
    = Some {| connection := c; options := o; opened := true; reading := true; ticking := batched o |} →
  (∀ j : nat, cleanup m = Some j → (i < j)%nat) →
  Forall (λ ev, ∀ e, ev = Yield i e → ¬ throwsOn o e) evs →
  setups (run m evs) !! i
    = Some {| connection := c; options := o; opened := true; reading := true; ticking := batched o |}.
Proof.
  intros Hi Hheld Hevs. revert m Hi Hheld.
  induction Hevs as [|ev evs Hev _ IH]; intros m Hi Hheld; [done|].
  simpl. destruct (step_leaked m ev i c o Hi Hheld Hev) as [Hi' Hheld']. by apply IH.
Qed.

(** X30.  A cleanup that runs before [setupNats] has opened the watcher
    stops nothing: when the watcher opens, the run starts its loop and its
    interval with no cleanup left to stop them, and they stay on through
    every later run of the effect and every later cleanup, writing what the
    watcher yields into the entries and the buffer of the hook, until the
    loop itself throws. *)
Theorem early_cleanup_leaks_run m (i : nat) s (evs : list (Event V Connection)) :
  cleanup m = Some i → setups m !! i = Some s → opened s = false →
  Forall (λ ev, ∀ e, ev = Yield i e → ¬ throwsOn (options s) e) evs →
  let leaked := run (step (step m Cleanup) (Opened i)) evs in
  setups leaked !! i
    = Some {| connection := connection s; options := options s; opened := true; reading := true;
              ticking := batched (options s) |} ∧
  (∀ e t, watchBody (options s) e (table leaked) = Some t →
     table (step leaked (Yield i e)) = t) ∧
  (batched (options s) = true →
     table (step leaked (Tick i))
       = flushUpdates (table leaked)).
Proof.
  intros Hcleanup Hi Hopened Hevs leaked.
  assert (i < length (setups m))%nat as Hlen by (by eapply lookup_lt_Some).
  assert (step m Cleanup = {| table := table m; setups := setups m; cleanup := None |})
    as Hcleaned.
  { cbn [step]. rewrite Hcleanup. f_equal. apply list_eq. intros j.
    destruct (decide (i = j)) as [<-|Hj].
    - rewrite list_lookup_alter_eq, Hi. simpl. unfold stop. by rewrite Hopened.
    - by rewrite list_lookup_alter_ne. }
  assert (setups leaked !! i
          = Some {| connection := connection s; options := options s; opened := true; reading := true;
                    ticking := batched (options s) |}) as Hleaked.
  { apply run_leaked; [| |done].
    - rewrite Hcleaned. cbn [step]. simpl. rewrite Hi, Hopened. simpl.
      by rewrite list_lookup_insert_eq.
    - rewrite Hcleaned. cbn [step]. simpl. rewrite Hi, Hopened. done. }
  split; [done|]. revert Hleaked. generalize leaked. clear leaked.
  intros leaked Hleaked. split.
  - intros e t Hbody. cbn [step]. rewrite Hleaked. simpl. by rewrite Hbody.
  - intros Hbatched. cbn [step]. rewrite Hleaked. simpl. by rewrite Hbatched.
Qed.

End AsyncFacts.

Section AsyncExamples.
Import Js useNatsKvTable Fixtures.
Import useNatsKvTable.Async.
#[local] Existing Instance Fixtures.codeUnitCollation.

(** The watcher opens, a PUT is shown, the hook unmounts. *)
Lemma timely_cleanup_stops_run_example :
  let m :=
    run (Connection := unit) initial
      [EffectBody (Some ()) (kvOptions 0); Opened 0; Yield 0 (put "a" [])] in
  setups (run (step m Cleanup) [Yield 0 (put "b" [])]) !! 0%nat
    = Some {| connection := (); options := kvOptions 0; opened := true; reading := false;
              ticking := false |} ∧
  step (run (step m Cleanup) [Yield 0 (put "b" [])])
    (Yield 0 (put "c" []))
    = run (step m Cleanup) [Yield 0 (put "b" [])] ∧
  step (run (step m Cleanup) [Yield 0 (put "b" [])]) (Tick 0)
    = run (step m Cleanup) [Yield 0 (put "b" [])].
Proof.
  apply (timely_cleanup_stops_run (Connection := unit)
           (run initial
              [EffectBody (Some ()) (kvOptions 0); Opened 0; Yield 0 (put "a" [])])
           0 {| connection := (); options := kvOptions 0; opened := true; reading := true; ticking := false |}
           [Yield 0 (put "b" [])] (put "c" []));
    reflexivity.
Defined.

(** The hook unmounts before the watcher opens; the watcher opens, and a
    PUT it yields is written into the entries of the unmounted hook. *)
Lemma early_cleanup_leaks_run_example :
  let m := run (Connection := unit) initial [EffectBody (Some ()) (kvOptions 0)] in
  let leaked := run (step (step m Cleanup) (Opened 0)) [Cleanup; Yield 0 (put "a" [])] in
  useNatsKvTable.entries (table leaked) = [entry "a" 0] ∧
  setups leaked !! 0%nat
    = Some {| connection := (); options := kvOptions 0; opened := true; reading := true;
              ticking := false |} ∧
  (∀ e t, watchBody (kvOptions 0) e (table leaked) = Some t →
     table (step leaked (Yield 0 e)) = t) ∧
  (batched (kvOptions 0) = true →
     table (step leaked (Tick 0)) = flushUpdates (table leaked)).
Proof.
  split; [reflexivity|].
  apply (early_cleanup_leaks_run (Connection := unit)
           (run initial [EffectBody (Some ()) (kvOptions 0)])
           0 {| connection := (); options := kvOptions 0; opened := false; reading := false;
                ticking := false |}
           [Cleanup; Yield 0 (put "a" [])]);
    try reflexivity.
  repeat first [apply Forall_nil_2 | apply Forall_cons_2];
    intros e [= <-]; intros [_ [=]].
Defined.

End AsyncExamples.
